(** * JavaScript/TypeScript to Python converter: model and properties

    A shallow embedding of [learn/js_to_python_converter.py].  The converter
    is a pipeline of text passes built on Python's [re] and [str] methods.
    The file first models the text primitives and the backtracking regular
    expression matcher the passes rely on, then the passes themselves in
    the order of the source, and finally states the properties.

    Characters are [ascii], read as the code points U+0000 to U+00FF; the
    character classes follow CPython's tables on that range.  The
    interpreter's stack is modelled where the converter recurses:
    [_convert_type_rec] and [convert_in] count the frames that are left.
    Memory is outside the model. *)

From Stdlib Require Import Ascii String List Bool Arith NArith ZArith Lia.
Import ListNotations.
Local Open Scope list_scope.
Local Open Scope bool_scope.

Set Implicit Arguments.

(** ** Text *)

Definition str := list ascii.

Definition L (s : string) : str := list_ascii_of_string s.
Arguments L s%_string : simpl never.

Definition nl : ascii := "010"%char.
Definition dq : ascii := "034"%char.
Definition sq : ascii := "039"%char.

Definition chr_eqb (a b : ascii) : bool := Ascii.eqb a b.
Arguments chr_eqb : simpl never.

Fixpoint str_eqb (a b : str) : bool :=
  match a, b with
  | [], [] => true
  | x :: a', y :: b' => chr_eqb x y && str_eqb a' b'
  | _, _ => false
  end.

(** [s.startswith(p)] *)
Fixpoint startswith (p s : str) : bool :=
  match p, s with
  | [], _ => true
  | a :: p', b :: s' => chr_eqb a b && startswith p' s'
  | _ :: _, [] => false
  end.

(** [s.endswith(p)] *)
Definition endswith (p s : str) : bool := startswith (rev p) (rev s).

(** [p in s] *)
Fixpoint contains (p s : str) : bool :=
  startswith p s ||
  match s with
  | [] => false
  | _ :: s' => contains p s'
  end.

(** [s.find(p)]: index of the first occurrence *)
Fixpoint find (p s : str) : option nat :=
  if startswith p s then Some 0
  else match s with
       | [] => None
       | _ :: s' => option_map S (find p s')
       end.

(** [s.rfind(p)]: index of the last occurrence *)
Fixpoint rfind (p s : str) : option nat :=
  match s with
  | [] => if startswith p s then Some 0 else None
  | _ :: s' =>
      match rfind p s' with
      | Some i => Some (S i)
      | None => if startswith p s then Some 0 else None
      end
  end.

(** [s[i:j]] for non-negative bounds *)
Definition slice (i j : nat) (s : str) : str := firstn (j - i) (skipn i s).

(** [s.replace(old, new)]: occurrences are taken left to right and do not
    overlap *)
Fixpoint replace_from (old new : str) (skip : nat) (s : str) : str :=
  match s with
  | [] => []
  | c :: s' =>
      match skip with
      | S k => replace_from old new k s'
      | O => if startswith old s
             then new ++ replace_from old new (length old - 1) s'
             else c :: replace_from old new 0 s'
      end
  end.

Definition replace (old new s : str) : str :=
  match old with
  | [] => new ++ flat_map (fun c => c :: new) s
  | _ :: _ => replace_from old new 0 s
  end.

(** [s.split(sep)] for a one-character separator *)
Fixpoint split (sep : ascii) (s : str) : list str :=
  match s with
  | [] => [[]]
  | c :: s' =>
      if chr_eqb c sep then [] :: split sep s'
      else match split sep s' with
           | w :: ws => (c :: w) :: ws
           | [] => [[c]]
           end
  end.

Arguments split sep%_char s.

(** [s.split(sep, 1)] *)
Fixpoint split1 (sep : ascii) (s : str) : list str :=
  match s with
  | [] => [[]]
  | c :: s' =>
      if chr_eqb c sep then [[]; s']
      else match split1 sep s' with
           | w :: ws => (c :: w) :: ws
           | [] => [[c]]
           end
  end.

Arguments split1 sep%_char s.

(** [sep.join(parts)] *)
Fixpoint join (sep : str) (parts : list str) : str :=
  match parts with
  | [] => []
  | [p] => p
  | p :: ps => p ++ sep ++ join sep ps
  end.

(** ** Character classes, as CPython has them below U+0100 *)

Definition code (c : ascii) : N := N_of_ascii c.

Definition between (lo hi : N) (c : ascii) : bool :=
  (lo <=? code c)%N && (code c <=? hi)%N.

Definition isspace (c : ascii) : bool :=
  between 9 13 c || between 28 32 c || (code c =? 133)%N || (code c =? 160)%N.

Definition isdecimal (c : ascii) : bool := between 48 57 c.

Definition isalnum (c : ascii) : bool :=
  between 48 57 c || between 65 90 c || between 97 122 c ||
  (code c =? 170)%N || between 178 179 c || (code c =? 181)%N ||
  between 185 186 c || between 188 190 c ||
  between 192 214 c || between 216 246 c || between 248 255 c.

(** [\w] *)
Definition isword (c : ascii) : bool := isalnum c || chr_eqb c "_"%char.

(** [.] without DOTALL *)
Definition notnl (c : ascii) : bool := negb (chr_eqb c nl).

Definition is_chr (a : ascii) (c : ascii) : bool := chr_eqb c a.
Definition not_chr (a : ascii) (c : ascii) : bool := negb (chr_eqb c a).
Arguments is_chr a%_char c.
Arguments not_chr a%_char c.
Definition not_any (l : list ascii) (c : ascii) : bool :=
  negb (existsb (chr_eqb c) l).
Definition any_of (l : list ascii) (c : ascii) : bool := existsb (chr_eqb c) l.

Fixpoint dropwhile (p : ascii -> bool) (s : str) : str :=
  match s with
  | [] => []
  | c :: s' => if p c then dropwhile p s' else s
  end.

(** [s.lstrip()], [s.rstrip()], [s.strip()] *)
Definition lstrip (s : str) : str := dropwhile isspace s.
Definition rstrip (s : str) : str := rev (dropwhile isspace (rev s)).
Definition strip (s : str) : str := lstrip (rstrip s).

(** ** Regular expressions

    The fragment of Python's [re] syntax the converter uses.  Repetition
    only ever applies to a single character class in the source patterns,
    so [Star] takes a class. *)

Inductive regex : Type :=
| Lit (s : str)                  (* literal text *)
| Cls (p : ascii -> bool)        (* one character of a class *)
| Star (p : ascii -> bool)       (* greedy [p*] *)
| Cat (r1 r2 : regex)
| Alt (r1 r2 : regex)            (* [r1|r2] *)
| Opt (r : regex)                (* greedy [r?] *)
| Grp (n : nat) (r : regex)      (* capturing group number [n] *)
| NotAhead (r : regex)           (* [(?!r)] *)
| NotBehind (p : ascii -> bool)  (* [(?<!p)] for one character *)
| WordB                          (* [\b] *)
| EndLine                        (* [$] under MULTILINE *)
| Backref (n : nat).             (* [\n] *)

Definition Plus (p : ascii -> bool) : regex := Cat (Cls p) (Star p).

Definition span := (nat * nat)%type.
Definition captures := nat -> option span.

Definition no_captures : captures := fun _ => None.

Definition set_capture (n : nat) (v : span) (cs : captures) : captures :=
  fun m => if Nat.eqb m n then Some v else cs m.

(** The matcher's position in the subject: the index, the character before
    it, the text from it on, and the groups closed so far. *)
Record cursor := Cursor {
  pos : nat;
  prev : option ascii;
  rest : str;
  caps : captures
}.

Fixpoint advance (n : nat) (c : cursor) : cursor :=
  match n with
  | O => c
  | S n' =>
      match rest c with
      | [] => c
      | x :: xs => advance n' (Cursor (S (pos c)) (Some x) xs (caps c))
      end
  end.

Definition opt_is (p : ascii -> bool) (o : option ascii) : bool :=
  match o with
  | Some c => p c
  | None => false
  end.

Definition at_boundary (c : cursor) : bool :=
  xorb (opt_is isword (prev c)) (opt_is isword (hd_error (rest c))).

Definition at_endline (c : cursor) : bool :=
  match rest c with
  | [] => true
  | x :: _ => chr_eqb x nl
  end.

(** Greedy repetition of a class: take as many characters as possible, then
    give them back one at a time until the continuation succeeds. *)
Fixpoint star_loop (p : ascii -> bool) (k : cursor -> option cursor)
    (cs : captures) (i : nat) (pv : option ascii) (s : str) : option cursor :=
  match s with
  | x :: s' =>
      if p x then
        match star_loop p k cs (S i) (Some x) s' with
        | Some r => Some r
        | None => k (Cursor i pv s cs)
        end
      else k (Cursor i pv s cs)
  | [] => k (Cursor i pv s cs)
  end.

Definition group_text (subj : str) (cs : captures) (n : nat) : option str :=
  match cs n with
  | Some (b, e) => Some (slice b e subj)
  | None => None
  end.

(** Backtracking matcher in continuation-passing style: [k] is what remains
    to be matched after [r]. *)
Fixpoint rmatch (subj : str) (r : regex) (c : cursor)
    (k : cursor -> option cursor) {struct r} : option cursor :=
  match r with
  | Lit s => if startswith s (rest c) then k (advance (length s) c) else None
  | Cls p =>
      match rest c with
      | x :: xs => if p x then k (Cursor (S (pos c)) (Some x) xs (caps c)) else None
      | [] => None
      end
  | Star p => star_loop p k (caps c) (pos c) (prev c) (rest c)
  | Cat r1 r2 => rmatch subj r1 c (fun c' => rmatch subj r2 c' k)
  | Alt r1 r2 =>
      match rmatch subj r1 c k with
      | Some res => Some res
      | None => rmatch subj r2 c k
      end
  | Opt r1 =>
      match rmatch subj r1 c k with
      | Some res => Some res
      | None => k c
      end
  | Grp n r1 =>
      rmatch subj r1 c
        (fun c' => k (Cursor (pos c') (prev c') (rest c')
                        (set_capture n (pos c, pos c') (caps c'))))
  | NotAhead r1 =>
      match rmatch subj r1 c (fun c' => Some c') with
      | Some _ => None
      | None => k c
      end
  | NotBehind p => if opt_is p (prev c) then None else k c
  | WordB => if at_boundary c then k c else None
  | EndLine => if at_endline c then k c else None
  | Backref n =>
      match group_text subj (caps c) n with
      | Some s => if startswith s (rest c) then k (advance (length s) c) else None
      | None => None
      end
  end.

(** A match object. *)
Record matchobj := Match {
  m_subject : str;
  m_start : nat;
  m_end : nat;
  m_caps : captures
}.

(** [m.group(n)]; [None] when the group took no part in the match. *)
Definition group (m : matchobj) (n : nat) : option str :=
  group_text (m_subject m) (m_caps m) n.

(** One attempt at a fixed position.  [must_advance] refuses an empty
    match, as the engine does right after an empty match. *)
Definition match_at (r : regex) (subj : str) (i : nat) (pv : option ascii)
    (s : str) (must_advance : bool) : option matchobj :=
  match rmatch subj r (Cursor i pv s no_captures)
          (fun c' => if must_advance && Nat.eqb (pos c') i then None else Some c') with
  | Some c' => Some (Match subj i (pos c') (caps c'))
  | None => None
  end.

(** The subject cut into the characters kept and the matches found, as
    [re.sub] and [re.findall] scan it: leftmost match first, then on from
    its end. *)
Inductive piece :=
| Keep (c : ascii)
| Hit (m : matchobj).

Fixpoint scan (r : regex) (subj : str) (i : nat) (pv : option ascii)
    (skip : nat) (s : str) : list piece :=
  match s with
  | [] =>
      match skip with
      | O => match match_at r subj i pv [] false with
             | Some m => [Hit m]
             | None => []
             end
      | S _ => []
      end
  | x :: s' =>
      match skip with
      | S n => scan r subj (S i) (Some x) n s'
      | O =>
          match match_at r subj i pv s false with
          | Some m =>
              if Nat.eqb (m_end m) i then
                Hit m ::
                match match_at r subj i pv s true with
                | Some m' => Hit m' :: scan r subj (S i) (Some x) (m_end m' - i - 1) s'
                | None => Keep x :: scan r subj (S i) (Some x) 0 s'
                end
              else Hit m :: scan r subj (S i) (Some x) (m_end m - i - 1) s'
          | None => Keep x :: scan r subj (S i) (Some x) 0 s'
          end
      end
  end.

Definition pieces (r : regex) (s : str) : list piece := scan r s 0 None 0 s.

(** [re.search(r, s)] as a truth value *)
Definition re_search (r : regex) (s : str) : bool :=
  existsb (fun p => match p with Hit _ => true | Keep _ => false end) (pieces r s).

(** [re.findall(r, s)] for a pattern without groups: the matched texts *)
Definition re_findall (r : regex) (s : str) : list str :=
  flat_map (fun p => match p with
                     | Hit m => [slice (m_start m) (m_end m) (m_subject m)]
                     | Keep _ => []
                     end) (pieces r s).

(** ** Exceptions and converter state *)

(** The exceptions the converter's operations can raise: a string method
    on [None], [index] or an unpacking that fails, a list index out of
    range, a template that [re] refuses, and a recursion that finds no
    stack frame left. *)
Inductive exn := AttributeError | ValueError | IndexError | ReError | RecursionError.

Inductive result (A : Type) : Type :=
| Ok (a : A)
| Raise (e : exn).

Arguments Ok {A} a.
Arguments Raise {A} e.

Definition bind {A B : Type} (x : result A) (f : A -> result B) : result B :=
  match x with
  | Ok a => f a
  | Raise e => Raise e
  end.

Notation "x <- e ;; k" := (bind e (fun x => k))
  (at level 61, e at next level, right associativity).

(** [self.renamed_vars]: a dict, kept in insertion order *)
Definition renames := list (str * str).

(** A method that may read or write [self.renamed_vars] *)
Definition M (A : Type) : Type := renames -> result (A * renames).

Definition ret {A : Type} (a : A) : M A := fun st => Ok (a, st).

Definition bindM {A B : Type} (x : M A) (f : A -> M B) : M B :=
  fun st => match x st with
            | Ok (a, st') => f a st'
            | Raise e => Raise e
            end.

Definition lift {A : Type} (x : result A) : M A :=
  fun st => match x with
            | Ok a => Ok (a, st)
            | Raise e => Raise e
            end.

Definition get_renamed : M renames := fun st => Ok (st, st).
Definition put_renamed (t : renames) : M unit := fun _ => Ok (tt, t).

Notation "x <~ e ;; k" := (bindM e (fun x => k))
  (at level 61, e at next level, right associativity).

Fixpoint mapR {A B : Type} (f : A -> result B) (l : list A) : result (list B) :=
  match l with
  | [] => Ok []
  | a :: l' => b <- f a ;; bs <- mapR f l' ;; Ok (b :: bs)
  end.

Fixpoint mapM {A B : Type} (f : A -> M B) (l : list A) : M (list B) :=
  match l with
  | [] => ret []
  | a :: l' => b <~ f a ;; bs <~ mapM f l' ;; ret (b :: bs)
  end.

(** ** Substitution *)

(** A replacement template, already parsed: literal text and group
    references. *)
Inductive titem :=
| T (s : str)
| G (n : nat).

Definition template := list titem.

Fixpoint ngroups (r : regex) : nat :=
  match r with
  | Cat r1 r2 | Alt r1 r2 => Nat.max (ngroups r1) (ngroups r2)
  | Opt r1 | NotAhead r1 => ngroups r1
  | Grp n r1 => Nat.max n (ngroups r1)
  | _ => 0
  end.

(** A template that names a group the pattern does not have is refused
    when the substitution starts. *)
Definition template_ok (r : regex) (t : template) : bool :=
  forallb (fun it => match it with
                     | T _ => true
                     | G n => Nat.leb n (ngroups r)
                     end) t.

(** A group that took no part in the match expands to the empty text. *)
Definition expand (t : template) (m : matchobj) : str :=
  flat_map (fun it => match it with
                      | T s => s
                      | G n => match group m n with
                               | Some s => s
                               | None => []
                               end
                      end) t.

Definition piece_text (f : matchobj -> str) (p : piece) : str :=
  match p with
  | Keep c => [c]
  | Hit m => f m
  end.

(** [re.sub(r, template, s)] *)
Definition re_sub (r : regex) (t : template) (s : str) : result str :=
  if template_ok r t
  then Ok (flat_map (piece_text (expand t)) (pieces r s))
  else Raise ReError.

(** [re.sub(r, function, s)] for a function that may raise *)
Definition re_sub_fn (r : regex) (f : matchobj -> result str) (s : str) : result str :=
  parts <- mapR (fun p => match p with
                          | Keep c => Ok [c]
                          | Hit m => f m
                          end) (pieces r s) ;;
  Ok (concat parts).

(** [re.sub(r, method, s)] for a bound method, called match by match from
    left to right *)
Definition re_sub_m (r : regex) (f : matchobj -> M str) (s : str) : M str :=
  parts <~ mapM (fun p => match p with
                          | Keep c => ret [c]
                          | Hit m => f m
                          end) (pieces r s) ;;
  ret (concat parts).

(** [m.group(n)] where the caller goes on to use it as text.  The passes
    ask this only of groups their pattern always closes (see
    [group_str_set]); on an unset group the model raises. *)
Definition group_str (m : matchobj) (n : nat) : result str :=
  match group m n with
  | Some s => Ok s
  | None => Raise AttributeError
  end.

(** Truth value of [m.group(n)]: set and not empty *)
Definition group_true (m : matchobj) (n : nat) : bool :=
  match group m n with
  | Some (_ :: _) => true
  | _ => false
  end.

(** Pattern building blocks.  [pat src r] is [r]; [src] records the pattern
    as the source spells it, with Q standing for the double quote. *)
Definition pat (src : string) (r : regex) : regex := r.
Arguments pat src%_string r.

Fixpoint seq_re (rs : list regex) : regex :=
  match rs with
  | [] => Lit []
  | [r] => r
  | r :: rs' => Cat r (seq_re rs')
  end.

Definition ws : regex := Star isspace.        (* \s* *)
Definition ws1 : regex := Plus isspace.       (* \s+ *)
Definition w1 : regex := Plus isword.         (* \w+ *)
Definition lit (s : string) : regex := Lit (L s).
Definition t_ (s : string) : titem := T (L s).
Arguments lit s%_string.
Arguments t_ s%_string.
Definition quote : regex := Cls (any_of [sq; dq]).
Definition unquoted : regex := Star (not_any [sq; dq]).

(** * The converter *)

(** [self.type_map] *)
Definition type_map : list (str * str) :=
  [ (L "string", L "str");
    (L "number", L "float");
    (L "boolean", L "bool");
    (L "any", L "Any");
    (L "void", L "None");
    (L "undefined", L "None");
    (L "null", L "None");
    (L "string[]", L "List[str]");
    (L "number[]", L "List[float]");
    (L "boolean[]", L "List[bool]");
    (L "any[]", L "List[Any]");
    (L "Array<string>", L "List[str]");
    (L "Array<number>", L "List[float]");
    (L "Array<boolean>", L "List[bool]");
    (L "Array<any>", L "List[Any]");
    (L "Promise", L "Awaitable");
    (L "Object", L "Dict[str, Any]");
    (L "Record<string, any>", L "Dict[str, Any]") ].

(** [self.method_map], in the order the dict is written and iterated *)
Definition method_map : list (str * str) :=
  [ (L "console.log", L "print");
    (L "console.error", L "print");
    (L "console.warn", L "print");
    (L "Math.floor", L "int");
    (L "Math.ceil", L "math.ceil");
    (L "Math.round", L "round");
    (L "Math.abs", L "abs");
    (L "Math.max", L "max");
    (L "Math.min", L "min");
    (L "Math.random", L "random.random");
    (L "JSON.stringify", L "json.dumps");
    (L "JSON.parse", L "json.loads");
    (L "parseInt", L "int");
    (L "parseFloat", L "float");
    (L "toString", L "str");
    (L "length", L "len");
    (L "push", L "append");
    (L "pop", L "pop");
    (L "shift", L "pop(0)");
    (L "indexOf", L "index");
    (L "includes", L "in");
    (L "toLowerCase", L "lower");
    (L "toUpperCase", L "upper");
    (L "trim", L "strip");
    (L "split", L "split");
    (L "join", L "join");
    (L "replace", L "replace");
    (L "slice", L "slice");
    (L "substring", L "slice") ].

(** [self.python_keywords] *)
Definition python_keywords : list str :=
  map L
  [ "class"; "def"; "return"; "if"; "else"; "elif"; "for"; "while";
    "import"; "from"; "as"; "try"; "except"; "finally"; "with";
    "lambda"; "pass"; "break"; "continue"; "global"; "nonlocal";
    "assert"; "del"; "in"; "is"; "not"; "or"; "and"; "None";
    "True"; "False"; "yield"; "async"; "await";
    "max"; "min"; "sum"; "len"; "list"; "dict"; "set"; "str";
    "int"; "float"; "bool"; "type"; "print"; "input"; "open";
    "range"; "zip"; "map"; "filter"; "sorted"; "reversed" ]%string.

(** [key in d] and [d[key]] for a dict held as an association list *)
Fixpoint lookup (key : str) (d : list (str * str)) : option str :=
  match d with
  | [] => None
  | (k, v) :: d' => if str_eqb key k then Some v else lookup key d'
  end.

Definition mem (x : str) (l : list str) : bool := existsb (str_eqb x) l.

(** [d[key] = v]: a key already there keeps its place *)
Fixpoint dict_set (key v : str) (d : list (str * str)) : list (str * str) :=
  match d with
  | [] => [(key, v)]
  | (k, v') :: d' => if str_eqb key k then (k, v) :: d' else (k, v') :: dict_set key v d'
  end.

(** [s.index(p)] and [s.rindex(p)] raise when [p] does not occur *)
Definition index (p s : str) : result nat :=
  match find p s with
  | Some i => Ok i
  | None => Raise ValueError
  end.

Definition rindex (p s : str) : result nat :=
  match rfind p s with
  | Some i => Ok i
  | None => Raise ValueError
  end.

(** [l[i]] *)
Definition item (l : list str) (i : nat) : result str :=
  match nth_error l i with
  | Some x => Ok x
  | None => Raise IndexError
  end.

(** *** Decorators *)

Definition decorator_pattern : regex :=
  pat "@\w+\([^\)]*\)\s*\n"
  (seq_re [lit "@"; w1; lit "("; Star (not_chr ")"); lit ")"; ws; Lit [nl]]).

Definition _extract_decorators (code : str) : result (list str * str) :=
  let decorators := re_findall decorator_pattern code in
  clean_code <- re_sub decorator_pattern [] code ;;
  Ok (decorators, clean_code).

(** *** Imports *)

Definition es6_import : regex :=
  pat "import\s+\{([^}]+)\}\s+from\s+['Q]([^'Q]*)['Q]\s*;?"
  (seq_re [lit "import"; ws1; lit "{"; Grp 1 (Plus (not_chr "}")); lit "}"; ws1;
          lit "from"; ws1; quote; Grp 2 unquoted; quote; ws; Opt (lit ";")]).

Definition default_import : regex :=
  pat "import\s+(\w+)\s+from\s+['Q]([^'Q]*)['Q]\s*;?"
  (seq_re [lit "import"; ws1; Grp 1 w1; ws1;
          lit "from"; ws1; quote; Grp 2 unquoted; quote; ws; Opt (lit ";")]).

Definition require_import : regex :=
  pat "const\s+(\w+)\s*=\s*require\(['Q]([^'Q]*)['Q]\)\s*;?"
  (seq_re [lit "const"; ws1; Grp 1 w1; ws; lit "="; ws; lit "require(";
          quote; Grp 2 unquoted; quote; lit ")"; ws; Opt (lit ";")]).

Definition _convert_imports (code : str) : result str :=
  code <- re_sub_fn es6_import
            (fun m => path <- group_str m 2 ;; names <- group_str m 1 ;;
                      Ok (L "from " ++ replace (L "/") (L ".") path ++ L " import " ++ names))
            code ;;
  code <- re_sub_fn default_import
            (fun m => path <- group_str m 2 ;; name <- group_str m 1 ;;
                      Ok (L "import " ++ replace (L "/") (L ".") path ++ L " as " ++ name))
            code ;;
  code <- re_sub_fn require_import
            (fun m => path <- group_str m 2 ;; name <- group_str m 1 ;;
                      Ok (L "import " ++ replace (L "/") (L ".") path ++ L " as " ++ name))
            code ;;
  Ok code.

(** *** Types and parameters *)

(** The body of [_convert_type]; [self] stands for the recursive calls. *)
Definition _convert_type_body (self : str -> result str) (ts_type : str) : result str :=
  match ts_type with
  | [] => Ok (L "Any")
  | _ :: _ =>
      let ts_type := strip ts_type in
      if contains (L "|") ts_type then
        types <- mapR (fun t => self (strip t)) (split "|" ts_type) ;;
        Ok (L "Union[" ++ join (L ", ") types ++ L "]")
      else
        match lookup ts_type type_map with
        | Some py => Ok py
        | None =>
            if contains (L "<") ts_type && contains (L ">") ts_type then
              i <- index (L "<") ts_type ;;
              let base_type := slice 0 i ts_type in
              i <- index (L "<") ts_type ;;
              j <- rindex (L ">") ts_type ;;
              let inner_type := slice (i + 1) j ts_type in
              if str_eqb base_type (L "Array") then
                inner <- self inner_type ;;
                Ok (L "List[" ++ inner ++ L "]")
              else if str_eqb base_type (L "Promise") then
                inner <- self inner_type ;;
                Ok (L "Awaitable[" ++ inner ++ L "]")
              else if str_eqb base_type (L "Record") then
                let key_value := split1 "," inner_type in
                if Nat.eqb (length key_value) 2 then
                  k <- item key_value 0 ;;
                  k <- self k ;;
                  v <- item key_value 1 ;;
                  v <- self v ;;
                  Ok (L "Dict[" ++ k ++ L ", " ++ v ++ L "]")
                else Ok ts_type
              else Ok ts_type
            else Ok ts_type
        end
  end.

(** [_convert_type] calls itself once for every level of a generic or
    union type, each time on a strictly shorter text.
    [_convert_type_rec frames] is the call when the interpreter has
    [frames] stack frames left: every level takes one, and with none left
    the call raises [RecursionError].  (The interpreter allows
    [sys.getrecursionlimit()] frames, 1000 unless that is changed, which
    the source never does; the callers hold some of them.) *)
Fixpoint _convert_type_rec (frames : nat) (ts_type : str) : result str :=
  match frames with
  | O => Raise RecursionError
  | S d => _convert_type_body (_convert_type_rec d) ts_type
  end.

(** The call on a stack that never runs out: a text of length [n] needs at
    most [n + 1] frames.  The passes below are written with it; they
    describe what the converter returns whenever the stack suffices.
    [convert_in], further down, is [convert] with the frames counted. *)
Definition _convert_type (ts_type : str) : result str :=
  _convert_type_rec (S (length ts_type)) ts_type.

Definition _convert_param (param : str) : result str :=
  let param := strip param in
  if contains (L ":") param then
    match split1 ":" param with
    | [name; ts_type] =>
        let name := strip name in
        let ts_type := strip ts_type in
        py_type <- _convert_type ts_type ;;
        Ok (name ++ L ": " ++ py_type)
    | _ => Raise ValueError
    end
  else Ok param.

Definition _convert_params (params : str) : result str :=
  match strip params with
  | [] => Ok params
  | _ :: _ =>
      param_list <- mapR _convert_param (split "," params) ;;
      Ok (join (L ", ") param_list)
  end.

(** *** Functions *)

Definition arrow_function : regex :=
  pat "const\s+(\w+)\s*=\s*\(([^)]*)\)\s*=>\s*\{"
  (seq_re [lit "const"; ws1; Grp 1 w1; ws; lit "="; ws; lit "(";
          Grp 2 (Star (not_chr ")")); lit ")"; ws; lit "=>"; ws; lit "{"]).

Definition async_arrow_function : regex :=
  pat "const\s+(\w+)\s*=\s*async\s*\(([^)]*)\)\s*=>\s*\{"
  (seq_re [lit "const"; ws1; Grp 1 w1; ws; lit "="; ws; lit "async"; ws; lit "(";
          Grp 2 (Star (not_chr ")")); lit ")"; ws; lit "=>"; ws; lit "{"]).

Definition function_declaration : regex :=
  pat "function\s+(\w+)\s*\(([^)]*)\)\s*(?::\s*([^\{]+))?\s*\{"
  (seq_re [lit "function"; ws1; Grp 1 w1; ws; lit "(";
          Grp 2 (Star (not_chr ")")); lit ")"; ws;
          Opt (seq_re [lit ":"; ws; Grp 3 (Plus (not_chr "{"))]); ws; lit "{"]).

Definition async_function_declaration : regex :=
  pat "async\s+function\s+(\w+)\s*\(([^)]*)\)\s*(?::\s*([^\{]+))?\s*\{"
  (seq_re [lit "async"; ws1; function_declaration]).

Definition return_type_of (m : matchobj) : result str :=
  if group_true m 3
  then t <- group_str m 3 ;; _convert_type t
  else Ok (L "Any").

Definition convert_function (m : matchobj) : result str :=
  func_name <- group_str m 1 ;;
  raw <- group_str m 2 ;;
  params <- _convert_params raw ;;
  return_type <- return_type_of m ;;
  Ok (L "def " ++ func_name ++ L "(" ++ params ++ L ") -> " ++ return_type
        ++ L ":" ++ [nl] ++ L "    __INDENT__").

Definition convert_async_function (m : matchobj) : result str :=
  func_name <- group_str m 1 ;;
  raw <- group_str m 2 ;;
  params <- _convert_params raw ;;
  return_type <- return_type_of m ;;
  Ok (L "async def " ++ func_name ++ L "(" ++ params ++ L ") -> " ++ return_type ++ L ":").

Definition _convert_functions (code : str) : result str :=
  code <- re_sub arrow_function [t_ "def "; G 1; t_ "("; G 2; t_ "):"] code ;;
  code <- re_sub async_arrow_function [t_ "async def "; G 1; t_ "("; G 2; t_ "):"] code ;;
  code <- re_sub_fn function_declaration convert_function code ;;
  code <- re_sub_fn async_function_declaration convert_async_function code ;;
  Ok code.

(** *** Classes *)

Definition class_definition : regex :=
  pat "class\s+(\w+)\s*(?:extends\s+(\w+))?\s*\{"
  (seq_re [lit "class"; ws1; Grp 1 w1; ws;
          Opt (seq_re [lit "extends"; ws1; Grp 2 w1]); ws; lit "{"]).

Definition constructor_definition : regex :=
  pat "constructor\s*\(([^)]*)\)\s*\{"
  (seq_re [lit "constructor"; ws; lit "("; Grp 1 (Star (not_chr ")")); lit ")"; ws; lit "{"]).

Definition _convert_classes (code : str) : result str :=
  code <- re_sub_fn class_definition
            (fun m => name <- group_str m 1 ;;
                      base <- (if group_true m 2 then group_str m 2 else Ok (L "object")) ;;
                      Ok (L "class " ++ name ++ L "(" ++ base ++ L "):"))
            code ;;
  code <- re_sub_fn constructor_definition
            (fun m => params <- group_str m 1 ;;
                      Ok (L "def __init__(self, " ++ params ++ L "):"))
            code ;;
  Ok code.

(** *** Array methods *)

Definition arrow_spacing : regex :=
  pat "\s*=>\s*" (seq_re [ws; lit "=>"; ws]).

Definition reduce_call : regex :=
  pat "(\w+)\.reduce\(\((\w+),\s*(\w+)\) => ([^,]+),\s*([^)]+)\)"
  (seq_re [Grp 1 w1; lit ".reduce(("; Grp 2 w1; lit ","; ws; Grp 3 w1; lit ") => ";
           Grp 4 (Plus (not_chr ",")); lit ","; ws; Grp 5 (Plus (not_chr ")")); lit ")"]).

(** [method] is one of map, filter, find *)
Definition call_paren (method : string) : regex :=
  pat "(\w+)\.method\(\((\w+)\) => ([^)]+)\)"
  (seq_re [Grp 1 w1; lit "."; lit method; lit "(("; Grp 2 w1; lit ") => ";
           Grp 3 (Plus (not_chr ")")); lit ")"]).

Definition call_bare (method : string) : regex :=
  pat "(\w+)\.method\((\w+) => ([^)]+)\)"
  (seq_re [Grp 1 w1; lit "."; lit method; lit "("; Grp 2 w1; lit " => ";
           Grp 3 (Plus (not_chr ")")); lit ")"]).

Definition foreach_paren : regex :=
  pat "(\w+)\.forEach\(\((\w+)\) => \{"
  (seq_re [Grp 1 w1; lit ".forEach(("; Grp 2 w1; lit ") => {"]).

Definition foreach_bare : regex :=
  pat "(\w+)\.forEach\((\w+) => \{"
  (seq_re [Grp 1 w1; lit ".forEach("; Grp 2 w1; lit " => {"]).

Definition map_template : template := [t_ "["; G 3; t_ " for "; G 2; t_ " in "; G 1; t_ "]"].
Definition filter_template : template :=
  [t_ "["; G 2; t_ " for "; G 2; t_ " in "; G 1; t_ " if "; G 3; t_ "]"].
Definition foreach_template : template := [t_ "for "; G 2; t_ " in "; G 1; t_ ":"].
Definition find_template : template :=
  [t_ "next(("; G 2; t_ " for "; G 2; t_ " in "; G 1; t_ " if "; G 3; t_ "), None)"].

Definition _convert_array_methods (code : str) : result str :=
  code <- re_sub arrow_spacing [t_ " => "] code ;;
  let code := replace (L ";") [] code in
  code <- re_sub reduce_call
            [t_ "functools.reduce(lambda "; G 2; t_ ", "; G 3; t_ ": "; G 4; t_ ", ";
             G 1; t_ ", "; G 5; t_ ")"] code ;;
  code <- re_sub (call_paren "map") map_template code ;;
  code <- re_sub (call_bare "map") map_template code ;;
  code <- re_sub (call_paren "filter") filter_template code ;;
  code <- re_sub (call_bare "filter") filter_template code ;;
  code <- re_sub foreach_paren foreach_template code ;;
  code <- re_sub foreach_bare foreach_template code ;;
  code <- re_sub (call_paren "find") find_template code ;;
  code <- re_sub (call_bare "find") find_template code ;;
  Ok code.

(** *** Variables *)

Definition _safe_var_name (name : str) : str :=
  if mem name python_keywords then name ++ L "_var" else name.

Definition _handle_var_declaration (name : str) (type_str : option str) (typed : bool)
  : M str :=
  let safe_name := _safe_var_name name in
  _u <~ (if negb (str_eqb safe_name name)
         then (t <~ get_renamed ;; put_renamed (dict_set name safe_name t))
         else ret tt) ;;
  match typed, type_str with
  | true, Some (c :: cs) =>
      py <~ lift (_convert_type (c :: cs)) ;;
      ret (safe_name ++ L ": " ++ py ++ L " =")
  | _, _ => ret (safe_name ++ L " = ")
  end.

Definition declaration_keyword : regex :=
  pat "\b(const|let|var)\s+"
  (seq_re [WordB; Grp 1 (Alt (lit "const") (Alt (lit "let") (lit "var"))); ws1]).

Definition typed_declaration : regex :=
  pat "(\w+)\s*:\s*([^=\n]+)\s*="
  (seq_re [Grp 1 w1; ws; lit ":"; ws; Grp 2 (Plus (not_any ["="%char; nl])); ws; lit "="]).

Definition untyped_assignment : regex :=
  pat "\b(\w+)\s*=\s*(?!=|>)"
  (seq_re [WordB; Grp 1 w1; ws; lit "="; ws; NotAhead (Alt (lit "=") (lit ">"))]).

(** [old_name] is a key of the rename table, hence one of the keywords:
    written into a pattern it stands for itself. *)
Definition protected_call (old_name : str) : regex :=
  pat "\b{old_name}_var\s*=\s*{old_name}\("
  (seq_re [WordB; Lit old_name; lit "_var"; ws; lit "="; ws; Lit old_name; lit "("]).

Definition usage (old_name : str) : regex :=
  pat "\b{old_name}\b(?!\s*=)(?!__PROTECTED__)"
  (seq_re [WordB; Lit old_name; WordB; NotAhead (seq_re [ws; lit "="]);
           NotAhead (lit "__PROTECTED__")]).

Definition rename_usages (code : str) (entry : str * str) : result str :=
  let '(old_name, new_name) := entry in
  code <- re_sub (protected_call old_name)
            [T old_name; t_ "_var = "; T old_name; t_ "__PROTECTED__("] code ;;
  code <- re_sub (usage old_name) [T new_name] code ;;
  Ok (replace (old_name ++ L "__PROTECTED__") old_name code).

Fixpoint foldR {A B : Type} (f : A -> B -> result A) (a : A) (l : list B) : result A :=
  match l with
  | [] => Ok a
  | b :: l' => a' <- f a b ;; foldR f a' l'
  end.

Definition _convert_variables (code : str) : M str :=
  _u <~ put_renamed [] ;;
  code <~ lift (re_sub declaration_keyword [] code) ;;
  code <~ re_sub_m typed_declaration
            (fun m => name <~ lift (group_str m 1) ;;
                      _handle_var_declaration name (group m 2) true)
            code ;;
  code <~ re_sub_m untyped_assignment
            (fun m => name <~ lift (group_str m 1) ;;
                      _handle_var_declaration name None false)
            code ;;
  renamed <~ get_renamed ;;
  lift (foldR rename_usages code renamed).

(** *** Control structures *)

Definition decl_kw3 : regex := Opt (Alt (lit "const") (Alt (lit "let") (lit "var"))).

Definition for_of : regex :=
  pat "for\s*\(\s*(?:const|let|var)?\s*(\w+)\s+of\s+([^)]+)\)\s*\{"
  (seq_re [lit "for"; ws; lit "("; ws; decl_kw3; ws; Grp 1 w1; ws1; lit "of"; ws1;
           Grp 2 (Plus (not_chr ")")); lit ")"; ws; lit "{"]).

Definition for_in : regex :=
  pat "for\s*\(\s*(?:const|let|var)?\s*(\w+)\s+in\s+([^)]+)\)\s*\{"
  (seq_re [lit "for"; ws; lit "("; ws; decl_kw3; ws; Grp 1 w1; ws1; lit "in"; ws1;
           Grp 2 (Plus (not_chr ")")); lit ")"; ws; lit "{"]).

Definition for_counting : regex :=
  pat "for\s*\(\s*(?:let|var)?\s*(\w+)\s*=\s*(\d+)\s*;\s*\1\s*<\s*([^;]+)\s*;\s*\1\+\+\s*\)\s*\{"
  (seq_re [lit "for"; ws; lit "("; ws; Opt (Alt (lit "let") (lit "var")); ws;
           Grp 1 w1; ws; lit "="; ws; Grp 2 (Plus isdecimal); ws; lit ";"; ws;
           Backref 1; ws; lit "<"; ws; Grp 3 (Plus (not_chr ";")); ws; lit ";"; ws;
           Backref 1; lit "++"; ws; lit ")"; ws; lit "{"]).

Definition if_statement : regex :=
  pat "if\s*\(([^)]+)\)\s*\{"
  (seq_re [lit "if"; ws; lit "("; Grp 1 (Plus (not_chr ")")); lit ")"; ws; lit "{"]).

Definition else_if : regex :=
  pat "}\s*else\s+if\s*\(([^)]+)\)\s*\{"
  (seq_re [lit "}"; ws; lit "else"; ws1; lit "if"; ws; lit "(";
           Grp 1 (Plus (not_chr ")")); lit ")"; ws; lit "{"]).

Definition else_block : regex :=
  pat "}\s*else\s*\{" (seq_re [lit "}"; ws; lit "else"; ws; lit "{"]).

Definition while_loop : regex :=
  pat "while\s*\(([^)]+)\)\s*\{"
  (seq_re [lit "while"; ws; lit "("; Grp 1 (Plus (not_chr ")")); lit ")"; ws; lit "{"]).

Definition try_block : regex :=
  pat "try\s*\{" (seq_re [lit "try"; ws; lit "{"]).

Definition catch_block : regex :=
  pat "}\s*catch\s*\((\w+)\)\s*\{"
  (seq_re [lit "}"; ws; lit "catch"; ws; lit "("; Grp 1 w1; lit ")"; ws; lit "{"]).

Definition switch_statement : regex :=
  pat "switch\s*\(([^)]+)\)\s*\{"
  (seq_re [lit "switch"; ws; lit "("; Grp 1 (Plus (not_chr ")")); lit ")"; ws; lit "{"]).

Definition case_label : regex :=
  pat "case\s+([^:]+):"
  (seq_re [lit "case"; ws1; Grp 1 (Plus (not_chr ":")); lit ":"]).

Definition default_label : regex := pat "default:" (lit "default:").

Definition _convert_control_structures (code : str) : result str :=
  code <- re_sub for_of [t_ "for "; G 1; t_ " in "; G 2; t_ ":"] code ;;
  code <- re_sub for_in [t_ "for "; G 1; t_ " in "; G 2; t_ ":"] code ;;
  code <- re_sub for_counting
            [t_ "for "; G 1; t_ " in range("; G 2; t_ ", "; G 3; t_ "):"] code ;;
  code <- re_sub if_statement [t_ "if "; G 1; t_ ":"] code ;;
  code <- re_sub else_if [t_ "elif "; G 1; t_ ":"] code ;;
  code <- re_sub else_block [t_ "else:"] code ;;
  code <- re_sub while_loop [t_ "while "; G 1; t_ ":"] code ;;
  code <- re_sub try_block [t_ "try:"] code ;;
  code <- re_sub catch_block [t_ "except Exception as "; G 1; t_ ":"] code ;;
  code <- re_sub switch_statement
            [t_ "_switch_var = "; G 1; T [nl]; t_ "if False:  # switch"] code ;;
  code <- re_sub case_label [t_ "elif _switch_var == "; G 1; t_ ":"] code ;;
  code <- re_sub default_label [t_ "else:"] code ;;
  Ok code.

(** *** Object literals *)

(** One turn of the loop over the lines of an object literal: the pair to
    append, if any.  Unpacking [line.split(':', 1)] into two names raises
    unless it has two parts. *)
Definition object_pair (renamed : renames) (line : str) : result (list str) :=
  let line := strip line in
  if str_eqb line [] || str_eqb line (L ",") then Ok []
  else
    let line := if endswith (L ",") line then removelast line else line in
    if contains (L ":") line then
      match split1 ":" line with
      | [key; value] =>
          let key := strip key in
          let value := strip value in
          let key := if startswith [dq] key || startswith [sq] key
                     then key else [dq] ++ key ++ [dq] in
          let value := match lookup value renamed with
                       | Some new_name => new_name
                       | None => value
                       end in
          Ok [key ++ L ": " ++ value]
      | _ => Raise ValueError
      end
    else Ok [].

Definition _convert_object_literal (content : str) : M str :=
  renamed <~ get_renamed ;;
  let lines := split nl (strip content) in
  pairs <~ lift (mapR (object_pair renamed) lines) ;;
  ret (L "{" ++ join (L ", ") (concat pairs) ++ L "}").

Definition return_object : regex :=
  pat "return\s*\{([^}]+)\}"
  (seq_re [lit "return"; ws; lit "{"; Grp 1 (Plus (not_chr "}")); lit "}"]).

Definition assigned_object : regex :=
  pat "=\s*\{([^}]+)\}"
  (seq_re [lit "="; ws; lit "{"; Grp 1 (Plus (not_chr "}")); lit "}"]).

Definition _convert_objects (code : str) : M str :=
  code <~ re_sub_m return_object
            (fun m => content <~ lift (group_str m 1) ;;
                      d <~ _convert_object_literal content ;;
                      ret (L "return " ++ d))
            code ;;
  code <~ re_sub_m assigned_object
            (fun m => content <~ lift (group_str m 1) ;;
                      d <~ _convert_object_literal content ;;
                      ret (L "= " ++ d))
            code ;;
  ret code.

(** *** Methods and properties *)

Definition spread : regex := pat "\.\.\.(\w+)" (seq_re [lit "..."; Grp 1 w1]).

Definition length_property : regex :=
  pat "(\w+)\.length\b" (seq_re [Grp 1 w1; lit ".length"; WordB]).

Definition renamed_method (js_method : str) : regex :=
  pat "\b{re.escape(js_method)}_var\b" (seq_re [WordB; Lit js_method; lit "_var"; WordB]).

Definition method_name (js_method : str) : regex :=
  pat "\b{re.escape(js_method)}\b" (seq_re [WordB; Lit js_method; WordB]).

Definition replace_method (code : str) (entry : str * str) : result str :=
  let '(js_method, py_method) := entry in
  if negb (re_search (renamed_method js_method) code)
  then re_sub (method_name js_method) [T py_method] code
  else Ok code.

Definition case_call (method : string) : regex :=
  pat "(\w+)\.method\(\)" (seq_re [Grp 1 w1; lit "."; lit method; lit "()"]).

(** [op] is === or !==, [what] is undefined or null *)
Definition nullish_check (op what : string) : regex :=
  pat "(\w+)\s*op\s*what" (seq_re [Grp 1 w1; ws; lit op; ws; lit what]).

Definition _convert_common_methods (code : str) : result str :=
  code <- re_sub spread [t_ "*"; G 1] code ;;
  code <- re_sub length_property [t_ "len("; G 1; t_ ")"] code ;;
  code <- foldR replace_method code method_map ;;
  code <- re_sub (case_call "toLowerCase") [G 1; t_ ".lower()"] code ;;
  code <- re_sub (case_call "toUpperCase") [G 1; t_ ".upper()"] code ;;
  code <- re_sub (nullish_check "===" "undefined") [G 1; t_ " is None"] code ;;
  code <- re_sub (nullish_check "===" "null") [G 1; t_ " is None"] code ;;
  code <- re_sub (nullish_check "!==" "undefined") [G 1; t_ " is not None"] code ;;
  code <- re_sub (nullish_check "!==" "null") [G 1; t_ " is not None"] code ;;
  Ok code.

(** *** Operators *)

Definition bt : ascii := "096"%char.

Definition negation : regex := pat "!\s*(\w+)" (seq_re [lit "!"; ws; Grp 1 w1]).
Definition increment : regex := pat "(\w+)\+\+" (seq_re [Grp 1 w1; lit "++"]).
Definition decrement : regex := pat "(\w+)--" (seq_re [Grp 1 w1; lit "--"]).

(** B stands for the backtick *)
Definition template_literal : regex :=
  pat "B([^B]*)\$\{([^}]+)\}([^B]*)B"
  (seq_re [Lit [bt]; Grp 1 (Star (not_chr bt)); lit "${"; Grp 2 (Plus (not_chr "}"));
           lit "}"; Grp 3 (Star (not_chr bt)); Lit [bt]]).

Definition plain_template_literal : regex :=
  pat "B([^B]*)B" (seq_re [Lit [bt]; Grp 1 (Star (not_chr bt)); Lit [bt]]).

Definition _convert_operators (code : str) : result str :=
  let code := replace (L "===") (L "==") code in
  let code := replace (L "!==") (L "!=") code in
  let code := replace (L "&&") (L "and") code in
  let code := replace (L "||") (L "or") code in
  code <- re_sub negation [t_ "not "; G 1] code ;;
  code <- re_sub increment [G 1; t_ " += 1"] code ;;
  code <- re_sub decrement [G 1; t_ " -= 1"] code ;;
  code <- re_sub template_literal
            [T (L "f" ++ [dq]); G 1; t_ "{"; G 2; t_ "}"; G 3; T [dq]] code ;;
  code <- re_sub plain_template_literal [T [dq]; G 1; T [dq]] code ;;
  Ok code.

(** *** Cleanup *)

Definition js_comment : regex :=
  pat "//\s*(.*)" (seq_re [lit "//"; ws; Grp 1 (Star notnl)]).

Definition keyword3 : regex := Alt (lit "if") (Alt (lit "for") (lit "while")).

Definition missing_colon : regex :=
  pat "(if|for|while)\s+(.+)\s*\n"
  (seq_re [Grp 1 keyword3; ws1; Grp 2 (Plus notnl); ws; Lit [nl]]).

Definition strip_braces (line : str) : list str :=
  if (contains (L "return") line && contains (L "{") line)
     || (contains (L ":") line && contains (L "{") line)
  then [line]
  else if str_eqb (strip line) (L "{") || str_eqb (strip line) (L "}") then []
  else [replace (L "}") [] (replace (L "{") [] line)].

(** [stripped.startswith(('elif', 'else', 'except', 'finally'))] *)
Definition starts_branch (stripped : str) : bool :=
  existsb (fun p => startswith p stripped)
          [L "elif"; L "else"; L "except"; L "finally"].

(** The test that raises the indentation after a line *)
Definition opens_block (stripped : str) : bool :=
  endswith (L ":") stripped &&
  negb (endswith ([dq] ++ L ":") stripped || endswith ([sq] ++ L ":") stripped
        || startswith (L "#") stripped).

(** [indent_level] once the check before the line is done *)
Definition dedent (indent_level : Z) (stripped : str) : Z :=
  if starts_branch stripped then Z.max 0 (indent_level - 1) else indent_level.

(** The state of the indentation loop *)
Record indent_state := IndentState {
  cleaned_lines : list str;
  indent_level : Z
}.

Definition indent_start : indent_state := IndentState [] 0.

(** One turn of the loop [for line in lines] *)
Definition indent_step (st : indent_state) (line : str) : indent_state :=
  let stripped := strip line in
  match stripped with
  | [] => IndentState (cleaned_lines st ++ [[]]) (indent_level st)
  | _ :: _ =>
      let level := dedent (indent_level st) stripped in
      if contains (L "__INDENT__") stripped then IndentState (cleaned_lines st) level
      else
        let out := concat (repeat (L "    ") (Z.to_nat level)) ++ stripped in
        IndentState (cleaned_lines st ++ [out])
                    (if opens_block stripped then (level + 1)%Z else level)
  end.

Definition indent_loop (lines : list str) : indent_state :=
  fold_left indent_step lines indent_start.

Definition _cleanup_code (code : str) : result str :=
  code <- re_sub js_comment [t_ "# "; G 1] code ;;
  let lines := split nl code in
  let processed_lines := flat_map strip_braces lines in
  let code := join [nl] processed_lines in
  let code := replace (L ";") [] code in
  code <- re_sub missing_colon [G 1; t_ " "; G 2; t_ ":"; T [nl]] code ;;
  let lines := split nl code in
  Ok (join [nl] (cleaned_lines (indent_loop lines))).

(** *** Post-processing *)

Definition unterminated_header : regex :=
  pat "(if|for|while)\s+([^:]+)\s*(?<!\:)$"
  (seq_re [Grp 1 keyword3; ws1; Grp 2 (Plus (not_chr ":")); ws;
           NotBehind (is_chr ":"); EndLine]).

Definition empty_block : regex :=
  pat "(\w+):\s*\n\s*\n"
  (seq_re [Grp 1 w1; lit ":"; ws; Lit [nl]; ws; Lit [nl]]).

Fixpoint set_item (lines : list str) (i : nat) (v : str) : list str :=
  match lines, i with
  | [], _ => []
  | _ :: rest, O => v :: rest
  | x :: rest, S i' => x :: set_item rest i' v
  end.

Definition nonempty (s : str) : bool :=
  match s with
  | [] => false
  | _ :: _ => true
  end.

(** The body of the loop over [range(len(lines)-1)] *)
Definition fix_after_return (lines : list str) (i : nat) : result (list str) :=
  cur <- item lines i ;;
  if startswith (L "return ") (strip cur) then
    next <- item lines (i + 1) ;;
    if negb (starts_branch (strip next))
       && Nat.ltb i (length lines - 2)
       && nonempty (strip next)
       && negb (startswith (L " ") next)
    then
      let indent_level := length cur - length (lstrip cur) in
      Ok (set_item lines (i + 1) (repeat " "%char indent_level ++ lstrip next))
    else Ok lines
  else Ok lines.

Definition _post_process (python_code : str) : result str :=
  python_code <- re_sub js_comment [t_ "# "; G 1] python_code ;;
  python_code <- re_sub unterminated_header [G 1; t_ " "; G 2; t_ ":"] python_code ;;
  python_code <- re_sub empty_block [G 1; t_ ":"; T [nl]; t_ "    pass"; T [nl; nl]] python_code ;;
  let lines := split nl python_code in
  lines <- foldR fix_after_return lines (seq 0 (length lines - 1)) ;;
  Ok (join [nl] lines).

(** *** Imports of the generated code *)

Definition typing_import : str := L "from typing import List, Dict, Any, Union, Optional, Awaitable".

Definition typing_hints : list str :=
  [L "List["; L "Dict["; L "Any"; L "Union["; L "Optional["; L "Awaitable["].

(** The list [imports] built by [_generate_imports] *)
Definition import_lines (code : str) : list str :=
  (if existsb (fun hint => contains hint code) typing_hints then [typing_import] else [])
  ++ (if contains (L "async def") code || contains (L "await") code
      then [L "import asyncio"] else [])
  ++ (if contains (L "math.") code then [L "import math"] else [])
  ++ (if contains (L "random.") code then [L "import random"] else [])
  ++ (if contains (L "json.") code then [L "import json"] else [])
  ++ (if contains (L "functools.reduce") code then [L "import functools"] else []).

Definition _generate_imports (code : str) : str := join [nl] (import_lines code).

(** *** The pipeline *)

(** The text after step 11, before the imports are put in front *)
Definition translate (js_code : str) : M str :=
  extracted <~ lift (_extract_decorators js_code) ;;
  let '(decorators, js_code) := extracted in
  let python_code := js_code in
  python_code <~ lift (_convert_imports python_code) ;;
  python_code <~ lift (_convert_functions python_code) ;;
  python_code <~ lift (_convert_classes python_code) ;;
  python_code <~ lift (_convert_array_methods python_code) ;;
  python_code <~ _convert_variables python_code ;;
  python_code <~ lift (_convert_control_structures python_code) ;;
  python_code <~ _convert_objects python_code ;;
  python_code <~ lift (_convert_common_methods python_code) ;;
  python_code <~ lift (_convert_operators python_code) ;;
  python_code <~ lift (_cleanup_code python_code) ;;
  python_code <~ lift (_post_process python_code) ;;
  ret python_code.

Definition with_imports (python_code : str) : str :=
  let imports := _generate_imports python_code in
  if nonempty imports then imports ++ [nl; nl] ++ python_code else python_code.

Definition convert (js_code : str) : M str :=
  python_code <~ translate js_code ;;
  ret (with_imports python_code).

(** A converter as [__init__] leaves it *)
Definition fresh : renames := [].

Definition text_of {A : Type} (r : result (str * A)) : result string :=
  match r with
  | Ok (s, _) => Ok (string_of_list_ascii s)
  | Raise e => Raise e
  end.

(** [js_to_python]: a new converter for every call *)
Definition js_to_python (js_code : string) : result string :=
  text_of (convert (L js_code) fresh).

(** *** The pipeline on a stack of a given height

    The passes that reach [_convert_type], and [convert] with them, once
    more, with the call of [self._convert_type] as a parameter [ct]: taken
    as [_convert_type_rec frames] they are the converter on an interpreter
    that has [frames] frames left when [_convert_type] is entered (the few
    frames by which the places of call differ are not told apart); taken
    as [_convert_type] they are the definitions above. *)

Section Stack.

Variable ct : str -> result str.

Definition _convert_param_with (param : str) : result str :=
  let param := strip param in
  if contains (L ":") param then
    match split1 ":" param with
    | [name; ts_type] =>
        let name := strip name in
        let ts_type := strip ts_type in
        py_type <- ct ts_type ;;
        Ok (name ++ L ": " ++ py_type)
    | _ => Raise ValueError
    end
  else Ok param.

Definition _convert_params_with (params : str) : result str :=
  match strip params with
  | [] => Ok params
  | _ :: _ =>
      param_list <- mapR _convert_param_with (split "," params) ;;
      Ok (join (L ", ") param_list)
  end.

Definition return_type_of_with (m : matchobj) : result str :=
  if group_true m 3
  then t <- group_str m 3 ;; ct t
  else Ok (L "Any").

Definition convert_function_with (m : matchobj) : result str :=
  func_name <- group_str m 1 ;;
  raw <- group_str m 2 ;;
  params <- _convert_params_with raw ;;
  return_type <- return_type_of_with m ;;
  Ok (L "def " ++ func_name ++ L "(" ++ params ++ L ") -> " ++ return_type
        ++ L ":" ++ [nl] ++ L "    __INDENT__").

Definition convert_async_function_with (m : matchobj) : result str :=
  func_name <- group_str m 1 ;;
  raw <- group_str m 2 ;;
  params <- _convert_params_with raw ;;
  return_type <- return_type_of_with m ;;
  Ok (L "async def " ++ func_name ++ L "(" ++ params ++ L ") -> " ++ return_type ++ L ":").

Definition _convert_functions_with (code : str) : result str :=
  code <- re_sub arrow_function [t_ "def "; G 1; t_ "("; G 2; t_ "):"] code ;;
  code <- re_sub async_arrow_function [t_ "async def "; G 1; t_ "("; G 2; t_ "):"] code ;;
  code <- re_sub_fn function_declaration convert_function_with code ;;
  code <- re_sub_fn async_function_declaration convert_async_function_with code ;;
  Ok code.

Definition _handle_var_declaration_with (name : str) (type_str : option str) (typed : bool)
  : M str :=
  let safe_name := _safe_var_name name in
  _u <~ (if negb (str_eqb safe_name name)
         then (t <~ get_renamed ;; put_renamed (dict_set name safe_name t))
         else ret tt) ;;
  match typed, type_str with
  | true, Some (c :: cs) =>
      py <~ lift (ct (c :: cs)) ;;
      ret (safe_name ++ L ": " ++ py ++ L " =")
  | _, _ => ret (safe_name ++ L " = ")
  end.

Definition _convert_variables_with (code : str) : M str :=
  _u <~ put_renamed [] ;;
  code <~ lift (re_sub declaration_keyword [] code) ;;
  code <~ re_sub_m typed_declaration
            (fun m => name <~ lift (group_str m 1) ;;
                      _handle_var_declaration_with name (group m 2) true)
            code ;;
  code <~ re_sub_m untyped_assignment
            (fun m => name <~ lift (group_str m 1) ;;
                      _handle_var_declaration_with name None false)
            code ;;
  renamed <~ get_renamed ;;
  lift (foldR rename_usages code renamed).

Definition translate_with (js_code : str) : M str :=
  extracted <~ lift (_extract_decorators js_code) ;;
  let '(decorators, js_code) := extracted in
  let python_code := js_code in
  python_code <~ lift (_convert_imports python_code) ;;
  python_code <~ lift (_convert_functions_with python_code) ;;
  python_code <~ lift (_convert_classes python_code) ;;
  python_code <~ lift (_convert_array_methods python_code) ;;
  python_code <~ _convert_variables_with python_code ;;
  python_code <~ lift (_convert_control_structures python_code) ;;
  python_code <~ _convert_objects python_code ;;
  python_code <~ lift (_convert_common_methods python_code) ;;
  python_code <~ lift (_convert_operators python_code) ;;
  python_code <~ lift (_cleanup_code python_code) ;;
  python_code <~ lift (_post_process python_code) ;;
  ret python_code.

Definition convert_with (js_code : str) : M str :=
  python_code <~ translate_with js_code ;;
  ret (with_imports python_code).

End Stack.

(** [convert] with [frames] frames left for [_convert_type] *)
Definition convert_in (frames : nat) : str -> M str :=
  convert_with (_convert_type_rec frames).

(** [js_to_python] with [frames] frames left for [_convert_type] *)
Definition js_to_python_in (frames : nat) (js_code : string) : result string :=
  text_of (convert_in frames (L js_code) fresh).

(** ** Notions used by the statements *)

(** [sets r n]: every match of [r] closes group [n]. *)
Fixpoint sets (r : regex) (n : nat) : bool :=
  match r with
  | Cat r1 r2 => sets r1 n || sets r2 n
  | Alt r1 r2 => sets r1 n && sets r2 n
  | Grp m r1 => Nat.eqb n m || sets r1 n
  | _ => false
  end.

(** What [scan] hands to a replacement function: a match on the subject
    with every mandatory group closed. *)
Definition hit_of (r : regex) (subj : str) (m : matchobj) : Prop :=
  m_subject m = subj /\ forall n, sets r n = true -> m_caps m n <> None.

Definition piece_of (r : regex) (subj : str) (p : piece) : Prop :=
  match p with
  | Keep c => In c subj
  | Hit m => hit_of r subj m
  end.

Definition template_all (P : ascii -> Prop) (t : template) : Prop :=
  Forall (fun it => match it with
                    | T s => Forall P s
                    | G _ => True
                    end) t.

(** [re.sub] once its template is accepted *)
Definition sub_text (r : regex) (t : template) (s : str) : str :=
  flat_map (piece_text (expand t)) (pieces r s).

(** The computation ends without raising. *)
Definition returns {A : Type} (x : result A) : Prop := exists a, x = Ok a.

(** The method returns, whatever the rename table holds when it is called. *)
Definition returns_m {A : Type} (x : M A) : Prop :=
  forall st, exists a st', x st = Ok (a, st').

(** The call returns unless the stack runs out: it raises nothing else. *)
Definition returns_unless_deep {A : Type} (x : result A) : Prop :=
  x = Raise RecursionError \/ returns x.

Definition returns_unless_deep_m {A : Type} (x : M A) : Prop :=
  forall st, x st = Raise RecursionError \/ exists a st', x st = Ok (a, st').

Definition not_semicolon (c : ascii) : Prop := c <> ";"%char.

(** The text holds no semicolon. *)
Definition semicolon_free (s : str) : Prop := Forall not_semicolon s.

(** ** Inputs used as examples *)

Definition add_js : string :=
  "function add(a, b) {
    return a + b;
}".

Definition if_chain_js : string :=
  "if (x > 0) {
    y = 1;
} else if (x < 0) {
    y = 2;
} else {
    y = 3;
}".

Definition max_compare_js : string :=
  "const max = 20;
if (max === 20) {
    return max;
}".

Definition max_key_js : string :=
  "const max = 20;
return { max: max };".

Definition process_array_js : string :=
  "function processArray(items) {
    const filtered = items.filter(x => x > 0);
    const doubled = filtered.map(x => x * 2);
    return doubled;
}".


Definition comment_js : string :=
  "// section:
foo(1)".

(** The type [Array<Array<...<T>...>>], [n] levels deep *)
Fixpoint nested_array (n : nat) : str :=
  match n with
  | O => L "T"
  | S k => L "Array<" ++ nested_array k ++ L ">"
  end.

(** A function whose parameter has that type *)
Definition deep_generic_js (n : nat) : str :=
  L "function f(x:" ++ nested_array n ++ L "){}".


(** [line in out.split(newline)] *)
Definition has_line (line out : string) : Prop := In (L line) (split nl (L out)).
Arguments has_line (line out)%_string.

(** [part in out] *)
Definition has_text (part out : string) : Prop := contains (L part) (L out) = true.
Arguments has_text (part out)%_string.

(** ** Notions used by the further properties *)

(** [occurs_any marks s]: one of the texts [marks] occurs in [s]. *)
Definition occurs_any (marks : list str) (s : str) : bool :=
  existsb (fun mark => contains mark s) marks.

(** [must_contain r marks]: every text matched by [r] holds one of
    [marks]. *)
Fixpoint must_contain (r : regex) (marks : list str) : bool :=
  match r with
  | Lit l => occurs_any marks l
  | Cat r1 r2 => must_contain r1 marks || must_contain r2 marks
  | Alt r1 r2 => must_contain r1 marks && must_contain r2 marks
  | Grp _ r1 => must_contain r1 marks
  | _ => false
  end.

(** The cursor stands at index [pos] of the subject. *)
Definition cursor_at (subj : str) (c : cursor) : Prop :=
  rest c = skipn (pos c) subj /\ pos c <= length subj.

(** The part of the subject a piece stands for *)
Definition piece_source (p : piece) : str :=
  match p with
  | Keep c => [c]
  | Hit m => slice (m_start m) (m_end m) (m_subject m)
  end.


(** The rename table as [_handle_var_declaration] fills it: every key is a
    protected name, bound to itself with [_var] appended, and no key
    comes twice. *)
Definition renames_ok (t : renames) : Prop :=
  Forall (fun e => mem (fst e) python_keywords = true /\ snd e = fst e ++ L "_var") t
  /\ NoDup (map fst t).

(** [trimmed u]: [u] neither begins nor ends with white space, as a text
    returned by [strip] does. *)
Definition trimmed (u : str) : bool :=
  match u with
  | [] => true
  | x :: _ => negb (isspace x) && negb (isspace (last u x))
  end.

(** White space only *)
Definition blank (s : str) : Prop := Forall (fun c => isspace c = true) s.

(** The words and signs the passes of [convert] look for *)
Definition converter_marks : list str :=
  [L "@"; L "import"; L "require("; L "function"; L "=>"; L "class"; L "constructor";
   L ";"; L "{"; L "}"; L ":"; L "const"; L "let"; L "var"; L "="; L "...";
   L "!"; L "&&"; L "||"; L "++"; L "--"; [bt]; L "//"; [nl];
   L "if"; L "for"; L "while"; L "__INDENT__"] ++ map fst method_map.

(** A line as the indentation loop of [_cleanup_code] writes it: empty, or
    a number of four-space steps followed by a trimmed text without the
    placeholder. *)
Definition indented_line (l : str) : Prop :=
  l = [] \/
  exists k t, l = concat (repeat (L "    ") k) ++ t /\ t <> [] /\ trimmed t = true
              /\ contains (L "__INDENT__") t = false.

(** * The indentation repair of the debugging script
    (examples/debug_converted_code.py) *)

(** [re.match(r, s)]: a match that begins at the start of [s] *)
Definition re_match (r : regex) (s : str) : bool :=
  match match_at r s 0 None s false with
  | Some _ => true
  | None => false
  end.

Definition return_head : regex :=
  pat "\s*return\s+" (seq_re [ws; lit "return"; ws1]).

(** [indent_level] for the next line.  The [elif] arm of the source tests
    for a [return] that no branch keyword follows and then does nothing. *)
Definition next_level (stripped : str) (rest : list str) (indent_level : Z) : Z :=
  if endswith (L ":") stripped then (indent_level + 1)%Z
  else match rest with
       | next :: _ =>
           if re_match return_head stripped && negb (starts_branch (strip next))
           then indent_level
           else indent_level
       | [] => indent_level
       end.

(** The loop of [fix_indentation], on the lines still to come: the lines
    appended to [fixed_lines] *)
Fixpoint fix_lines (lines : list str) (indent_level : Z) : list str :=
  match lines with
  | [] => []
  | line :: rest =>
      let stripped := strip line in
      match stripped with
      | [] => [] :: fix_lines rest indent_level
      | _ :: _ =>
          let indent_level := dedent indent_level stripped in
          (concat (repeat (L "    ") (Z.to_nat indent_level)) ++ stripped)
            :: fix_lines rest (next_level stripped rest indent_level)
      end
  end.

Definition fix_indentation (python_code : str) : str :=
  join [nl] (fix_lines (split nl python_code) 0).

(** * The deployer's use of the converter (nodeai_js_deployer.py) *)

(** The indicators are looked for as they are written, with [in]: the
    ones written as patterns stand for their own characters. *)
Definition js_indicators : list str :=
  [L "const "; L "let "; L "var "; L "=>"; L "function ";
   L "==="; L "!=="; L "&&"; L "||"; L "console.";
   L "})"; L ");"; L "}" ++ [bt]; L "async function"; L "class.*{";
   L "export "; L "import.*from"; L "require(";
   L ": string"; L ": number"; L ": boolean"; L ": any"].

Definition python_indicators : list str :=
  [L "def "; L "class.*:"; L "import "; L "from.*import";
   L "    "; L "if.*:"; L "for.*:"; L "while.*:";
   L "print("; L "self."; L "__init__"; L "return ";
   L "=="; L "!="; L "and "; L "or "; L "not "; L "is ";
   L ": str"; L ": int"; L ": float"; L ": bool"].

Definition ts_markers : list str :=
  [L ": string"; L ": number"; L ": boolean"; L ": any"; L "<T>"; L "interface "; L "type "].

(** [sum(1 for indicator in indicators if indicator in code)] *)
Definition count_indicators (indicators : list str) (code : str) : nat :=
  length (filter (fun indicator => contains indicator code) indicators).

Definition detect_language (code : str) : string :=
  let js_count := count_indicators js_indicators code in
  let py_count := count_indicators python_indicators code in
  if existsb (fun ts_type => contains ts_type code) ts_markers then "typescript"%string
  else if Nat.ltb py_count js_count then "javascript"%string else "python"%string.

(** A registered item: the keys of the dict that [_get_source_code] reads.
    [Handle] stands for the function or class object. *)
Record registered_item (Handle : Type) := Item {
  language : option string;
  original_source : option string;
  func : option Handle;
  cls : option Handle
}.

(** [item.get("func") or item.get("cls")] *)
Definition func_or_cls {Handle : Type} (it : registered_item Handle) : option Handle :=
  match func it with
  | Some f => Some f
  | None => cls it
  end.

(** [item.get("original_source", "")] *)
Definition original_of {Handle : Type} (it : registered_item Handle) : string :=
  match original_source it with
  | Some s => s
  | None => EmptyString
  end.

(** What [_get_source_code] prints: the line after a conversion, and the
    two lines of the [except] arm, the first with the exception in it. *)
Inductive printed :=
| Converted (language : string)
| FailedToConvert (language : string) (e : exn)
| UsingOriginal.

(** [NodeAIJSClient._get_source_code]: the lines printed and the outcome.
    [frames] is the height of stack left for the converter, [parent] the
    method of the base class, which reads the source of the Python
    object.  [self.converter] is [js_to_python], as [__init__] sets it;
    [print] is taken to succeed. *)
Definition _get_source_code {Handle : Type} (frames : nat)
    (parent : option Handle -> result string)
    (it : registered_item Handle) : list printed * result string :=
  match language it with
  | Some lang =>
      if existsb (String.eqb lang) ["javascript"; "typescript"]%string then
        let original := original_of it in
        match js_to_python_in frames original with
        | Ok converted => ([Converted lang], Ok converted)
        | Raise e => ([FailedToConvert lang e; UsingOriginal], parent (func_or_cls it))
        end
      else ([], parent (func_or_cls it))
  | None => ([], parent (func_or_cls it))
  end.

(** The JavaScript indicators other than [===], [!==] and the four type
    annotations *)
Definition decisive_js_indicators : list str :=
  [L "const "; L "let "; L "var "; L "=>"; L "function ";
   L "&&"; L "||"; L "console.";
   L "})"; L ");"; L "}" ++ [bt]; L "async function"; L "class.*{";
   L "export "; L "import.*from"; L "require("].

(** * Properties *)

(** ** Text primitives *)

Lemma chr_eqb_eq (a b : ascii) : chr_eqb a b = true <-> a = b.
Proof. unfold chr_eqb. apply Ascii.eqb_eq. Qed.

Lemma chr_eqb_neq (a b : ascii) : chr_eqb a b = false <-> a <> b.
Proof. unfold chr_eqb. apply Ascii.eqb_neq. Qed.

Lemma str_eqb_eq (a b : str) : str_eqb a b = true <-> a = b.
Proof.
  revert b. induction a as [|x a IH]; intros [|y b]; simpl; split; intro H;
    try reflexivity; try discriminate.
  - apply andb_true_iff in H. destruct H as [H1 H2].
    apply chr_eqb_eq in H1. apply IH in H2. now subst.
  - injection H as -> ->. apply andb_true_iff. split.
    + now apply chr_eqb_eq.
    + now apply IH.
Qed.

Lemma startswith_app (p s : str) : startswith p (p ++ s) = true.
Proof.
  induction p as [|a p IH]; simpl; [reflexivity|].
  rewrite IH, andb_true_r. now apply chr_eqb_eq.
Qed.

Lemma startswith_prefix (p s : str) :
  startswith p s = true -> exists t, s = p ++ t.
Proof.
  revert s. induction p as [|a p IH]; intros s H.
  - now exists s.
  - destruct s as [|b s]; [discriminate|]. simpl in H.
    apply andb_true_iff in H. destruct H as [H1 H2].
    apply chr_eqb_eq in H1. subst b.
    destruct (IH _ H2) as [t ->]. now exists t.
Qed.

Lemma contains_chr (c : ascii) (s : str) : contains [c] s = true <-> In c s.
Proof.
  induction s as [|x s IH]; simpl.
  - split; [discriminate | tauto].
  - rewrite andb_true_r. rewrite orb_true_iff, IH, chr_eqb_eq.
    split; intros [H|H]; auto.
Qed.

Lemma contains_find (p s : str) : contains p s = true -> exists i, find p s = Some i.
Proof.
  induction s as [|x s IH]; simpl; intro H.
  - rewrite orb_false_r in H. rewrite H. now exists 0.
  - destruct (startswith p (x :: s)) eqn:E.
    + now exists 0.
    + simpl in H. destruct (IH H) as [i ->]. now exists (S i).
Qed.

Lemma contains_rfind (p s : str) : contains p s = true -> exists i, rfind p s = Some i.
Proof.
  induction s as [|x s IH]; simpl; intro H.
  - rewrite orb_false_r in H. simpl in H. rewrite H. now exists 0.
  - destruct (rfind p s) as [i|] eqn:E.
    + now exists (S i).
    + destruct (startswith p (x :: s)) eqn:E2.
      * now exists 0.
      * simpl in H. destruct (IH H) as [i Hi]. discriminate.
Qed.

Lemma dropwhile_length (p : ascii -> bool) (s : str) :
  length (dropwhile p s) <= length s.
Proof.
  induction s as [|x s IH]; simpl; [lia|].
  destruct (p x); simpl; lia.
Qed.

Lemma strip_length (s : str) : length (strip s) <= length s.
Proof.
  unfold strip, lstrip, rstrip.
  etransitivity; [apply dropwhile_length|].
  rewrite length_rev. etransitivity; [apply dropwhile_length|].
  now rewrite length_rev.
Qed.

Lemma split_nonempty (sep : ascii) (s : str) : split sep s <> [].
Proof.
  induction s as [|x s IH]; simpl; [discriminate|].
  destruct (chr_eqb x sep); [discriminate|].
  destruct (split sep s); [contradiction | discriminate].
Qed.

Lemma split_piece_length (sep : ascii) (s p : str) :
  In p (split sep s) ->
  length p <= length s /\ (In sep s -> length p < length s).
Proof.
  revert p. induction s as [|x s IH]; simpl; intros p H.
  - destruct H as [<-|[]]. simpl. split; [lia | tauto].
  - destruct (chr_eqb x sep) eqn:E.
    + destruct H as [<-|H]; simpl; [split; lia|].
      destruct (IH _ H). split; lia.
    + apply chr_eqb_neq in E.
      destruct (split sep s) as [|w ws] eqn:Es; [now destruct (split_nonempty sep s)|].
      destruct H as [<-|H].
      * destruct (IH w (or_introl eq_refl)) as [H1 H2]. simpl. split; [lia|].
        intros [Hx|Hx]; [congruence|]. specialize (H2 Hx). lia.
      * destruct (IH p (or_intror H)) as [H1 H2]. split; lia.
Qed.

Lemma split1_shape (sep : ascii) (s : str) :
  (exists a, split1 sep s = [a] /\ ~ In sep s) \/
  (exists a b, split1 sep s = [a; b] /\ In sep s
               /\ length a <= length s /\ length b <= length s).
Proof.
  induction s as [|x s IH]; simpl.
  - left. exists []. tauto.
  - destruct (chr_eqb x sep) eqn:E.
    + apply chr_eqb_eq in E. right. exists [], s. simpl. repeat split; auto; lia.
    + apply chr_eqb_neq in E.
      destruct IH as [[a [-> H]]|[a [b [-> [H [Ha Hb]]]]]].
      * left. exists (x :: a). split; [reflexivity|]. intros [?|?]; congruence.
      * right. exists (x :: a), b. simpl. repeat split; auto; lia.
Qed.

Lemma slice_length (i j : nat) (s : str) : length (slice i j s) <= length s - i.
Proof.
  unfold slice. rewrite length_firstn, length_skipn. lia.
Qed.

(** ** Texts over a set of characters *)

Section Alphabet.

Variable P : ascii -> Prop.

Lemma all_dropwhile (p : ascii -> bool) (s : str) :
  Forall P s -> Forall P (dropwhile p s).
Proof.
  induction 1 as [|x s Hx Hs IH]; simpl; [constructor|].
  destruct (p x); auto.
Qed.

Lemma all_lstrip (s : str) : Forall P s -> Forall P (lstrip s).
Proof. apply all_dropwhile. Qed.

Lemma all_strip (s : str) : Forall P s -> Forall P (strip s).
Proof.
  intro H. unfold strip, rstrip. apply all_lstrip.
  apply Forall_rev. apply all_dropwhile. now apply Forall_rev.
Qed.

Lemma all_firstn (n : nat) (s : str) : Forall P s -> Forall P (firstn n s).
Proof.
  intro H. revert n. induction H; intros [|n]; simpl; constructor; auto.
Qed.

Lemma all_skipn (n : nat) (s : str) : Forall P s -> Forall P (skipn n s).
Proof.
  intro H. revert n. induction H; intros [|n]; simpl; auto.
Qed.

Lemma all_slice (i j : nat) (s : str) : Forall P s -> Forall P (slice i j s).
Proof.
  intro H. unfold slice. now apply all_firstn, all_skipn.
Qed.

Lemma all_split (sep : ascii) (s : str) :
  Forall P s -> Forall (Forall P) (split sep s).
Proof.
  induction 1 as [|x s Hx Hs IH]; simpl; [repeat constructor|].
  destruct (chr_eqb x sep); [now constructor|].
  destruct (split sep s) as [|w ws]; [repeat constructor; auto|].
  inversion IH; subst. constructor; auto.
Qed.

Lemma all_join (sep : str) (parts : list str) :
  Forall P sep -> Forall (Forall P) parts -> Forall P (join sep parts).
Proof.
  intros Hsep. induction 1 as [|p ps Hp Hps IH]; simpl; [constructor|].
  destruct ps; auto.
  apply Forall_app. split; auto. apply Forall_app. split; auto.
Qed.

Lemma all_replace_from (old new : str) (s : str) :
  Forall P new -> Forall P s -> forall skip, Forall P (replace_from old new skip s).
Proof.
  intros Hnew. induction 1 as [|x s Hx Hs IH]; intros skip; simpl; [constructor|].
  destruct skip; auto.
  destruct (startswith old (x :: s)).
  - apply Forall_app. auto.
  - constructor; auto.
Qed.

Lemma all_replace (old new s : str) :
  Forall P new -> Forall P s -> Forall P (replace old new s).
Proof.
  intros Hnew Hs. unfold replace. destruct old.
  - apply Forall_app. split; auto.
    apply Forall_flat_map. rewrite Forall_forall in *. intros x Hx.
    rewrite Forall_forall. intros y [<-|Hy]; auto.
  - now apply all_replace_from.
Qed.

Lemma all_set_item (lines : list str) (i : nat) (v : str) :
  Forall (Forall P) lines -> Forall P v -> Forall (Forall P) (set_item lines i v).
Proof.
  intros H Hv. revert i. induction H as [|x l Hx Hl IH]; intros i; simpl.
  - constructor.
  - destruct i; constructor; auto.
Qed.

Lemma all_repeat (c : ascii) (n : nat) : P c -> Forall P (repeat c n).
Proof. intro H. induction n; simpl; constructor; auto. Qed.

Lemma all_concat_repeat (s : str) (n : nat) :
  Forall P s -> Forall P (concat (repeat s n)).
Proof.
  intro H. induction n; simpl; [constructor|]. apply Forall_app. auto.
Qed.

End Alphabet.

(** ** The matcher *)

Lemma advance_caps (n : nat) (c : cursor) : caps (advance n c) = caps c.
Proof.
  revert c. induction n as [|n IH]; intros c; simpl; [reflexivity|].
  destruct (rest c); [reflexivity|]. now rewrite IH.
Qed.

Lemma star_loop_inv (p : ascii -> bool) (k : cursor -> option cursor)
    (cs : captures) (s : str) :
  forall i pv res,
    star_loop p k cs i pv s = Some res ->
    exists c', k c' = Some res /\ caps c' = cs.
Proof.
  induction s as [|x s IH]; intros i pv res H; simpl in H.
  - eexists. split; [exact H | reflexivity].
  - destruct (p x).
    + destruct (star_loop p k cs (S i) (Some x) s) eqn:E.
      * injection H as <-. eapply IH. exact E.
      * eexists. split; [exact H | reflexivity].
    + eexists. split; [exact H | reflexivity].
Qed.

Lemma set_capture_keeps (n m : nat) (v : span) (cs : captures) :
  cs m <> None -> set_capture n v cs m <> None.
Proof.
  unfold set_capture. destruct (Nat.eqb m n); [discriminate | trivial].
Qed.

(** A successful match reaches its continuation with every mandatory group
    closed and no group reopened. *)
Lemma rmatch_inv (subj : str) (r : regex) :
  forall c k res,
    rmatch subj r c k = Some res ->
    exists c', k c' = Some res
               /\ (forall n, sets r n = true -> caps c' n <> None)
               /\ (forall n, caps c n <> None -> caps c' n <> None).
Proof.
  induction r as [s|p|p|r1 IH1 r2 IH2|r1 IH1 r2 IH2|r1 IH1|g r1 IH1|r1 IH1|p| | |g];
    intros c k res H; simpl in H.
  - destruct (startswith s (rest c)); [|discriminate].
    eexists. split; [exact H|]. rewrite advance_caps. split; [discriminate | trivial].
  - destruct (rest c) as [|x xs]; [discriminate|].
    destruct (p x); [|discriminate].
    eexists. split; [exact H|]. simpl. split; [discriminate | trivial].
  - apply star_loop_inv in H. destruct H as [c' [Hk Hc]].
    exists c'. rewrite Hc. split; [exact Hk|]. split; [discriminate | trivial].
  - apply IH1 in H. destruct H as [c1 [H [S1 K1]]].
    apply IH2 in H. destruct H as [c2 [H [S2 K2]]].
    exists c2. split; [exact H|]. split.
    + intros n Hn. simpl in Hn. apply orb_true_iff in Hn. destruct Hn; auto.
    + auto.
  - destruct (rmatch subj r1 c k) eqn:E.
    + injection H as <-. apply IH1 in E. destruct E as [c' [Hk [S1 K1]]].
      exists c'. split; [exact Hk|]. split; [|exact K1].
      intros n Hn. simpl in Hn. apply andb_true_iff in Hn. now apply S1.
    + apply IH2 in H. destruct H as [c' [Hk [S2 K2]]].
      exists c'. split; [exact Hk|]. split; [|exact K2].
      intros n Hn. simpl in Hn. apply andb_true_iff in Hn. now apply S2.
  - destruct (rmatch subj r1 c k) eqn:E.
    + injection H as <-. apply IH1 in E. destruct E as [c' [Hk [S1 K1]]].
      exists c'. split; [exact Hk|]. split; [discriminate | exact K1].
    + exists c. split; [exact H|]. split; [discriminate | trivial].
  - apply IH1 in H. destruct H as [c1 [H [S1 K1]]].
    eexists. split; [exact H|]. simpl. split.
    + intros n Hn. apply orb_true_iff in Hn. destruct Hn as [Hn|Hn].
      * unfold set_capture. rewrite Hn. discriminate.
      * apply set_capture_keeps. auto.
    + intros n Hn. apply set_capture_keeps. auto.
  - destruct (rmatch subj r1 c (fun c' => Some c')); [discriminate|].
    exists c. split; [exact H|]. split; [discriminate | trivial].
  - destruct (opt_is p (prev c)); [discriminate|].
    exists c. split; [exact H|]. split; [discriminate | trivial].
  - destruct (at_boundary c); [|discriminate].
    exists c. split; [exact H|]. split; [discriminate | trivial].
  - destruct (at_endline c); [|discriminate].
    exists c. split; [exact H|]. split; [discriminate | trivial].
  - destruct (group_text subj (caps c) g); [|discriminate].
    destruct (startswith s (rest c)); [|discriminate].
    eexists. split; [exact H|]. rewrite advance_caps. split; [discriminate | trivial].
Qed.

Lemma match_at_hit (r : regex) (subj : str) (i : nat) (pv : option ascii)
    (s : str) (adv : bool) (m : matchobj) :
  match_at r subj i pv s adv = Some m -> hit_of r subj m.
Proof.
  unfold match_at. intro H.
  destruct (rmatch subj r _ _) as [c'|] eqn:E; [|discriminate].
  injection H as <-. apply rmatch_inv in E. destruct E as [c2 [Hk [S1 _]]].
  destruct (adv && Nat.eqb (pos c2) i); [discriminate|]. injection Hk as ->.
  split; [reflexivity | exact S1].
Qed.

Lemma scan_pieces (r : regex) (subj : str) (s : str) :
  forall i pv skip p,
    In p (scan r subj i pv skip s) ->
    match p with
    | Keep c => In c s
    | Hit m => hit_of r subj m
    end.
Proof.
  induction s as [|x s IH]; intros i pv skip p H; simpl in H.
  - destruct skip; [|contradiction].
    destruct (match_at r subj i pv [] false) eqn:E; [|contradiction].
    destruct H as [<-|[]]. eapply match_at_hit; eauto.
  - assert (Hrec : forall i pv skip, In p (scan r subj i pv skip s) ->
              match p with Keep c => In c (x :: s) | Hit m => hit_of r subj m end).
    { intros i' pv' skip' Hp. specialize (IH _ _ _ _ Hp).
      destruct p; [now right | exact IH]. }
    destruct skip; [|exact (Hrec _ _ _ H)].
    destruct (match_at r subj i pv (x :: s) false) as [m|] eqn:E.
    + destruct (Nat.eqb (m_end m) i).
      * destruct H as [<-|H]; [exact (match_at_hit _ _ _ _ _ _ E)|].
        destruct (match_at r subj i pv (x :: s) true) as [m'|] eqn:E'.
        -- destruct H as [<-|H];
             [exact (match_at_hit _ _ _ _ _ _ E') | exact (Hrec _ _ _ H)].
        -- destruct H as [<-|H]; [now left | exact (Hrec _ _ _ H)].
      * destruct H as [<-|H];
          [exact (match_at_hit _ _ _ _ _ _ E) | exact (Hrec _ _ _ H)].
    + destruct H as [<-|H]; [now left | exact (Hrec _ _ _ H)].
Qed.

Lemma pieces_spec (r : regex) (s : str) (p : piece) :
  In p (pieces r s) -> piece_of r s p.
Proof. intro H. apply scan_pieces in H. exact H. Qed.

(** ** Substitution *)

Lemma re_sub_ok (r : regex) (t : template) (s : str) :
  template_ok r t = true -> re_sub r t s = Ok (sub_text r t s).
Proof. intro H. unfold re_sub. now rewrite H. Qed.

Lemma re_sub_inv (r : regex) (t : template) (s out : str) :
  re_sub r t s = Ok out -> out = sub_text r t s.
Proof.
  unfold re_sub. destruct (template_ok r t); [|discriminate]. now intros [= <-].
Qed.

Lemma group_str_set (r : regex) (s : str) (m : matchobj) (n : nat) :
  hit_of r s m -> sets r n = true -> exists x, group_str m n = Ok x.
Proof.
  intros [_ H] Hn. specialize (H n Hn).
  unfold group_str, group, group_text.
  destruct (m_caps m n) as [[b e]|]; [eauto | contradiction].
Qed.

Lemma group_true_str (m : matchobj) (n : nat) :
  group_true m n = true -> exists x, group_str m n = Ok x.
Proof.
  unfold group_true, group_str. destruct (group m n); [eauto | discriminate].
Qed.

Lemma mapR_total {A B : Type} (f : A -> result B) (l : list A) :
  (forall a, In a l -> exists b, f a = Ok b) -> exists bs, mapR f l = Ok bs.
Proof.
  induction l as [|a l IH]; intro H; simpl; [eauto|].
  destruct (H a (or_introl eq_refl)) as [b ->]. simpl.
  destruct IH as [bs ->]; [intros; apply H; now right|]. simpl. eauto.
Qed.

Lemma mapR_all {A B : Type} (Q : B -> Prop) (f : A -> result B) (l : list A) (bs : list B) :
  (forall a b, In a l -> f a = Ok b -> Q b) -> mapR f l = Ok bs -> Forall Q bs.
Proof.
  revert bs. induction l as [|a l IH]; intros bs H E; simpl in E.
  - injection E as <-. constructor.
  - destruct (f a) as [b|] eqn:Ea; [|discriminate]. simpl in E.
    destruct (mapR f l) as [bs'|] eqn:El; [|discriminate]. simpl in E.
    injection E as <-. constructor.
    + eapply H; [now left | exact Ea].
    + apply IH; [|reflexivity]. intros a' b' Ha'. apply H. now right.
Qed.

Lemma mapM_total {A B : Type} (f : A -> M B) (l : list A) :
  (forall a st, In a l -> exists b st', f a st = Ok (b, st')) ->
  forall st, exists bs st', mapM f l st = Ok (bs, st').
Proof.
  induction l as [|a l IH]; intros H st; simpl.
  - unfold ret. eauto.
  - unfold bindM. destruct (H a st (or_introl eq_refl)) as [b [st1 ->]].
    destruct (IH (fun a' st' Ha => H a' st' (or_intror Ha)) st1) as [bs [st2 ->]].
    unfold ret. eauto.
Qed.

Lemma foldR_total {A B : Type} (Inv : A -> Prop) (f : A -> B -> result A) (l : list B) :
  (forall a b, In b l -> Inv a -> exists a', f a b = Ok a' /\ Inv a') ->
  forall a, Inv a -> exists a', foldR f a l = Ok a' /\ Inv a'.
Proof.
  induction l as [|b l IH]; intros H a Ha; simpl; [eauto|].
  destruct (H a b (or_introl eq_refl) Ha) as [a1 [-> Ha1]]. simpl.
  apply IH; auto. intros a' b' Hb'. apply H. now right.
Qed.

Lemma re_sub_fn_total (r : regex) (f : matchobj -> result str) (s : str) :
  (forall m, hit_of r s m -> exists x, f m = Ok x) ->
  exists out, re_sub_fn r f s = Ok out.
Proof.
  intro H. unfold re_sub_fn.
  destruct (mapR_total (fun p => match p with Keep c => Ok [c] | Hit m => f m end)
              (pieces r s)) as [parts ->]; [|simpl; eauto].
  intros [c|m] Hp; [eauto|]. apply H. exact (pieces_spec _ _ _ Hp).
Qed.

Lemma re_sub_m_total (r : regex) (f : matchobj -> M str) (s : str) :
  (forall m st, hit_of r s m -> exists x st', f m st = Ok (x, st')) ->
  forall st, exists out st', re_sub_m r f s st = Ok (out, st').
Proof.
  intros H st. unfold re_sub_m, bindM.
  destruct (mapM_total (fun p => match p with Keep c => ret [c] | Hit m => f m end)
              (pieces r s)) with (st := st) as [parts [st' ->]].
  - intros [c|m] st0 Hp; [unfold ret; eauto|]. apply H. exact (pieces_spec _ _ _ Hp).
  - unfold ret. eauto.
Qed.

Section SubstitutionAlphabet.

Variable P : ascii -> Prop.

Lemma group_all (m : matchobj) (n : nat) (x : str) :
  Forall P (m_subject m) -> group m n = Some x -> Forall P x.
Proof.
  unfold group, group_text. intros H E.
  destruct (m_caps m n) as [[b e]|]; [|discriminate].
  injection E as <-. now apply all_slice.
Qed.

Lemma expand_all (t : template) (m : matchobj) :
  template_all P t -> Forall P (m_subject m) -> Forall P (expand t m).
Proof.
  intros Ht Hm. unfold expand. apply Forall_flat_map.
  eapply Forall_impl; [|exact Ht]. intros [x|n] Hx; [exact Hx|].
  destruct (group m n) eqn:E; [eapply group_all; eauto | constructor].
Qed.

Lemma sub_text_all (r : regex) (t : template) (s : str) :
  template_all P t -> Forall P s -> Forall P (sub_text r t s).
Proof.
  intros Ht Hs. unfold sub_text. apply Forall_flat_map.
  apply Forall_forall. intros p Hp. apply pieces_spec in Hp.
  destruct p as [c|m]; simpl in *.
  - constructor; [|constructor]. rewrite Forall_forall in Hs. auto.
  - destruct Hp as [Hm _]. apply expand_all; [exact Ht|]. now rewrite Hm.
Qed.

Lemma re_sub_all (r : regex) (t : template) (s out : str) :
  template_all P t -> Forall P s -> re_sub r t s = Ok out -> Forall P out.
Proof.
  intros Ht Hs E. apply re_sub_inv in E. subst out. now apply sub_text_all.
Qed.

End SubstitutionAlphabet.


(** ** With frames to spare the conversion of a type returns *)

Lemma bind_ok {A B : Type} (a : A) (f : A -> result B) : bind (Ok a) f = f a.
Proof. reflexivity. Qed.

Lemma index_total (p s : str) : contains p s = true -> exists i, index p s = Ok i.
Proof. intro H. unfold index. destruct (contains_find _ _ H) as [i ->]. eauto. Qed.

Lemma rindex_total (p s : str) : contains p s = true -> exists i, rindex p s = Ok i.
Proof. intro H. unfold rindex. destruct (contains_rfind _ _ H) as [i ->]. eauto. Qed.

Lemma _convert_type_body_total (self : str -> result str) (ts : str) :
  (forall t, length t < length ts -> exists o, self t = Ok o) ->
  exists o, _convert_type_body self ts = Ok o.
Proof.
  intro Hself. unfold _convert_type_body.
  destruct ts as [|c cs]; [eauto|].
  pose proof (strip_length (c :: cs)) as Hlen.
  set (t := strip (c :: cs)) in *.
  destruct (contains (L "|") t) eqn:Ebar.
  { apply (contains_chr "|"%char) in Ebar.
    destruct (mapR_total (fun x => self (strip x)) (split "|" t)) as [types ->].
    - intros p Hp. apply Hself.
      destruct (split_piece_length _ _ _ Hp) as [_ H]. specialize (H Ebar).
      pose proof (strip_length p). lia.
    - rewrite bind_ok. eauto. }
  destruct (lookup t type_map); [solve [eauto]|].
  destruct (contains (L "<") t) eqn:Elt; [|cbv [andb]; solve [eauto]].
  destruct (contains (L ">") t) eqn:Egt; [|cbv [andb]; solve [eauto]].
  cbv [andb].
  destruct (index_total _ _ Elt) as [i ->].
  destruct (rindex_total _ _ Egt) as [j ->]. rewrite !bind_ok.
  assert (Hinner : length (slice (i + 1) j t) < length (c :: cs)).
  { pose proof (slice_length (i + 1) j t).
    destruct t; [discriminate|]. simpl length in *. lia. }
  destruct (str_eqb (slice 0 i t) (L "Array")).
  { destruct (Hself _ Hinner) as [o ->]. rewrite bind_ok. eauto. }
  destruct (str_eqb (slice 0 i t) (L "Promise")).
  { destruct (Hself _ Hinner) as [o ->]. rewrite bind_ok. eauto. }
  destruct (str_eqb (slice 0 i t) (L "Record")); [|solve [eauto]].
  destruct (split1_shape "," (slice (i + 1) j t))
    as [[a [-> _]]|[a [b [-> [_ [Ha Hb]]]]]];
    cbn [length Nat.eqb item nth_error]; [solve [eauto]|].
  rewrite bind_ok.
  destruct (Hself a) as [oa ->]; [lia|]. rewrite !bind_ok.
  destruct (Hself b) as [ob ->]; [lia|]. rewrite bind_ok. eauto.
Qed.

Lemma _convert_type_rec_total (depth : nat) :
  forall ts, length ts < depth -> exists o, _convert_type_rec depth ts = Ok o.
Proof.
  induction depth as [|d IH]; intros ts H; [lia|].
  simpl. apply _convert_type_body_total. intros t Ht. apply IH. lia.
Qed.

Lemma _convert_type_total (ts : str) : exists o, _convert_type ts = Ok o.
Proof. apply _convert_type_rec_total. lia. Qed.

Lemma mapR_ext {A B : Type} (f g : A -> result B) (l : list A) :
  (forall a, In a l -> f a = g a) -> mapR f l = mapR g l.
Proof.
  induction l as [|a l IH]; intro H; simpl; [reflexivity|].
  rewrite (H a (or_introl eq_refl)), IH; [reflexivity|].
  intros a' Ha'. apply H. now right.
Qed.

(** Only the calls on shorter texts matter to the body. *)
Lemma _convert_type_body_ext (self1 self2 : str -> result str) (ts : str) :
  (forall t, length t < length ts -> self1 t = self2 t) ->
  _convert_type_body self1 ts = _convert_type_body self2 ts.
Proof.
  intro Hself. unfold _convert_type_body.
  destruct ts as [|c cs]; [reflexivity|].
  pose proof (strip_length (c :: cs)) as Hlen.
  set (t := strip (c :: cs)) in *.
  destruct (contains (L "|") t) eqn:Ebar.
  { apply (contains_chr "|"%char) in Ebar.
    rewrite (mapR_ext (fun x => self1 (strip x)) (fun x => self2 (strip x))); [reflexivity|].
    intros p Hp. apply Hself.
    destruct (split_piece_length _ _ _ Hp) as [_ H]. specialize (H Ebar).
    pose proof (strip_length p). lia. }
  destruct (lookup t type_map); [reflexivity|].
  destruct (contains (L "<") t) eqn:Elt; [|reflexivity].
  destruct (contains (L ">") t) eqn:Egt; [|reflexivity].
  cbv [andb].
  destruct (index (L "<") t) as [i|e]; [|reflexivity].
  destruct (rindex (L ">") t) as [j|e]; [|reflexivity]. rewrite !bind_ok.
  assert (Hinner : length (slice (i + 1) j t) < length (c :: cs)).
  { pose proof (slice_length (i + 1) j t).
    destruct t; [discriminate|]. simpl length in *. lia. }
  rewrite (Hself _ Hinner).
  destruct (str_eqb (slice 0 i t) (L "Array")); [reflexivity|].
  destruct (str_eqb (slice 0 i t) (L "Promise")); [reflexivity|].
  destruct (str_eqb (slice 0 i t) (L "Record")); [|reflexivity].
  destruct (split1_shape "," (slice (i + 1) j t))
    as [[a [-> _]]|[a [b [-> [_ [Ha Hb]]]]]];
    cbn [length Nat.eqb item nth_error]; [reflexivity|].
  rewrite !bind_ok. rewrite (Hself a) by lia.
  destruct (self2 a); [|reflexivity]. rewrite !bind_ok.
  rewrite (Hself b) by lia. reflexivity.
Qed.

Lemma _convert_type_rec_depth (d1 : nat) :
  forall d2 ts, length ts < d1 -> length ts < d2 ->
                _convert_type_rec d1 ts = _convert_type_rec d2 ts.
Proof.
  induction d1 as [|d1 IH]; intros d2 ts H1 H2; [lia|].
  destruct d2 as [|d2]; [lia|]. simpl.
  apply _convert_type_body_ext. intros t Ht. apply IH; lia.
Qed.

(** [_convert_type] satisfies the equation the source writes: its body,
    with the calls to itself. *)
Lemma _convert_type_equation (ts : str) :
  _convert_type ts = _convert_type_body _convert_type ts.
Proof.
  unfold _convert_type at 1. simpl.
  apply _convert_type_body_ext. intros t Ht.
  unfold _convert_type. apply _convert_type_rec_depth; lia.
Qed.

Lemma _convert_param_total (param : str) : exists o, _convert_param param = Ok o.
Proof.
  unfold _convert_param.
  destruct (contains (L ":") (strip param)) eqn:E; [|eauto].
  apply (contains_chr ":"%char) in E.
  destruct (split1_shape ":" (strip param)) as [[a [_ H]]|[a [b [-> _]]]]; [contradiction|].
  destruct (_convert_type_total (strip b)) as [o ->]. rewrite bind_ok. eauto.
Qed.

Lemma _convert_params_total (params : str) : exists o, _convert_params params = Ok o.
Proof.
  unfold _convert_params. destruct (strip params); [eauto|].
  destruct (mapR_total _convert_param (split "," params)) as [l ->].
  - intros. apply _convert_param_total.
  - rewrite bind_ok. eauto.
Qed.

(** ** With frames to spare no pass raises *)

Lemma returns_bind {A B : Type} (x : result A) (f : A -> result B) :
  returns x -> (forall a, returns (f a)) -> returns (bind x f).
Proof. intros [a ->] H. simpl. apply H. Qed.

Lemma returns_ok {A : Type} (a : A) : returns (Ok a).
Proof. now exists a. Qed.

Lemma returns_m_bind {A B : Type} (x : M A) (f : A -> M B) :
  returns_m x -> (forall a, returns_m (f a)) -> returns_m (bindM x f).
Proof.
  intros Hx Hf st. unfold bindM. destruct (Hx st) as [a [st1 ->]]. apply Hf.
Qed.

Lemma returns_m_ret {A : Type} (a : A) : returns_m (ret a).
Proof. intro st. unfold ret. eauto. Qed.

Lemma returns_m_lift {A : Type} (x : result A) : returns x -> returns_m (lift x).
Proof. intros [a ->] st. unfold lift. eauto. Qed.

Lemma returns_m_get : returns_m get_renamed.
Proof. intro st. unfold get_renamed. eauto. Qed.

Lemma returns_m_put (t : renames) : returns_m (put_renamed t).
Proof. intro st. unfold put_renamed. eauto. Qed.

Lemma re_sub_returns (r : regex) (t : template) (s : str) :
  template_ok r t = true -> returns (re_sub r t s).
Proof. intro H. rewrite (re_sub_ok _ _ _ H). apply returns_ok. Qed.

Lemma re_sub_fn_returns (r : regex) (f : matchobj -> result str) (s : str) :
  (forall m, hit_of r s m -> returns (f m)) -> returns (re_sub_fn r f s).
Proof. apply re_sub_fn_total. Qed.

Lemma re_sub_m_returns (r : regex) (f : matchobj -> M str) (s : str) :
  (forall m, hit_of r s m -> returns_m (f m)) -> returns_m (re_sub_m r f s).
Proof. intros H st. apply re_sub_m_total. intros m st0 Hm. now apply H. Qed.

Lemma group_str_returns (r : regex) (s : str) (m : matchobj) (n : nat) :
  hit_of r s m -> sets r n = true -> returns (group_str m n).
Proof. apply group_str_set. Qed.

Lemma foldR_returns {A B : Type} (f : A -> B -> result A) (l : list B) (a : A) :
  (forall a b, returns (f a b)) -> returns (foldR f a l).
Proof.
  intro H.
  destruct (foldR_total (fun _ => True) f l) with (a := a) as [a' [E _]]; auto.
  - intros a0 b _ _. destruct (H a0 b) as [a1 E]. eauto.
  - now exists a'.
Qed.

(** Chains of substitutions by template: each one is accepted. *)
Ltac chain :=
  repeat first
    [ apply returns_ok
    | apply returns_bind; [apply re_sub_returns; reflexivity | intros ?] ].

Lemma _extract_decorators_returns (code : str) : returns (_extract_decorators code).
Proof. unfold _extract_decorators. chain. Qed.

Lemma _convert_imports_returns (code : str) : returns (_convert_imports code).
Proof.
  unfold _convert_imports.
  repeat (apply returns_bind;
          [ apply re_sub_fn_returns; intros m Hm;
            apply returns_bind; [apply (group_str_returns 2 Hm); reflexivity | intros ?];
            apply returns_bind; [apply (group_str_returns 1 Hm); reflexivity | intros ?];
            apply returns_ok
          | intros ? ]).
  apply returns_ok.
Qed.

Lemma return_type_of_returns (m : matchobj) : returns (return_type_of m).
Proof.
  unfold return_type_of. destruct (group_true m 3) eqn:E; [|apply returns_ok].
  apply returns_bind; [apply group_true_str, E | intros t; apply _convert_type_total].
Qed.

Lemma _convert_functions_returns (code : str) : returns (_convert_functions code).
Proof.
  unfold _convert_functions.
  apply returns_bind; [apply re_sub_returns; reflexivity | intros ?].
  apply returns_bind; [apply re_sub_returns; reflexivity | intros ?].
  apply returns_bind.
  { apply re_sub_fn_returns; intros m Hm. unfold convert_function.
    apply returns_bind; [apply (group_str_returns 1 Hm); reflexivity | intros ?].
    apply returns_bind; [apply (group_str_returns 2 Hm); reflexivity | intros ?].
    apply returns_bind; [apply _convert_params_total | intros ?].
    apply returns_bind; [apply return_type_of_returns | intros ?].
    apply returns_ok. }
  intros ?. apply returns_bind; [|intros ?; apply returns_ok].
  apply re_sub_fn_returns; intros m Hm. unfold convert_async_function.
  apply returns_bind; [apply (group_str_returns 1 Hm); reflexivity | intros ?].
  apply returns_bind; [apply (group_str_returns 2 Hm); reflexivity | intros ?].
  apply returns_bind; [apply _convert_params_total | intros ?].
  apply returns_bind; [apply return_type_of_returns | intros ?].
  apply returns_ok.
Qed.

Lemma _convert_classes_returns (code : str) : returns (_convert_classes code).
Proof.
  unfold _convert_classes.
  apply returns_bind.
  { apply re_sub_fn_returns; intros m Hm.
    apply returns_bind; [apply (group_str_returns 1 Hm); reflexivity | intros ?].
    apply returns_bind; [|intros ?; apply returns_ok].
    destruct (group_true m 2) eqn:E; [apply group_true_str, E | apply returns_ok]. }
  intros ?. apply returns_bind; [|intros ?; apply returns_ok].
  apply re_sub_fn_returns; intros m Hm.
  apply returns_bind; [apply (group_str_returns 1 Hm); reflexivity | intros ?].
  apply returns_ok.
Qed.

Lemma _convert_array_methods_returns (code : str) : returns (_convert_array_methods code).
Proof. unfold _convert_array_methods. chain. Qed.

Lemma _handle_var_declaration_returns (name : str) (type_str : option str) (typed : bool) :
  returns_m (_handle_var_declaration name type_str typed).
Proof.
  unfold _handle_var_declaration. apply returns_m_bind.
  - destruct (negb (str_eqb (_safe_var_name name) name)); [|apply returns_m_ret].
    apply returns_m_bind; [apply returns_m_get | intros ?; apply returns_m_put].
  - intros _. destruct typed; [|apply returns_m_ret].
    destruct type_str as [[|c cs]|]; try apply returns_m_ret.
    apply returns_m_bind; [|intros ?; apply returns_m_ret].
    apply returns_m_lift, _convert_type_total.
Qed.

Lemma rename_usages_returns (code : str) (entry : str * str) :
  returns (rename_usages code entry).
Proof. destruct entry as [old_name new_name]. unfold rename_usages. chain. Qed.

Lemma _convert_variables_returns (code : str) : returns_m (_convert_variables code).
Proof.
  unfold _convert_variables.
  apply returns_m_bind; [apply returns_m_put | intros _].
  apply returns_m_bind; [apply returns_m_lift, re_sub_returns; reflexivity | intros ?].
  apply returns_m_bind.
  { apply re_sub_m_returns; intros m Hm.
    apply returns_m_bind;
      [apply returns_m_lift, (group_str_returns 1 Hm); reflexivity | intros ?].
    apply _handle_var_declaration_returns. }
  intros ?. apply returns_m_bind.
  { apply re_sub_m_returns; intros m Hm.
    apply returns_m_bind;
      [apply returns_m_lift, (group_str_returns 1 Hm); reflexivity | intros ?].
    apply _handle_var_declaration_returns. }
  intros ?. apply returns_m_bind; [apply returns_m_get | intros ?].
  apply returns_m_lift, foldR_returns. intros; apply rename_usages_returns.
Qed.

Lemma _convert_control_structures_returns (code : str) :
  returns (_convert_control_structures code).
Proof. unfold _convert_control_structures. chain. Qed.

Lemma object_pair_returns (renamed : renames) (line : str) :
  returns (object_pair renamed line).
Proof.
  unfold object_pair.
  destruct (_ || _); [apply returns_ok|].
  set (l := if endswith (L ",") (strip line) then removelast (strip line) else strip line).
  destruct (contains (L ":") l) eqn:E; [|apply returns_ok].
  apply (contains_chr ":"%char) in E.
  destruct (split1_shape ":" l) as [[a [_ H]]|[a [b [-> _]]]]; [contradiction|].
  apply returns_ok.
Qed.

Lemma _convert_object_literal_returns (content : str) :
  returns_m (_convert_object_literal content).
Proof.
  unfold _convert_object_literal.
  apply returns_m_bind; [apply returns_m_get | intros renamed].
  apply returns_m_bind; [|intros ?; apply returns_m_ret].
  apply returns_m_lift, mapR_total. intros; apply object_pair_returns.
Qed.

Lemma _convert_objects_returns (code : str) : returns_m (_convert_objects code).
Proof.
  unfold _convert_objects.
  apply returns_m_bind.
  { apply re_sub_m_returns; intros m Hm.
    apply returns_m_bind;
      [apply returns_m_lift, (group_str_returns 1 Hm); reflexivity | intros ?].
    apply returns_m_bind; [apply _convert_object_literal_returns | intros ?].
    apply returns_m_ret. }
  intros ?. apply returns_m_bind; [|intros ?; apply returns_m_ret].
  apply re_sub_m_returns; intros m Hm.
  apply returns_m_bind;
    [apply returns_m_lift, (group_str_returns 1 Hm); reflexivity | intros ?].
  apply returns_m_bind; [apply _convert_object_literal_returns | intros ?].
  apply returns_m_ret.
Qed.

Lemma replace_method_returns (code : str) (entry : str * str) :
  returns (replace_method code entry).
Proof.
  destruct entry as [js_method py_method]. unfold replace_method.
  destruct (negb _); [apply re_sub_returns; reflexivity | apply returns_ok].
Qed.

Lemma _convert_common_methods_returns (code : str) :
  returns (_convert_common_methods code).
Proof.
  unfold _convert_common_methods.
  apply returns_bind; [apply re_sub_returns; reflexivity | intros ?].
  apply returns_bind; [apply re_sub_returns; reflexivity | intros ?].
  apply returns_bind; [apply foldR_returns; intros; apply replace_method_returns | intros ?].
  chain.
Qed.

Lemma _convert_operators_returns (code : str) : returns (_convert_operators code).
Proof. unfold _convert_operators. chain. Qed.

Lemma _cleanup_code_returns (code : str) : returns (_cleanup_code code).
Proof. unfold _cleanup_code. chain. Qed.

Lemma item_total (l : list str) (i : nat) : i < length l -> exists x, item l i = Ok x.
Proof.
  intro H. unfold item. destruct (nth_error l i) eqn:E; [eauto|].
  apply nth_error_None in E. lia.
Qed.

Lemma set_item_length (l : list str) (i : nat) (v : str) :
  length (set_item l i v) = length l.
Proof.
  revert i. induction l as [|x l IH]; intros [|i]; simpl; auto.
Qed.

Lemma fix_after_return_step (n : nat) (lines : list str) (i : nat) :
  i + 1 < n -> length lines = n ->
  exists lines', fix_after_return lines i = Ok lines' /\ length lines' = n.
Proof.
  intros Hi Hn. unfold fix_after_return.
  destruct (@item_total lines i) as [cur ->]; [lia|]. rewrite bind_ok.
  destruct (startswith (L "return ") (strip cur)); [|eauto].
  destruct (@item_total lines (i + 1)) as [next ->]; [lia|]. rewrite bind_ok.
  destruct (_ && _); [|eauto].
  eexists. split; [reflexivity|]. now rewrite set_item_length.
Qed.

Lemma _post_process_returns (python_code : str) : returns (_post_process python_code).
Proof.
  unfold _post_process.
  apply returns_bind; [apply re_sub_returns; reflexivity | intros ?].
  apply returns_bind; [apply re_sub_returns; reflexivity | intros ?].
  apply returns_bind; [apply re_sub_returns; reflexivity | intros code].
  apply returns_bind; [|intros ?; apply returns_ok].
  assert (H : exists lines,
             foldR fix_after_return (split nl code)
                   (seq 0 (length (split nl code) - 1)) = Ok lines
             /\ length lines = length (split nl code)).
  { apply (foldR_total (fun l => length l = length (split nl code))); [|reflexivity].
    intros l i Hi Hl. apply in_seq in Hi.
    apply fix_after_return_step; [lia | exact Hl]. }
  destruct H as [lines [E _]]. now exists lines.
Qed.

Lemma translate_returns (js_code : str) : returns_m (translate js_code).
Proof.
  unfold translate.
  apply returns_m_bind; [apply returns_m_lift, _extract_decorators_returns | intros [d c]].
  apply returns_m_bind; [apply returns_m_lift, _convert_imports_returns | intros ?].
  apply returns_m_bind; [apply returns_m_lift, _convert_functions_returns | intros ?].
  apply returns_m_bind; [apply returns_m_lift, _convert_classes_returns | intros ?].
  apply returns_m_bind; [apply returns_m_lift, _convert_array_methods_returns | intros ?].
  apply returns_m_bind; [apply _convert_variables_returns | intros ?].
  apply returns_m_bind; [apply returns_m_lift, _convert_control_structures_returns | intros ?].
  apply returns_m_bind; [apply _convert_objects_returns | intros ?].
  apply returns_m_bind; [apply returns_m_lift, _convert_common_methods_returns | intros ?].
  apply returns_m_bind; [apply returns_m_lift, _convert_operators_returns | intros ?].
  apply returns_m_bind; [apply returns_m_lift, _cleanup_code_returns | intros ?].
  apply returns_m_bind; [apply returns_m_lift, _post_process_returns | intros ?].
  apply returns_m_ret.
Qed.

Lemma convert_returns (js_code : str) : returns_m (convert js_code).
Proof.
  unfold convert.
  apply returns_m_bind; [apply translate_returns | intros ?; apply returns_m_ret].
Qed.

(** ** Inversion of the monadic steps *)

Lemma bind_inv {A B : Type} (x : result A) (f : A -> result B) (b : B) :
  bind x f = Ok b -> exists a, x = Ok a /\ f a = Ok b.
Proof. destruct x as [a|e]; simpl; [eauto | discriminate]. Qed.

Lemma bindM_inv {A B : Type} (x : M A) (f : A -> M B) (st : renames) (r : B * renames) :
  bindM x f st = Ok r -> exists a st1, x st = Ok (a, st1) /\ f a st1 = Ok r.
Proof.
  unfold bindM. destruct (x st) as [[a st1]|e]; [eauto | discriminate].
Qed.

Lemma lift_inv {A : Type} (x : result A) (st st' : renames) (a : A) :
  lift x st = Ok (a, st') -> x = Ok a /\ st' = st.
Proof.
  unfold lift. destruct x; [|discriminate]. intros [= -> ->]. auto.
Qed.

Lemma foldR_inv {A B : Type} (Inv : A -> Prop) (f : A -> B -> result A) (l : list B) :
  (forall a b a', Inv a -> f a b = Ok a' -> Inv a') ->
  forall a a', Inv a -> foldR f a l = Ok a' -> Inv a'.
Proof.
  intro H. induction l as [|b l IH]; intros a a' Ha E; simpl in E.
  - now injection E as <-.
  - apply bind_inv in E. destruct E as [a1 [E1 E2]]. eauto.
Qed.

Lemma item_in (l : list str) (i : nat) (x : str) : item l i = Ok x -> In x l.
Proof.
  unfold item. destruct (nth_error l i) eqn:E; [|discriminate].
  intros [= <-]. eapply nth_error_In; eauto.
Qed.

(** ** Semicolons *)

Ltac no_semicolon :=
  cbv [L list_ascii_of_string nl dq sq];
  repeat (constructor; [discriminate|]); constructor.

Ltac no_semicolon_template :=
  unfold template_all, t_;
  repeat (constructor; [first [exact I | no_semicolon]|]); constructor.

Lemma replace_semicolon (s : str) : semicolon_free (replace (L ";") [] s).
Proof.
  change (replace (L ";") [] s) with (replace_from [";"%char] [] 0 s).
  induction s as [|x s IH]; simpl; [constructor|].
  rewrite andb_true_r. destruct (chr_eqb ";" x) eqn:E; simpl; [exact IH|].
  constructor; [|exact IH].
  apply chr_eqb_neq in E. intro Hx. now subst.
Qed.

Section LoopAlphabet.

Variable P : ascii -> Prop.
Hypothesis P_space : P " "%char.

Lemma indent_step_all (st : indent_state) (line : str) :
  Forall (Forall P) (cleaned_lines st) -> Forall P line ->
  Forall (Forall P) (cleaned_lines (indent_step st line)).
Proof.
  intros Hst Hline. unfold indent_step.
  pose proof (all_strip Hline) as Hs.
  destruct (strip line) as [|c cs] eqn:E; cbv beta iota zeta.
  - apply Forall_app. split; [exact Hst | repeat constructor].
  - destruct (contains _ _); cbn [cleaned_lines]; [exact Hst|].
    apply Forall_app. split; [exact Hst|]. constructor; [|constructor].
    apply Forall_app. split; [|exact Hs].
    apply all_concat_repeat. repeat constructor; exact P_space.
Qed.

Lemma indent_fold_all (lines : list str) :
  Forall (Forall P) lines ->
  forall st, Forall (Forall P) (cleaned_lines st) ->
  Forall (Forall P) (cleaned_lines (fold_left indent_step lines st)).
Proof.
  induction 1 as [|l ls Hl Hls IH]; intros st Hst; simpl; [exact Hst|].
  apply IH. now apply indent_step_all.
Qed.

Lemma indent_loop_all (lines : list str) :
  Forall (Forall P) lines -> Forall (Forall P) (cleaned_lines (indent_loop lines)).
Proof. intro H. apply indent_fold_all; [exact H | constructor]. Qed.

Lemma fix_after_return_all (lines lines' : list str) (i : nat) :
  Forall (Forall P) lines -> fix_after_return lines i = Ok lines' ->
  Forall (Forall P) lines'.
Proof.
  intros H E. unfold fix_after_return in E.
  apply bind_inv in E. destruct E as [cur [Ecur E]].
  destruct (startswith _ _); [|now injection E as <-].
  apply bind_inv in E. destruct E as [next [Enext E]].
  destruct (_ && _); [|now injection E as <-].
  injection E as <-. apply all_set_item; [exact H|].
  apply Forall_app. split; [now apply all_repeat|].
  apply all_lstrip. apply item_in in Enext.
  rewrite Forall_forall in H. auto.
Qed.

End LoopAlphabet.

Lemma _cleanup_code_semicolon (code out : str) :
  _cleanup_code code = Ok out -> semicolon_free out.
Proof.
  unfold _cleanup_code. intro E.
  apply bind_inv in E. destruct E as [c1 [_ E]].
  apply bind_inv in E. destruct E as [c2 [E2 E]].
  injection E as <-.
  apply all_join; [no_semicolon|].
  apply indent_loop_all; [discriminate|].
  apply all_split.
  eapply re_sub_all; [|apply replace_semicolon|exact E2].
  no_semicolon_template.
Qed.

Lemma _post_process_semicolon (code out : str) :
  semicolon_free code -> _post_process code = Ok out -> semicolon_free out.
Proof.
  unfold _post_process. intros H E.
  apply bind_inv in E. destruct E as [c1 [E1 E]].
  apply bind_inv in E. destruct E as [c2 [E2 E]].
  apply bind_inv in E. destruct E as [c3 [E3 E]].
  apply bind_inv in E. destruct E as [lines [El E]].
  injection E as <-.
  assert (H1 : semicolon_free c1).
  { eapply re_sub_all; [|exact H|exact E1]. no_semicolon_template. }
  assert (H2 : semicolon_free c2).
  { eapply re_sub_all; [|exact H1|exact E2]. no_semicolon_template. }
  assert (H3 : semicolon_free c3).
  { eapply re_sub_all; [|exact H2|exact E3]. no_semicolon_template. }
  apply all_join; [no_semicolon|].
  eapply (foldR_inv (fun l => Forall semicolon_free l)); [| |exact El].
  - intros a i a' Ha Ea. eapply fix_after_return_all; eauto. discriminate.
  - now apply all_split.
Qed.

Lemma import_lines_semicolon (code : str) : Forall semicolon_free (import_lines code).
Proof.
  unfold import_lines.
  repeat (apply Forall_app; split);
    (match goal with
     | |- Forall _ (if ?b then _ else _) => destruct b
     end;
     [constructor; [unfold typing_import; no_semicolon | constructor] | constructor]).
Qed.

Lemma with_imports_semicolon (code : str) :
  semicolon_free code -> semicolon_free (with_imports code).
Proof.
  intro H. unfold with_imports. destruct (nonempty _); [|exact H].
  apply Forall_app. split.
  - apply all_join; [no_semicolon | apply import_lines_semicolon].
  - apply Forall_app. split; [no_semicolon | exact H].
Qed.

Lemma translate_semicolon (js_code out : str) (st st' : renames) :
  translate js_code st = Ok (out, st') -> semicolon_free out.
Proof.
  unfold translate. intro E.
  apply bindM_inv in E. destruct E as [[d c0] [s0 [_ E]]]. cbv beta iota zeta in E.
  do 9 (apply bindM_inv in E; destruct E as [? [? [_ E]]]).
  apply bindM_inv in E. destruct E as [c11 [s11 [E11 E]]].
  apply bindM_inv in E. destruct E as [c12 [s12 [E12 E]]].
  unfold ret in E. injection E as <- <-.
  apply lift_inv in E11. destruct E11 as [E11 _].
  apply lift_inv in E12. destruct E12 as [E12 _].
  eapply _post_process_semicolon; [|exact E12].
  eapply _cleanup_code_semicolon. exact E11.
Qed.

Lemma convert_semicolon (js_code out : str) (st st' : renames) :
  convert js_code st = Ok (out, st') -> semicolon_free out.
Proof.
  unfold convert. intro E.
  apply bindM_inv in E. destruct E as [code [s1 [E1 E]]].
  unfold ret in E. injection E as <- <-.
  apply with_imports_semicolon. eapply translate_semicolon. exact E1.
Qed.

(** * The claims *)

Lemma text_of_ok {A : Type} (s : str) (a : A) :
  text_of (Ok (s, a)) = Ok (string_of_list_ascii s).
Proof. reflexivity. Qed.

(** C4: on the array-method cases of the specification, the output holds
    the comprehension for [filter] and for [map], and for [reduce] the
    [functools.reduce] call together with the line [import functools]; the
    first two also when they stand inside a function body. *)
Theorem array_method_cases :
  (exists out, js_to_python "items.filter(x => x > 0)" = Ok out
               /\ has_text "[x for x in items if x > 0]" out)
  /\ (exists out, js_to_python "items.map(x => x * 2)" = Ok out
                  /\ has_text "[x * 2 for x in items]" out)
  /\ (exists out, js_to_python "numbers.reduce((a, b) => a + b, 0)" = Ok out
                  /\ has_text "functools.reduce(lambda a, b: a + b, numbers, 0)" out
                  /\ has_line "import functools" out)
  /\ (exists out, js_to_python process_array_js = Ok out
                  /\ has_text "[x for x in items if x > 0]" out
                  /\ has_text "[x * 2 for x in filtered]" out).
Proof.
  repeat split; eexists; (split; [vm_compute; reflexivity|]);
    repeat split; vm_compute; auto.
Qed.



(** C9: the output of [convert] does not depend on the rename table an
    earlier call left behind: on any converter it is the output of
    [js_to_python], which builds a new one; two calls on the same input
    therefore agree. *)
Theorem convert_deterministic :
  forall (js_code : string) (st1 st2 : renames),
    text_of (convert (L js_code) st1) = js_to_python js_code
    /\ text_of (convert (L js_code) st1) = text_of (convert (L js_code) st2).
Proof.
  assert (H : forall (js_code : str) (st : renames),
             convert js_code st = convert js_code fresh).
  { intros js_code st. unfold convert, translate, bindM, lift.
    destruct (_extract_decorators js_code) as [[d c0]|e]; [|reflexivity].
    destruct (_convert_imports c0) as [c1|e]; [|reflexivity].
    destruct (_convert_functions c1) as [c2|e]; [|reflexivity].
    destruct (_convert_classes c2) as [c3|e]; [|reflexivity].
    destruct (_convert_array_methods c3) as [c4|e]; [|reflexivity].
    reflexivity. }
  intros js_code st1 st2. unfold js_to_python.
  rewrite (H (L js_code) st1), (H (L js_code) st2). auto.
Qed.

(** C10: the text [convert] returns holds no semicolon: every semicolon of
    the input is gone, wherever it stood. *)
Theorem output_has_no_semicolon :
  forall js_code : string,
    exists python_code,
      js_to_python js_code = Ok python_code /\ ~ In ";"%char (L python_code).
Proof.
  intro js_code. unfold js_to_python.
  destruct (convert_returns (L js_code) fresh) as [out [st' E]].
  rewrite E. eexists. split; [apply text_of_ok|].
  unfold L. rewrite list_ascii_of_string_of_list_ascii.
  apply convert_semicolon in E. intro Hin.
  unfold semicolon_free in E. rewrite Forall_forall in E.
  now apply (E _ Hin).
Qed.

(** ** Imports of the generated code *)

Lemma in_if_single (b : bool) (l x : str) :
  In x (if b then [l] else []) <-> b = true /\ l = x.
Proof.
  destruct b; simpl; split.
  - intros [H|[]]. auto.
  - intros [_ H]. auto.
  - intros [].
  - intros [H _]. discriminate.
Qed.

Lemma with_imports_spec (code : str) :
  with_imports code =
  match import_lines code with
  | [] => code
  | _ :: _ => join [nl] (import_lines code) ++ [nl; nl] ++ code
  end.
Proof.
  unfold with_imports, _generate_imports, import_lines.
  destruct (existsb _ typing_hints), (_ || _),
    (contains (L "math.") code), (contains (L "random.") code),
    (contains (L "json.") code), (contains (L "functools.reduce") code);
    reflexivity.
Qed.

Lemma typing_trigger (code : str) :
  existsb (fun hint => contains hint code) typing_hints = true <->
  contains (L "List[") code = true
  \/ contains (L "Dict[") code = true
  \/ contains (L "Any") code = true
  \/ contains (L "Union[") code = true
  \/ contains (L "Optional[") code = true
  \/ contains (L "Awaitable[") code = true.
Proof.
  unfold typing_hints. cbn [existsb]. rewrite !orb_true_iff.
  intuition discriminate.
Qed.

Ltac import_iff :=
  unfold import_lines;
  rewrite !in_app_iff, !in_if_single;
  cbv [L list_ascii_of_string typing_import];
  intuition discriminate.

(** C5, as the code has it: the imports are put in front of the produced
    text, each line there exactly when its own trigger occurs in that
    text.  The trigger of the typing line is any of [List[], [Dict[],
    [Any], [Union[], [Optional[], [Awaitable[]: [Any] counts without a
    bracket. *)
Theorem imports_follow_triggers :
  forall (js_code : string) (st : renames),
    exists python_code st',
      translate (L js_code) st = Ok (python_code, st')
      /\ convert (L js_code) st =
           Ok (match import_lines python_code with
               | [] => python_code
               | _ :: _ => join [nl] (import_lines python_code) ++ [nl; nl] ++ python_code
               end, st')
      /\ (In typing_import (import_lines python_code) <->
            contains (L "List[") python_code = true
            \/ contains (L "Dict[") python_code = true
            \/ contains (L "Any") python_code = true
            \/ contains (L "Union[") python_code = true
            \/ contains (L "Optional[") python_code = true
            \/ contains (L "Awaitable[") python_code = true)
      /\ (In (L "import asyncio") (import_lines python_code) <->
            contains (L "async def") python_code = true
            \/ contains (L "await") python_code = true)
      /\ (In (L "import math") (import_lines python_code) <->
            contains (L "math.") python_code = true)
      /\ (In (L "import random") (import_lines python_code) <->
            contains (L "random.") python_code = true)
      /\ (In (L "import json") (import_lines python_code) <->
            contains (L "json.") python_code = true)
      /\ (In (L "import functools") (import_lines python_code) <->
            contains (L "functools.reduce") python_code = true).
Proof.
  intros js_code st.
  destruct (translate_returns (L js_code) st) as [code [st' E]].
  exists code, st'. split; [exact E|]. split.
  { unfold convert, bindM. rewrite E. unfold ret. now rewrite with_imports_spec. }
  split.
  { rewrite <- typing_trigger. import_iff. }
  split.
  { rewrite <- orb_true_iff. import_iff. }
  repeat split; import_iff.
Qed.

(** C5 as stated fails: for the [add] function the produced text names no
    bracketed typing form, only the bare [Any] of the return annotation,
    and the typing import is put in front all the same. *)
Lemma typing_import_for_bare_Any :
  exists python_code,
    translate (L add_js) fresh = Ok (python_code, fresh)
    /\ contains (L "List[") python_code = false
    /\ contains (L "Dict[") python_code = false
    /\ contains (L "Union[") python_code = false
    /\ contains (L "Optional[") python_code = false
    /\ contains (L "Awaitable[") python_code = false
    /\ In typing_import (import_lines python_code)
    /\ exists out, js_to_python add_js = Ok out
                   /\ has_line "from typing import List, Dict, Any, Union, Optional, Awaitable" out.
Proof.
  eexists. split; [vm_compute; reflexivity|].
  repeat split; try (vm_compute; reflexivity).
  - vm_compute. auto.
  - eexists. split; [vm_compute; reflexivity|]. vm_compute. auto.
Qed.

(** ** The indentation counter *)

Lemma dedent_nonneg (level : Z) (stripped : str) :
  (0 <= level)%Z -> (0 <= dedent level stripped)%Z.
Proof. intro H. unfold dedent. destruct (starts_branch stripped); lia. Qed.

Lemma indent_step_nonneg (st : indent_state) (line : str) :
  (0 <= indent_level st)%Z -> (0 <= indent_level (indent_step st line))%Z.
Proof.
  intro H. unfold indent_step.
  destruct (strip line) as [|c cs]; [exact H|]. cbv beta iota zeta.
  pose proof (dedent_nonneg (c :: cs) H) as Hd.
  destruct (contains _ _); cbn [indent_level]; [exact Hd|].
  destruct (opens_block _); lia.
Qed.

Lemma indent_fold_nonneg (lines : list str) :
  forall st, (0 <= indent_level st)%Z ->
             (0 <= indent_level (fold_left indent_step lines st))%Z.
Proof.
  induction lines as [|l ls IH]; intros st H; simpl; [exact H|].
  apply IH. now apply indent_step_nonneg.
Qed.

Lemma starts_branch_spec (s : str) :
  starts_branch s =
  startswith (L "elif") s || startswith (L "else") s
  || startswith (L "except") s || startswith (L "finally") s.
Proof.
  unfold starts_branch. cbn [existsb]. rewrite orb_false_r, !orb_assoc. reflexivity.
Qed.

(** C8, as the code has it: during the indentation loop the counter is
    never negative, neither after a line nor right after the check made
    before a line.  Before a line that begins with elif, else, except or
    finally it drops by one, not below zero.  After a line it rises by one
    when the line ends in a colon, unless the colon follows a quote, the
    line begins with [#], or the line holds the [__INDENT__] marker; blank
    lines change nothing. *)
Theorem indent_level_never_negative :
  (forall (lines : list str) (n : nat),
      let st := indent_loop (firstn n lines) in
      (0 <= indent_level st)%Z
      /\ forall line, (0 <= dedent (indent_level st) (strip line))%Z)
  /\ (forall (st : indent_state) (line : str),
        let stripped := strip line in
        let before :=
          if startswith (L "elif") stripped || startswith (L "else") stripped
             || startswith (L "except") stripped || startswith (L "finally") stripped
          then Z.max 0 (indent_level st - 1) else indent_level st in
        indent_level (indent_step st line) =
          if endswith (L ":") stripped
             && negb (endswith ([dq] ++ L ":") stripped)
             && negb (endswith ([sq] ++ L ":") stripped)
             && negb (startswith (L "#") stripped)
             && negb (contains (L "__INDENT__") stripped)
          then (before + 1)%Z else before).
Proof.
  split.
  - intros lines n st.
    assert (H : (0 <= indent_level st)%Z).
    { apply indent_fold_nonneg. simpl. lia. }
    split; [exact H|]. intro line. now apply dedent_nonneg.
  - intros st line stripped before. subst before.
    rewrite <- starts_branch_spec. unfold indent_step. fold stripped.
    destruct stripped as [|c cs] eqn:E; [reflexivity|].
    cbv beta iota zeta. unfold dedent, opens_block.
    destruct (contains _ _); cbn [indent_level].
    + rewrite andb_false_r. reflexivity.
    + rewrite andb_true_r.
      destruct (endswith (L ":") _), (endswith ([dq] ++ L ":") _),
        (endswith ([sq] ++ L ":") _), (startswith (L "#") _); reflexivity.
Qed.

(** C8 as stated fails on a comment: the line ends in a colon that follows
    no quote, and the counter stays where it was; the line after it is not
    indented. *)
Lemma comment_colon_keeps_level :
  endswith (L ":") (L "# section:") = true
  /\ endswith ([dq] ++ L ":") (L "# section:") = false
  /\ endswith ([sq] ++ L ":") (L "# section:") = false
  /\ indent_level (indent_step indent_start (L "# section:")) = 0%Z
  /\ js_to_python comment_js =
       Ok "# section:
foo(1)"%string.
Proof. repeat split; vm_compute; reflexivity. Qed.

(** ** Where the code departs from the claims *)

(** C2: the declaration of [max] is renamed and so is its use in [return],
    but its use in the comparison is not: the usage pattern skips every
    occurrence followed by [=], and [===] starts with one. *)
Theorem comparison_use_not_renamed :
  js_to_python max_compare_js =
    Ok "max_var = 20
if max == 20::
    return max_var"%string
  /\ (exists code, re_sub (usage (L "max")) [T (L "max_var")] (L "if (max === 20) { return max }") = Ok code
                   /\ code = L "if (max === 20) { return max_var }").
Proof.
  split; [vm_compute; reflexivity|].
  eexists. split; vm_compute; reflexivity.
Qed.

(** C3: the key [max] of the object literal comes out as the quoted text
    [max_var]: the variable pass has renamed the key before the object pass
    quotes it. *)
Theorem object_key_is_renamed :
  convert (L max_key_js) fresh =
    Ok (L "max_var = 20" ++ [nl] ++ L "return {" ++ [dq] ++ L "max_var" ++ [dq]
          ++ L ": max_var}",
        [(L "max", L "max_var")])
  /\ (exists code st, _convert_variables (L "max = 20 return { max: max }") fresh = Ok (code, st)
                      /\ code = L "max_var = 20 return { max_var: max_var }").
Proof.
  split; [vm_compute; reflexivity|].
  eexists. eexists. split; vm_compute; reflexivity.
Qed.

(** C6: an [else if] branch comes out as [else if], never as [elif]: the
    [if] pattern runs first and rewrites the [if (...) {] inside
    [} else if (...) {], after which the [else if] pattern finds nothing.
    The headers that end a line also get a second colon. *)
Theorem else_if_not_rewritten :
  js_to_python if_chain_js =
    Ok "if x > 0::
    y = 1
else if x < 0::
    y = 2
else:
    y = 3"%string
  /\ (exists out, js_to_python if_chain_js = Ok out /\ contains (L "elif") (L out) = false)
  /\ re_search else_if (L if_chain_js) = true
  /\ (exists code, re_sub if_statement [t_ "if "; G 1; t_ ":"] (L if_chain_js) = Ok code
                   /\ re_search else_if code = false).
Proof.
  split; [vm_compute; reflexivity|].
  split; [eexists; split; vm_compute; reflexivity|].
  split; [vm_compute; reflexivity|].
  eexists. split; vm_compute; reflexivity.
Qed.

(** * Further properties *)

(** ** Occurrences *)

Lemma contains_app_l (p a b : str) : contains p a = true -> contains p (a ++ b) = true.
Proof.
  induction a as [|x a IH]; simpl; intro H.
  - rewrite orb_false_r in H. destruct p; [|discriminate].
    destruct b; reflexivity.
  - apply orb_true_iff in H. destruct H as [H|H].
    + apply startswith_prefix in H. destruct H as [t Ht].
      change (x :: a ++ b) with ((x :: a) ++ b). rewrite Ht, <- app_assoc.
      now rewrite startswith_app.
    + rewrite (IH H). apply orb_true_r.
Qed.

Lemma contains_app_r (p a b : str) : contains p b = true -> contains p (a ++ b) = true.
Proof.
  intro H. induction a as [|x a IH]; simpl; [exact H|].
  rewrite IH. apply orb_true_r.
Qed.

Lemma occurs_any_app_l (marks : list str) (a b : str) :
  occurs_any marks a = true -> occurs_any marks (a ++ b) = true.
Proof.
  unfold occurs_any. rewrite !existsb_exists. intros [m [Hm H]].
  exists m. split; [exact Hm | now apply contains_app_l].
Qed.

Lemma occurs_any_app_r (marks : list str) (a b : str) :
  occurs_any marks b = true -> occurs_any marks (a ++ b) = true.
Proof.
  unfold occurs_any. rewrite !existsb_exists. intros [m [Hm H]].
  exists m. split; [exact Hm | now apply contains_app_r].
Qed.

Lemma contains_slice (p : str) (i j : nat) (s : str) :
  contains p (slice i j s) = true -> contains p s = true.
Proof.
  unfold slice. intro H.
  rewrite <- (firstn_skipn i s). apply contains_app_r.
  rewrite <- (firstn_skipn (j - i) (skipn i s)). now apply contains_app_l.
Qed.

Lemma firstn_plus (a b : nat) (s : str) :
  firstn (a + b) s = firstn a s ++ firstn b (skipn a s).
Proof.
  revert s. induction a as [|a IH]; intros s; [reflexivity|].
  destruct s as [|x s]; simpl; [now rewrite firstn_nil|]. now rewrite IH.
Qed.

Lemma slice_app (i j k : nat) (s : str) :
  i <= j -> j <= k -> slice i k s = slice i j s ++ slice j k s.
Proof.
  intros Hij Hjk. unfold slice.
  replace (k - i) with ((j - i) + (k - j)) by lia.
  rewrite firstn_plus. f_equal.
  rewrite skipn_skipn. now replace (j - i + i) with j by lia.
Qed.

(** ** The span of a match *)

Lemma skipn_cons_inv (n : nat) (s : str) (x : ascii) (xs : str) :
  skipn n s = x :: xs -> skipn (S n) s = xs /\ S n <= length s.
Proof.
  revert s. induction n as [|n IH]; intros s H.
  - simpl in H. subst s. simpl. split; [reflexivity | lia].
  - destruct s as [|y s]; [discriminate|]. simpl in H.
    destruct (IH _ H) as [H1 H2]. split; [exact H1 | simpl; lia].
Qed.

Lemma cursor_at_step (subj : str) (c : cursor) (x : ascii) (xs : str) (pv : option ascii)
    (cs : captures) :
  cursor_at subj c -> rest c = x :: xs ->
  cursor_at subj (Cursor (S (pos c)) pv xs cs)
  /\ slice (pos c) (S (pos c)) subj = [x].
Proof.
  intros [Hr Hp] E. rewrite Hr in E.
  destruct (skipn_cons_inv _ _ E) as [H1 H2].
  split; [split; simpl; auto|].
  unfold slice. replace (S (pos c) - pos c) with 1 by lia. now rewrite E.
Qed.

Lemma advance_span (subj : str) (l : str) :
  forall c, cursor_at subj c -> startswith l (rest c) = true ->
            cursor_at subj (advance (length l) c)
            /\ pos (advance (length l) c) = pos c + length l
            /\ slice (pos c) (pos c + length l) subj = l.
Proof.
  induction l as [|a l IH]; intros c Hc H; simpl.
  - split; [exact Hc|]. split; [lia|]. unfold slice.
    now replace (pos c + 0 - pos c) with 0 by lia.
  - destruct (rest c) as [|x xs] eqn:E; [discriminate|]. simpl in H.
    apply andb_true_iff in H. destruct H as [Hx Hl]. apply chr_eqb_eq in Hx. subst x.
    destruct (cursor_at_step (Some a) (caps c) Hc E) as [Hc' Hs].
    destruct (IH _ Hc' Hl) as [H1 [H2 H3]]. cbn [pos] in H2, H3.
    split; [exact H1|]. split; [lia|].
    rewrite (slice_app (j := S (pos c))) by lia. rewrite Hs.
    replace (pos c + S (length l)) with (S (pos c) + length l) by lia.
    now rewrite H3.
Qed.

Lemma star_loop_span (subj : str) (p : ascii -> bool) (k : cursor -> option cursor)
    (cs : captures) (s : str) :
  forall i pv res,
    cursor_at subj (Cursor i pv s cs) ->
    star_loop p k cs i pv s = Some res ->
    exists c', k c' = Some res /\ cursor_at subj c' /\ i <= pos c'.
Proof.
  induction s as [|x s IH]; intros i pv res Hc H; simpl in H.
  - eexists. split; [exact H|]. split; [exact Hc | simpl; lia].
  - destruct (p x).
    + destruct (star_loop p k cs (S i) (Some x) s) eqn:E.
      * injection H as <-.
        destruct (cursor_at_step (Some x) cs Hc eq_refl) as [Hc' _].
        destruct (IH _ _ _ Hc' E) as [c' [H1 [H2 H3]]].
        exists c'. split; [exact H1|]. split; [exact H2 | simpl in *; lia].
      * eexists. split; [exact H|]. split; [exact Hc | simpl; lia].
    + eexists. split; [exact H|]. split; [exact Hc | simpl; lia].
Qed.

(** A successful match hands its continuation a cursor further on in the
    subject, and the text in between holds what the pattern must contain. *)
Lemma rmatch_span (subj : str) (r : regex) :
  forall c k res,
    cursor_at subj c ->
    rmatch subj r c k = Some res ->
    exists c', k c' = Some res /\ cursor_at subj c' /\ pos c <= pos c'
               /\ forall marks, must_contain r marks = true ->
                                occurs_any marks (slice (pos c) (pos c') subj) = true.
Proof.
  induction r as [l|p|p|r1 IH1 r2 IH2|r1 IH1 r2 IH2|r1 IH1|g r1 IH1|r1 IH1|p| | |g];
    intros c k res Hc H; simpl in H.
  - destruct (startswith l (rest c)) eqn:E; [|discriminate].
    destruct (advance_span l Hc E) as [H1 [H2 H3]].
    eexists. split; [exact H|]. split; [exact H1|]. split; [lia|].
    intros s Hs. simpl in Hs. now rewrite H2, H3.
  - destruct (rest c) as [|x xs] eqn:E; [discriminate|].
    destruct (p x); [|discriminate].
    destruct (cursor_at_step (Some x) (caps c) Hc E) as [Hc' _].
    eexists. split; [exact H|]. split; [exact Hc'|]. simpl. split; [lia|].
    intros s Hs. discriminate Hs.
  - apply star_loop_span with (subj := subj) in H.
    + destruct H as [c' [H1 [H2 H3]]]. exists c'.
      split; [exact H1|]. split; [exact H2|]. split; [exact H3|].
      intros s Hs. discriminate Hs.
    + destruct Hc as [Hr Hp]. split; simpl; auto.
  - apply IH1 in H; [|exact Hc]. destruct H as [c1 [H [Hc1 [L1 S1]]]].
    apply IH2 in H; [|exact Hc1]. destruct H as [c2 [H [Hc2 [L2 S2]]]].
    exists c2. split; [exact H|]. split; [exact Hc2|]. split; [lia|].
    intros s Hs. simpl in Hs. apply orb_true_iff in Hs.
    rewrite (slice_app (j := pos c1)) by lia.
    destruct Hs as [Hs|Hs]; [apply occurs_any_app_l | apply occurs_any_app_r]; auto.
  - destruct (rmatch subj r1 c k) eqn:E.
    + injection H as <-. apply IH1 in E; [|exact Hc].
      destruct E as [c' [H1 [H2 [H3 H4]]]]. exists c'.
      split; [exact H1|]. split; [exact H2|]. split; [exact H3|].
      intros s Hs. simpl in Hs. apply andb_true_iff in Hs. now apply H4.
    + apply IH2 in H; [|exact Hc].
      destruct H as [c' [H1 [H2 [H3 H4]]]]. exists c'.
      split; [exact H1|]. split; [exact H2|]. split; [exact H3|].
      intros s Hs. simpl in Hs. apply andb_true_iff in Hs. now apply H4.
  - destruct (rmatch subj r1 c k) eqn:E.
    + injection H as <-. apply IH1 in E; [|exact Hc].
      destruct E as [c' [H1 [H2 [H3 _]]]]. exists c'.
      split; [exact H1|]. split; [exact H2|]. split; [exact H3|].
      intros s Hs. discriminate Hs.
    + exists c. split; [exact H|]. split; [exact Hc|]. split; [lia|].
      intros s Hs. discriminate Hs.
  - apply IH1 in H; [|exact Hc]. destruct H as [c1 [H [Hc1 [L1 S1]]]].
    eexists. split; [exact H|]. split; [exact Hc1|]. simpl. split; [exact L1 | exact S1].
  - destruct (rmatch subj r1 c (fun c' => Some c')); [discriminate|].
    exists c. split; [exact H|]. split; [exact Hc|]. split; [lia|].
    intros s Hs. discriminate Hs.
  - destruct (opt_is p (prev c)); [discriminate|].
    exists c. split; [exact H|]. split; [exact Hc|]. split; [lia|].
    intros s Hs. discriminate Hs.
  - destruct (at_boundary c); [|discriminate].
    exists c. split; [exact H|]. split; [exact Hc|]. split; [lia|].
    intros s Hs. discriminate Hs.
  - destruct (at_endline c); [|discriminate].
    exists c. split; [exact H|]. split; [exact Hc|]. split; [lia|].
    intros s Hs. discriminate Hs.
  - destruct (group_text subj (caps c) g) as [s|]; [|discriminate].
    destruct (startswith s (rest c)) eqn:E; [|discriminate].
    destruct (advance_span s Hc E) as [H1 [H2 H3]].
    eexists. split; [exact H|]. split; [exact H1|]. split; [lia|].
    intros s0 Hs. discriminate Hs.
Qed.

Lemma match_at_span (r : regex) (subj : str) (i : nat) (pv : option ascii)
    (adv : bool) (m : matchobj) :
  i <= length subj ->
  match_at r subj i pv (skipn i subj) adv = Some m ->
  m_subject m = subj /\ m_start m = i /\ i <= m_end m /\ m_end m <= length subj
  /\ (adv = true -> m_end m <> i)
  /\ forall marks, must_contain r marks = true ->
                   occurs_any marks (slice i (m_end m) subj) = true.
Proof.
  intros Hi H. unfold match_at in H.
  destruct (rmatch subj r _ _) as [c'|] eqn:E; [|discriminate].
  injection H as <-. cbn [m_subject m_start m_end].
  apply rmatch_span in E; [|split; simpl; auto].
  destruct E as [c2 [Hk [[_ Hle] [Hge Hs]]]]. cbn [pos] in *.
  destruct (adv && Nat.eqb (pos c2) i) eqn:Ea; [discriminate|].
  injection Hk as ->.
  split; [reflexivity|]. split; [reflexivity|]. split; [exact Hge|]. split; [exact Hle|].
  split; [|exact Hs].
  intros -> Hp. simpl in Ea. apply Nat.eqb_neq in Ea. contradiction.
Qed.

Lemma skipn_nil_length (i : nat) (s : str) : skipn i s = [] -> i <= length s -> i = length s.
Proof.
  intros H Hi. pose proof (length_skipn i s) as Hl. rewrite H in Hl. simpl in Hl. lia.
Qed.

(** The pieces of a scan, put back in order, are the subject. *)
Lemma scan_cover (r : regex) (subj : str) (s : str) :
  forall i pv skip,
    s = skipn i subj -> i <= length subj -> skip <= length s ->
    flat_map piece_source (scan r subj i pv skip s) = skipn skip s.
Proof.
  induction s as [|x s IH]; intros i pv skip Hs Hi Hskip; simpl in Hskip.
  - assert (skip = 0) by lia. subst skip. simpl.
    destruct (match_at r subj i pv [] false) as [m|] eqn:E; [|reflexivity].
    rewrite Hs in E. apply match_at_span in E; [|exact Hi].
    destruct E as [Hsub [Hst [Hge [Hle _]]]].
    symmetry in Hs. apply skipn_nil_length in Hs; [|exact Hi].
    simpl. rewrite Hsub, Hst, app_nil_r. unfold slice.
    replace (m_end m - i) with 0 by lia. reflexivity.
  - symmetry in Hs. destruct (skipn_cons_inv _ _ Hs) as [Hs' Hi'].
    assert (Hlen : length s = length subj - S i).
    { rewrite <- Hs'. apply length_skipn. }
    assert (Hhit : forall adv m, match_at r subj i pv (x :: s) adv = Some m ->
              m_end m <> i ->
              flat_map piece_source
                (Hit m :: scan r subj (S i) (Some x) (m_end m - i - 1) s) = x :: s).
    { intros adv m E Hne. rewrite <- Hs in E. apply match_at_span in E; [|exact Hi].
      destruct E as [Hsub [Hst [Hge [Hle _]]]].
      cbn [flat_map piece_source]. rewrite Hsub, Hst.
      rewrite IH; [|now symmetry|exact Hi'|lia].
      unfold slice. rewrite Hs.
      replace (m_end m - i) with (S (m_end m - i - 1)) at 1 by lia.
      cbn [firstn app]. f_equal. apply firstn_skipn. }
    destruct skip as [|n].
    + cbn [scan skipn].
      destruct (match_at r subj i pv (x :: s) false) as [m|] eqn:E.
      * destruct (Nat.eqb (m_end m) i) eqn:Ee.
        -- apply Nat.eqb_eq in Ee.
           assert (Hm : piece_source (Hit m) = []).
           { rewrite <- Hs in E. apply match_at_span in E; [|exact Hi].
             destruct E as [Hsub [Hst _]]. simpl. rewrite Hsub, Hst, Ee.
             unfold slice. now rewrite Nat.sub_diag. }
           cbn [flat_map]. rewrite Hm. cbn [app].
           destruct (match_at r subj i pv (x :: s) true) as [m'|] eqn:E'.
           ++ apply (Hhit true m' E').
              pose proof E' as E2. rewrite <- Hs in E2.
              apply match_at_span in E2; [|exact Hi].
              destruct E2 as [_ [_ [_ [_ [Hadv _]]]]]. now apply Hadv.
           ++ cbn [flat_map piece_source app]. f_equal.
              rewrite IH; [reflexivity|now symmetry|exact Hi'|lia].
        -- apply Nat.eqb_neq in Ee. apply (Hhit false m E Ee).
      * cbn [flat_map piece_source app]. f_equal.
        rewrite IH; [reflexivity|now symmetry|exact Hi'|lia].
    + cbn [scan skipn]. apply IH; [now symmetry|exact Hi'|lia].
Qed.

Lemma pieces_cover (r : regex) (s : str) : flat_map piece_source (pieces r s) = s.
Proof. unfold pieces. apply (@scan_cover r s s); [reflexivity|lia|lia]. Qed.

(** A pattern that must contain a text the subject lacks matches nowhere. *)
Lemma occurs_any_slice (marks : list str) (i j : nat) (s : str) :
  occurs_any marks (slice i j s) = true -> occurs_any marks s = true.
Proof.
  unfold occurs_any. rewrite !existsb_exists. intros [m [Hm H]].
  exists m. split; [exact Hm | eapply contains_slice; eauto].
Qed.

Lemma match_at_none (r : regex) (subj : str) (lacking : list str) (i : nat)
    (pv : option ascii) (adv : bool) :
  occurs_any lacking subj = false -> must_contain r lacking = true ->
  i <= length subj ->
  match_at r subj i pv (skipn i subj) adv = None.
Proof.
  intros Hno Hmust Hi.
  destruct (match_at r subj i pv (skipn i subj) adv) as [m|] eqn:E; [|reflexivity].
  apply match_at_span in E; [|exact Hi].
  destruct E as [_ [_ [_ [_ [_ Hs]]]]].
  specialize (Hs _ Hmust). apply occurs_any_slice in Hs. congruence.
Qed.

Lemma scan_keep (r : regex) (subj : str) (lacking : list str) (s : str) :
  occurs_any lacking subj = false -> must_contain r lacking = true ->
  forall i pv, s = skipn i subj -> i <= length subj ->
               scan r subj i pv 0 s = map Keep s.
Proof.
  intros Hno Hmust. induction s as [|x s IH]; intros i pv Hs Hi; simpl.
  - rewrite Hs. now rewrite (@match_at_none r subj lacking i pv false Hno Hmust Hi).
  - rewrite Hs. rewrite (@match_at_none r subj lacking i pv false Hno Hmust Hi).
    symmetry in Hs. destruct (skipn_cons_inv _ _ Hs) as [Hs' Hi'].
    f_equal. apply IH; [now symmetry | exact Hi'].
Qed.

Lemma pieces_keep (r : regex) (subj : str) (lacking : list str) :
  occurs_any lacking subj = false -> must_contain r lacking = true ->
  pieces r subj = map Keep subj.
Proof.
  intros Hno Hmust. unfold pieces.
  apply (@scan_keep r subj lacking subj Hno Hmust); [reflexivity | lia].
Qed.

Lemma flat_map_keep (f : matchobj -> str) (s : str) :
  flat_map (piece_text f) (map Keep s) = s.
Proof. induction s as [|x s IH]; simpl; [reflexivity | now rewrite IH]. Qed.

Lemma re_sub_unchanged (r : regex) (t : template) (subj : str) (lacking : list str) :
  occurs_any lacking subj = false -> must_contain r lacking = true ->
  template_ok r t = true -> re_sub r t subj = Ok subj.
Proof.
  intros Hno Hmust Ht. rewrite (re_sub_ok _ _ _ Ht). unfold sub_text.
  rewrite (@pieces_keep r subj lacking Hno Hmust). now rewrite flat_map_keep.
Qed.

Lemma mapR_keep (f : matchobj -> result str) (s : str) :
  mapR (fun p => match p with Keep c => Ok [c] | Hit m => f m end) (map Keep s)
  = Ok (map (fun c => [c]) s).
Proof. induction s as [|x s IH]; simpl; [reflexivity | now rewrite IH]. Qed.

Lemma concat_singletons (s : str) : concat (map (fun c => [c]) s) = s.
Proof. induction s as [|x s IH]; simpl; [reflexivity | now rewrite IH]. Qed.

Lemma re_sub_fn_unchanged (r : regex) (f : matchobj -> result str) (subj : str) (lacking : list str) :
  occurs_any lacking subj = false -> must_contain r lacking = true ->
  re_sub_fn r f subj = Ok subj.
Proof.
  intros Hno Hmust. unfold re_sub_fn.
  rewrite (@pieces_keep r subj lacking Hno Hmust), mapR_keep. simpl.
  now rewrite concat_singletons.
Qed.

Lemma mapM_keep (f : matchobj -> M str) (s : str) (st : renames) :
  mapM (fun p => match p with Keep c => ret [c] | Hit m => f m end) (map Keep s) st
  = Ok (map (fun c => [c]) s, st).
Proof.
  induction s as [|x s IH]; simpl; [reflexivity|].
  unfold bindM, ret in *. now rewrite IH.
Qed.

Lemma re_sub_m_unchanged (r : regex) (f : matchobj -> M str) (subj : str)
    (lacking : list str) (st : renames) :
  occurs_any lacking subj = false -> must_contain r lacking = true ->
  re_sub_m r f subj st = Ok (subj, st).
Proof.
  intros Hno Hmust. unfold re_sub_m, bindM.
  rewrite (@pieces_keep r subj lacking Hno Hmust), mapM_keep. unfold ret.
  now rewrite concat_singletons.
Qed.

Lemma re_findall_none (r : regex) (subj : str) (lacking : list str) :
  occurs_any lacking subj = false -> must_contain r lacking = true ->
  re_findall r subj = [].
Proof.
  intros Hno Hmust. unfold re_findall. rewrite (@pieces_keep r subj lacking Hno Hmust).
  induction subj as [|x s IH]; simpl; auto.
  clear IH Hno. induction s; simpl; auto.
Qed.

Lemma re_search_none (r : regex) (subj : str) (lacking : list str) :
  occurs_any lacking subj = false -> must_contain r lacking = true ->
  re_search r subj = false.
Proof.
  intros Hno Hmust. unfold re_search. rewrite (@pieces_keep r subj lacking Hno Hmust).
  clear. induction subj; simpl; auto.
Qed.

Lemma scan_hits (r : regex) (subj : str) (s : str) :
  forall i pv skip m,
    s = skipn i subj -> i <= length subj ->
    In (Hit m) (scan r subj i pv skip s) ->
    m_subject m = subj /\ m_start m <= m_end m /\ m_end m <= length subj
    /\ forall marks, must_contain r marks = true ->
                     occurs_any marks (piece_source (Hit m)) = true.
Proof.
  assert (Hat : forall i pv s adv m,
             s = skipn i subj -> i <= length subj ->
             match_at r subj i pv s adv = Some m ->
             m_subject m = subj /\ m_start m <= m_end m /\ m_end m <= length subj
             /\ forall marks, must_contain r marks = true ->
                              occurs_any marks (piece_source (Hit m)) = true).
  { intros i pv s0 adv m Hs Hi E. rewrite Hs in E.
    apply match_at_span in E; [|exact Hi].
    destruct E as [Hsub [Hst [Hge [Hle [_ Hm]]]]].
    split; [exact Hsub|]. split; [lia|]. split; [exact Hle|].
    intros marks Hmk. simpl. rewrite Hsub, Hst. now apply Hm. }
  induction s as [|x s IH]; intros i pv skip m Hs Hi H; simpl in H.
  - destruct skip; [|contradiction].
    destruct (match_at r subj i pv [] false) as [m0|] eqn:E; [|contradiction].
    destruct H as [[= <-]|[]]. eapply Hat; eauto.
  - symmetry in Hs. destruct (skipn_cons_inv _ _ Hs) as [Hs' Hi']. symmetry in Hs, Hs'.
    assert (Hrec : forall pv skip, In (Hit m) (scan r subj (S i) pv skip s) ->
              m_subject m = subj /\ m_start m <= m_end m /\ m_end m <= length subj
              /\ forall marks, must_contain r marks = true ->
                               occurs_any marks (piece_source (Hit m)) = true).
    { intros pv' skip' Hin. exact (IH _ _ _ _ Hs' Hi' Hin). }
    destruct skip; [|exact (Hrec _ _ H)].
    destruct (match_at r subj i pv (x :: s) false) as [m0|] eqn:E.
    + destruct (Nat.eqb (m_end m0) i).
      * destruct H as [[= <-]|H]; [exact (Hat _ _ _ _ _ Hs Hi E)|].
        destruct (match_at r subj i pv (x :: s) true) as [m1|] eqn:E'.
        -- destruct H as [[= <-]|H]; [exact (Hat _ _ _ _ _ Hs Hi E') | exact (Hrec _ _ H)].
        -- destruct H as [H|H]; [discriminate | exact (Hrec _ _ H)].
      * destruct H as [[= <-]|H]; [exact (Hat _ _ _ _ _ Hs Hi E) | exact (Hrec _ _ H)].
    + destruct H as [H|H]; [discriminate | exact (Hrec _ _ H)].
Qed.

Lemma pieces_hits (r : regex) (subj : str) (m : matchobj) :
  In (Hit m) (pieces r subj) ->
  m_subject m = subj /\ m_start m <= m_end m /\ m_end m <= length subj
  /\ forall marks, must_contain r marks = true ->
                   occurs_any marks (piece_source (Hit m)) = true.
Proof. intro H. eapply (@scan_hits r subj subj 0); eauto. lia. Qed.

Lemma startswith_refl (s : str) : startswith s s = true.
Proof. rewrite <- (app_nil_r s) at 2. apply startswith_app. Qed.

Lemma contains_refl (s : str) : contains s s = true.
Proof. destruct s; [reflexivity|]. cbn [contains]. now rewrite startswith_refl. Qed.

Lemma contains_startswith_false (p : str) (s : str) :
  contains p s = false -> startswith p s = false.
Proof.
  destruct s; simpl; intro H; apply orb_false_iff in H; tauto.
Qed.

Lemma replace_absent (old new s : str) :
  contains old s = false -> replace old new s = s.
Proof.
  intro H. unfold replace. destruct old as [|o old].
  - destruct s; discriminate.
  - induction s as [|x s IH]; [reflexivity|].
    cbn [replace_from]. rewrite (@contains_startswith_false _ _ H).
    f_equal. apply IH. simpl in H. apply orb_false_iff in H. tauto.
Qed.

Lemma occurs_any_none (marks : list str) (s mark : str) :
  occurs_any marks s = false -> In mark marks -> contains mark s = false.
Proof.
  unfold occurs_any. intros H Hin.
  destruct (contains mark s) eqn:E; [|reflexivity].
  assert (existsb (fun mark => contains mark s) marks = true).
  { apply existsb_exists. eauto. }
  congruence.
Qed.

Lemma occurs_any_incl (marks marks' : list str) (s : str) :
  incl marks' marks -> occurs_any marks s = false -> occurs_any marks' s = false.
Proof.
  intros Hincl H. destruct (occurs_any marks' s) eqn:E; [|reflexivity].
  unfold occurs_any in E. apply existsb_exists in E. destruct E as [m [Hm Hc]].
  rewrite (@occurs_any_none marks s m H (Hincl _ Hm)) in Hc. discriminate.
Qed.

(** ** Passes on text without their marks *)

Ltac keep_sub H :=
  match goal with
  | |- context [re_sub ?r ?t ?s] =>
      rewrite (@re_sub_unchanged r t s _ H eq_refl eq_refl)
  | |- context [re_sub_fn ?r ?f ?s] =>
      rewrite (@re_sub_fn_unchanged r f s _ H eq_refl)
  end; rewrite ?bind_ok.

(** X1: The passes that rewrite decorators, imports, function and class
    headers and array methods return the text as it is when it holds none
    of the words they look for. *)
Theorem header_passes_keep_plain_text (code : str) :
  occurs_any [L "@"; L "import"; L "require("; L "function"; L "=>";
              L "class"; L "constructor"; L ";"] code = false ->
  _extract_decorators code = Ok ([], code)
  /\ _convert_imports code = Ok code
  /\ _convert_functions code = Ok code
  /\ _convert_classes code = Ok code
  /\ _convert_array_methods code = Ok code.
Proof.
  intro H. repeat split.
  - unfold _extract_decorators.
    rewrite (@re_findall_none decorator_pattern code _ H eq_refl).
    keep_sub H. reflexivity.
  - unfold _convert_imports. repeat keep_sub H. reflexivity.
  - unfold _convert_functions. repeat keep_sub H. reflexivity.
  - unfold _convert_classes. repeat keep_sub H. reflexivity.
  - unfold _convert_array_methods. keep_sub H.
    rewrite (replace_absent (L ";") []);
      [|apply (@occurs_any_none _ code (L ";") H); simpl; tauto].
    repeat keep_sub H. reflexivity.
Qed.

Lemma header_passes_keep_plain_text_witness :
  occurs_any [L "@"; L "import"; L "require("; L "function"; L "=>";
              L "class"; L "constructor"; L ";"] (L "x = items[0] + 1") = false
  /\ (_extract_decorators (L "x = items[0] + 1") = Ok ([], L "x = items[0] + 1")
      /\ _convert_imports (L "x = items[0] + 1") = Ok (L "x = items[0] + 1")
      /\ _convert_functions (L "x = items[0] + 1") = Ok (L "x = items[0] + 1")
      /\ _convert_classes (L "x = items[0] + 1") = Ok (L "x = items[0] + 1")
      /\ _convert_array_methods (L "x = items[0] + 1") = Ok (L "x = items[0] + 1")).
Proof.
  split; [reflexivity|].
  apply (header_passes_keep_plain_text (L "x = items[0] + 1")). reflexivity.
Defined.

Ltac keep_sub_m H :=
  match goal with
  | |- context [re_sub_m ?r ?f ?s ?st] =>
      rewrite (@re_sub_m_unchanged r f s _ st H eq_refl)
  end.

(** X2: Without a brace and without a colon the control-structure pass and
    the object pass return the text as it is, and the object pass leaves
    the rename table as it was. *)
Theorem brace_passes_keep_plain_text (code : str) (st : renames) :
  occurs_any [L "{"; L ":"] code = false ->
  _convert_control_structures code = Ok code
  /\ _convert_objects code st = Ok (code, st).
Proof.
  intro H. split.
  - unfold _convert_control_structures. repeat keep_sub H. reflexivity.
  - unfold _convert_objects, bindM. repeat keep_sub_m H. reflexivity.
Qed.

Lemma brace_passes_keep_plain_text_witness :
  occurs_any [L "{"; L ":"] (L "total = a + b") = false
  /\ (_convert_control_structures (L "total = a + b") = Ok (L "total = a + b")
      /\ _convert_objects (L "total = a + b") [(L "max", L "max_var")]
         = Ok (L "total = a + b", [(L "max", L "max_var")])).
Proof.
  split; [reflexivity|].
  apply (brace_passes_keep_plain_text (L "total = a + b")). reflexivity.
Defined.

(** X3: Without a declaration keyword and without [=] the variable pass
    returns the text as it is and leaves the rename table empty, whatever
    it held before. *)
Theorem variable_pass_keeps_plain_text (code : str) (st : renames) :
  occurs_any [L "const"; L "let"; L "var"; L "="] code = false ->
  _convert_variables code st = Ok (code, []).
Proof.
  intro H. unfold _convert_variables, bindM, put_renamed, lift.
  keep_sub H. repeat keep_sub_m H. reflexivity.
Qed.

Lemma variable_pass_keeps_plain_text_witness :
  occurs_any [L "const"; L "let"; L "var"; L "="] (L "return max(a, b)") = false
  /\ _convert_variables (L "return max(a, b)") [(L "sum", L "sum_var")]
     = Ok (L "return max(a, b)", []).
Proof.
  split; [reflexivity|].
  apply (variable_pass_keeps_plain_text (L "return max(a, b)")). reflexivity.
Defined.

(** X4: The operator pass returns the text as it is when it holds none of the
    operators it rewrites and no backtick. *)
Theorem operator_pass_keeps_plain_text (code : str) :
  occurs_any [L "==="; L "!"; L "&&"; L "||"; L "++"; L "--"; [bt]] code = false ->
  _convert_operators code = Ok code.
Proof.
  intro H. unfold _convert_operators.
  assert (Hbang : contains (L "!==") code = false).
  { destruct (contains (L "!==") code) eqn:E; [|reflexivity].
    assert (Hb : contains (L "!") code = false)
      by (apply (@occurs_any_none _ code (L "!") H); simpl; tauto).
    clear H. induction code as [|x code IH]; [discriminate|].
    cbn [contains] in *. apply orb_false_iff in Hb. destruct Hb as [Hb1 Hb2].
    apply orb_true_iff in E. destruct E as [E|E]; [|auto].
    destruct (startswith_prefix _ _ E) as [t Ht]. rewrite Ht in Hb1.
    discriminate Hb1. }
  rewrite (replace_absent (L "===") (L "=="));
    [|apply (@occurs_any_none _ code (L "===") H); simpl; tauto].
  rewrite (replace_absent (L "!==") (L "!=")); [|exact Hbang].
  rewrite (replace_absent (L "&&") (L "and"));
    [|apply (@occurs_any_none _ code (L "&&") H); simpl; tauto].
  rewrite (replace_absent (L "||") (L "or"));
    [|apply (@occurs_any_none _ code (L "||") H); simpl; tauto].
  repeat keep_sub H. reflexivity.
Qed.

Lemma operator_pass_keeps_plain_text_witness :
  occurs_any [L "==="; L "!"; L "&&"; L "||"; L "++"; L "--"; [bt]]
             (L "if a == b and x: i += 1") = false
  /\ _convert_operators (L "if a == b and x: i += 1") = Ok (L "if a == b and x: i += 1").
Proof.
  split; [reflexivity|].
  apply (operator_pass_keeps_plain_text (L "if a == b and x: i += 1")). reflexivity.
Defined.

Lemma foldR_fixed {A B : Type} (f : A -> B -> result A) (a : A) (l : list B) :
  (forall b, In b l -> f a b = Ok a) -> foldR f a l = Ok a.
Proof.
  induction l as [|b l IH]; intro H; simpl; [reflexivity|].
  rewrite (H b (or_introl eq_refl)). simpl. apply IH. intros; apply H; now right.
Qed.

Lemma replace_method_absent (code : str) (entry : str * str) :
  contains (fst entry) code = false -> replace_method code entry = Ok code.
Proof.
  destruct entry as [js py]. simpl. intro H. unfold replace_method.
  destruct (negb _); [|reflexivity].
  apply (@re_sub_unchanged _ _ code [js]); [| |reflexivity].
  - unfold occurs_any. simpl. now rewrite H.
  - unfold method_name, pat, occurs_any. simpl. now rewrite contains_refl.
Qed.

(** X5: The method pass returns the text as it is when it holds no spread, no
    strict comparison and none of the names of the method table. *)
Theorem method_pass_keeps_plain_text (code : str) :
  occurs_any (L "..." :: L "===" :: L "!==" :: map fst method_map) code = false ->
  _convert_common_methods code = Ok code.
Proof.
  intro H. unfold _convert_common_methods.
  do 2 keep_sub H.
  rewrite foldR_fixed; [rewrite bind_ok; repeat keep_sub H; reflexivity|].
  intros entry Hin. apply replace_method_absent.
  apply (@occurs_any_none _ code (fst entry) H).
  do 3 right. now apply in_map.
Qed.

Lemma method_pass_keeps_plain_text_witness :
  occurs_any (L "..." :: L "===" :: L "!==" :: map fst method_map)
             (L "total = a + b") = false
  /\ _convert_common_methods (L "total = a + b") = Ok (L "total = a + b").
Proof.
  split; [reflexivity|].
  apply (method_pass_keeps_plain_text (L "total = a + b")). reflexivity.
Defined.

(** ** Decorators *)

Lemma contains_slice_self (i j : nat) (s : str) : contains (slice i j s) s = true.
Proof.
  unfold slice. rewrite <- (firstn_skipn i s) at 2. apply contains_app_r.
  rewrite <- (firstn_skipn (j - i) (skipn i s)) at 2. apply contains_app_l.
  apply contains_refl.
Qed.

Lemma pieces_lengths (ps : list piece) :
  length (flat_map piece_source ps) =
  length (flat_map (piece_text (expand [])) ps)
  + length (concat (flat_map (fun p => match p with
                                       | Hit m => [slice (m_start m) (m_end m) (m_subject m)]
                                       | Keep _ => []
                                       end) ps)).
Proof.
  induction ps as [|[c|m] ps IH]; simpl; [reflexivity| |].
  - now rewrite IH.
  - rewrite !length_app, IH. unfold expand. simpl. lia.
Qed.

(** X6: [_extract_decorators] splits the code into the decorators and the rest:
    nothing is lost and nothing is added, every decorator returned is a
    part of the code that holds [@], both brackets and the newline that
    ends it; code without [@] is returned whole. *)
Theorem decorators_partition_code (code : str) :
  exists decorators clean_code,
    _extract_decorators code = Ok (decorators, clean_code)
    /\ length code = length clean_code + length (concat decorators)
    /\ (forall d, In d decorators ->
                  contains d code = true /\ contains (L "@") d = true
                  /\ contains (L "(") d = true /\ contains (L ")") d = true
                  /\ contains [nl] d = true)
    /\ (contains (L "@") code = false -> decorators = [] /\ clean_code = code).
Proof.
  unfold _extract_decorators.
  rewrite (re_sub_ok decorator_pattern [] code eq_refl), bind_ok.
  eexists. eexists. split; [reflexivity|]. split; [|split].
  - unfold sub_text, re_findall.
    rewrite <- (pieces_cover decorator_pattern code) at 1. apply pieces_lengths.
  - intros d Hd. unfold re_findall in Hd. apply in_flat_map in Hd.
    destruct Hd as [[c|m] [Hp Hd]]; [contradiction|].
    destruct Hd as [<-|[]].
    destruct (@pieces_hits decorator_pattern code m Hp) as [Hsub [_ [_ Hmarks]]].
    assert (Hone : forall mark, must_contain decorator_pattern [mark] = true ->
                   contains mark (slice (m_start m) (m_end m) (m_subject m)) = true).
    { intros mark Hm. specialize (Hmarks _ Hm). unfold occurs_any in Hmarks.
      simpl in Hmarks. now rewrite orb_false_r in Hmarks. }
    split; [rewrite Hsub; apply contains_slice_self|].
    repeat split; apply Hone; reflexivity.
  - intro H.
    assert (Hno : occurs_any [L "@"] code = false).
    { unfold occurs_any. simpl. now rewrite H. }
    split.
    + apply (@re_findall_none decorator_pattern code _ Hno eq_refl).
    + unfold sub_text. rewrite (@pieces_keep decorator_pattern code _ Hno eq_refl).
      apply flat_map_keep.
Qed.

(** ** Names *)

(** X7: [_safe_var_name] never returns a protected name, and a name it has
    made safe is left alone when it comes back. *)
Theorem safe_name_not_protected (name : str) :
  mem (_safe_var_name name) python_keywords = false
  /\ _safe_var_name (_safe_var_name name) = _safe_var_name name.
Proof.
  assert (Hkw : mem name python_keywords = true ->
                mem (name ++ L "_var") python_keywords = false).
  { intro E. unfold mem in E. apply existsb_exists in E.
    destruct E as [k [Hin Heq]]. apply str_eqb_eq in Heq. subst k.
    unfold python_keywords in Hin. simpl in Hin.
    repeat (destruct Hin as [<-|Hin]; [vm_compute; reflexivity|]).
    contradiction. }
  assert (H : mem (_safe_var_name name) python_keywords = false).
  { unfold _safe_var_name. destruct (mem name python_keywords) eqn:E; auto. }
  split; [exact H|].
  unfold _safe_var_name at 1. now rewrite H.
Qed.

(** ** The rename table *)

Lemma mem_in (x : str) (l : list str) : mem x l = true <-> In x l.
Proof.
  unfold mem. rewrite existsb_exists. split.
  - intros [y [Hy E]]. apply str_eqb_eq in E. now subst.
  - intro H. exists x. split; [exact H | now apply str_eqb_eq].
Qed.

Lemma dict_set_keys (k v : str) (d : list (str * str)) :
  map fst (dict_set k v d) =
  if mem k (map fst d) then map fst d else map fst d ++ [k].
Proof.
  induction d as [|[k' v'] d IH]; simpl; [reflexivity|].
  destruct (str_eqb k k') eqn:E; simpl; [reflexivity|].
  rewrite IH. unfold mem. destruct (existsb (str_eqb k) (map fst d)); reflexivity.
Qed.

Lemma dict_set_entries (P : str * str -> Prop) (k v : str) (d : list (str * str)) :
  Forall P d -> P (k, v) -> Forall P (dict_set k v d).
Proof.
  intros Hd Hkv. induction Hd as [|[k' v'] d Hx Hd IH]; simpl.
  - repeat constructor. exact Hkv.
  - destruct (str_eqb k k') eqn:E.
    + apply str_eqb_eq in E. subst k'. constructor; auto.
    + constructor; auto.
Qed.

Lemma dict_set_ok (name : str) (t : renames) :
  renames_ok t -> mem name python_keywords = true ->
  renames_ok (dict_set name (name ++ L "_var") t).
Proof.
  intros [Hall Hnd] Hkw. split.
  - apply dict_set_entries; [exact Hall|]. simpl. auto.
  - rewrite dict_set_keys. destruct (mem name (map fst t)) eqn:E; [exact Hnd|].
    apply NoDup_app; [exact Hnd | repeat constructor; intros [] |].
    intros x Hx [<-|[]]. apply mem_in in Hx. congruence.
Qed.

Lemma mapM_state {A B : Type} (Inv : renames -> Prop) (f : A -> M B) (l : list A) :
  (forall a st b st', Inv st -> f a st = Ok (b, st') -> Inv st') ->
  forall st bs st', Inv st -> mapM f l st = Ok (bs, st') -> Inv st'.
Proof.
  intro H. induction l as [|a l IH]; intros st bs st' Hst E; simpl in E.
  - unfold ret in E. now injection E as _ <-.
  - apply bindM_inv in E. destruct E as [b [st1 [E1 E]]].
    apply bindM_inv in E. destruct E as [bs' [st2 [E2 E]]].
    unfold ret in E. injection E as _ <-. eauto.
Qed.

Lemma re_sub_m_state (Inv : renames -> Prop) (r : regex) (f : matchobj -> M str) (s : str) :
  (forall m st b st', Inv st -> f m st = Ok (b, st') -> Inv st') ->
  forall st out st', Inv st -> re_sub_m r f s st = Ok (out, st') -> Inv st'.
Proof.
  intros H st out st' Hst E. unfold re_sub_m in E.
  apply bindM_inv in E. destruct E as [parts [st1 [E1 E]]].
  unfold ret in E. injection E as _ <-.
  eapply (mapM_state Inv); [|exact Hst|exact E1].
  intros [c|m] st0 b st0' Hst0 E0.
  - unfold ret in E0. now injection E0 as _ <-.
  - eauto.
Qed.

Lemma _handle_var_declaration_ok (ct : str -> result str) (name : str)
    (type_str : option str) (typed : bool) (st st' : renames) (out : str) :
  renames_ok st -> _handle_var_declaration_with ct name type_str typed st = Ok (out, st') ->
  renames_ok st'.
Proof.
  intros Hst E. unfold _handle_var_declaration_with in E.
  apply bindM_inv in E. destruct E as [u [st1 [E1 E]]].
  assert (H1 : renames_ok st1).
  { unfold _safe_var_name in E1.
    destruct (mem name python_keywords) eqn:Ek.
    - destruct (negb _).
      + unfold bindM, get_renamed, put_renamed in E1. injection E1 as _ <-.
        now apply dict_set_ok.
      + unfold ret in E1. now injection E1 as _ <-.
    - rewrite (proj2 (str_eqb_eq name name) eq_refl) in E1. simpl in E1.
      unfold ret in E1. now injection E1 as _ <-. }
  destruct typed; [|unfold ret in E; now injection E as _ <-].
  destruct type_str as [[|c cs]|]; try (unfold ret in E; now injection E as _ <-).
  apply bindM_inv in E. destruct E as [py [st2 [E2 E]]].
  apply lift_inv in E2. destruct E2 as [_ ->].
  unfold ret in E. now injection E as _ <-.
Qed.

Lemma _convert_variables_ok (ct : str -> result str) (code out : str) (st st' : renames) :
  _convert_variables_with ct code st = Ok (out, st') -> renames_ok st'.
Proof.
  intro E. unfold _convert_variables_with in E.
  apply bindM_inv in E. destruct E as [u [st0 [E0 E]]].
  unfold put_renamed in E0. injection E0 as _ <-.
  apply bindM_inv in E. destruct E as [c1 [st1 [E1 E]]].
  apply lift_inv in E1. destruct E1 as [_ ->].
  apply bindM_inv in E. destruct E as [c2 [st2 [E2 E]]].
  apply bindM_inv in E. destruct E as [c3 [st3 [E3 E]]].
  apply bindM_inv in E. destruct E as [t [st4 [E4 E]]].
  unfold get_renamed in E4. injection E4 as _ <-.
  apply lift_inv in E. destruct E as [_ ->].
  assert (H0 : renames_ok []) by (split; constructor).
  assert (Hstep : forall m st b st',
             renames_ok st ->
             forall ty typed,
             (name <~ lift (group_str m 1) ;;
              _handle_var_declaration_with ct name ty typed) st
               = Ok (b, st') -> renames_ok st').
  { intros m s0 b s0' Hs0 ty typed Em.
    apply bindM_inv in Em. destruct Em as [name [s1 [Em1 Em]]].
    apply lift_inv in Em1. destruct Em1 as [_ ->].
    eapply _handle_var_declaration_ok; eauto. }
  eapply (re_sub_m_state renames_ok); [| |exact E3].
  - intros m s0 b s0' Hs0 Em. exact (Hstep _ _ _ _ Hs0 _ _ Em).
  - eapply (re_sub_m_state renames_ok); [| |exact E2]; [|exact H0].
    intros m s0 b s0' Hs0 Em. exact (Hstep _ _ _ _ Hs0 _ _ Em).
Qed.

Lemma _convert_objects_state (code out : str) (st st' : renames) :
  _convert_objects code st = Ok (out, st') -> st' = st.
Proof.
  intro E. unfold _convert_objects in E.
  assert (Hstep : forall pre m s0 b s0',
             s0 = st ->
             (content <~ lift (group_str m 1) ;;
              d <~ _convert_object_literal content ;; ret (pre ++ d)) s0 = Ok (b, s0') ->
             s0' = st).
  { intros pre m s0 b s0' -> Em.
    apply bindM_inv in Em. destruct Em as [content [s1 [Em1 Em]]].
    apply lift_inv in Em1. destruct Em1 as [_ ->].
    apply bindM_inv in Em. destruct Em as [d [s2 [Em2 Em]]].
    unfold ret in Em. injection Em as _ <-.
    unfold _convert_object_literal in Em2.
    apply bindM_inv in Em2. destruct Em2 as [t [s3 [Em3 Em2]]].
    unfold get_renamed in Em3. injection Em3 as _ <-.
    apply bindM_inv in Em2. destruct Em2 as [ps [s4 [Em4 Em2]]].
    apply lift_inv in Em4. destruct Em4 as [_ ->].
    unfold ret in Em2. now injection Em2 as _ <-. }
  apply bindM_inv in E. destruct E as [c1 [st1 [E1 E]]].
  apply bindM_inv in E. destruct E as [c2 [st2 [E2 E]]].
  unfold ret in E. injection E as _ <-.
  eapply (re_sub_m_state (fun s => s = st)); [| |exact E2].
  - intros m s0 b s0' Hs0 Em. exact (Hstep _ _ _ _ _ Hs0 Em).
  - eapply (re_sub_m_state (fun s => s = st)); [| |exact E1]; [|reflexivity].
    intros m s0 b s0' Hs0 Em. exact (Hstep _ _ _ _ _ Hs0 Em).
Qed.

Lemma convert_with_table (ct : str -> result str) (js_code out : str) (st st' : renames) :
  convert_with ct js_code st = Ok (out, st') -> renames_ok st'.
Proof.
  intro E.
  unfold convert_with in E. apply bindM_inv in E. destruct E as [code [s1 [E1 E]]].
  unfold ret in E. injection E as _ <-.
  unfold translate_with in E1.
  apply bindM_inv in E1. destruct E1 as [[d c0] [s0 [_ E1]]]. cbv beta iota zeta in E1.
  do 4 (apply bindM_inv in E1; destruct E1 as [? [? [_ E1]]]).
  apply bindM_inv in E1. destruct E1 as [c5 [s5 [E5 E1]]].
  apply _convert_variables_ok in E5.
  apply bindM_inv in E1. destruct E1 as [c6 [s6 [E6 E1]]].
  apply lift_inv in E6. destruct E6 as [_ ->].
  apply bindM_inv in E1. destruct E1 as [c7 [s7 [E7 E1]]].
  apply _convert_objects_state in E7. subst s7.
  do 4 (apply bindM_inv in E1; destruct E1 as [? [? [Ex E1]]];
        apply lift_inv in Ex; destruct Ex as [_ ->]).
  unfold ret in E1. now injection E1 as _ <-.
Qed.

(** X8: whenever the variable pass returns, and whenever [convert]
    returns, whatever height of stack they run on, the rename table holds
    only protected names, each bound to itself with [_var] appended, and
    no name twice, whatever the table held when the call began.  (After
    a call that raises, the table may still be the one it found.) *)
Theorem rename_table_holds_protected_names (frames : nat) (code out : str)
    (st st' : renames) :
  _convert_variables_with (_convert_type_rec frames) code st = Ok (out, st')
  \/ convert_in frames code st = Ok (out, st') ->
  renames_ok st'.
Proof.
  intros [E|E].
  - exact (_convert_variables_ok _ _ _ E).
  - exact (convert_with_table _ _ _ E).
Qed.

Lemma rename_table_holds_protected_names_witness :
  (_convert_variables_with (_convert_type_rec 10) (L "const max = 20;")
     [(L "x", L "y")] = Ok (L "max_var = 20;", [(L "max", L "max_var")])
   \/ convert_in 10 (L "const max = 20;") [(L "x", L "y")]
       = Ok (L "max_var = 20;", [(L "max", L "max_var")]))
  /\ renames_ok [(L "max", L "max_var")].
Proof.
  assert (H : _convert_variables_with (_convert_type_rec 10) (L "const max = 20;")
                [(L "x", L "y")] = Ok (L "max_var = 20;", [(L "max", L "max_var")])
              \/ convert_in 10 (L "const max = 20;") [(L "x", L "y")]
                  = Ok (L "max_var = 20;", [(L "max", L "max_var")])).
  { left. vm_compute. reflexivity. }
  split; [exact H|].
  exact (@rename_table_holds_protected_names 10 _ _ _ _ H).
Defined.

(** ** Trimming *)

Lemma dropwhile_parts (p : ascii -> bool) (s : str) :
  exists a, s = a ++ dropwhile p s /\ Forall (fun c => p c = true) a.
Proof.
  induction s as [|x s [a [E Ha]]]; simpl.
  - exists []. split; [reflexivity | constructor].
  - destruct (p x) eqn:Ex.
    + exists (x :: a). split; [simpl; now f_equal | now constructor].
    + exists []. split; [reflexivity | constructor].
Qed.

Lemma dropwhile_head (p : ascii -> bool) (s : str) (x : ascii) (m : str) :
  dropwhile p s = x :: m -> p x = false.
Proof.
  induction s as [|y s IH]; simpl; [discriminate|].
  destruct (p y) eqn:Ey; [exact IH|]. now intros [= <- _].
Qed.

Lemma dropwhile_pad (p : ascii -> bool) (a s : str) :
  Forall (fun c => p c = true) a -> dropwhile p (a ++ s) = dropwhile p s.
Proof. induction 1 as [|x a Hx _ IH]; simpl; [reflexivity|]. now rewrite Hx. Qed.

Lemma dropwhile_all (p : ascii -> bool) (a : str) :
  Forall (fun c => p c = true) a -> dropwhile p a = [].
Proof. induction 1 as [|x a Hx _ IH]; simpl; [reflexivity|]. now rewrite Hx. Qed.

Lemma dropwhile_stop (p : ascii -> bool) (x : ascii) (s : str) :
  p x = false -> dropwhile p (x :: s) = x :: s.
Proof. intro H. simpl. now rewrite H. Qed.

Lemma blank_rev (s : str) : blank s -> blank (rev s).
Proof. apply Forall_rev. Qed.

Lemma strip_parts (s : str) :
  exists a b, s = a ++ strip s ++ b /\ blank a /\ blank b.
Proof.
  unfold strip, lstrip, rstrip.
  destruct (dropwhile_parts isspace (rev s)) as [b' [Eb Hb]].
  destruct (dropwhile_parts isspace (rev (dropwhile isspace (rev s)))) as [a [Ea Ha]].
  exists a, (rev b'). split; [|split; [exact Ha | now apply blank_rev]].
  rewrite app_assoc, <- Ea, <- rev_app_distr, <- Eb. now rewrite rev_involutive.
Qed.

Lemma contains_strip (p s : str) : contains p (strip s) = true -> contains p s = true.
Proof.
  intro H. destruct (strip_parts s) as [a [b [E _]]]. rewrite E.
  apply contains_app_r, contains_app_l, H.
Qed.

Lemma contains_strip_false (p s : str) : contains p s = false -> contains p (strip s) = false.
Proof.
  intro H. destruct (contains p (strip s)) eqn:E; [|reflexivity].
  apply contains_strip in E. congruence.
Qed.

Lemma trimmed_ends (u : str) (x : ascii) (m : str) :
  u = x :: m -> trimmed u = true ->
  isspace x = false /\ exists m' y, u = m' ++ [y] /\ isspace y = false.
Proof.
  intros -> H. unfold trimmed in H. apply andb_true_iff in H. destruct H as [H1 H2].
  apply negb_true_iff in H1, H2. split; [exact H1|].
  destruct (@exists_last _ (x :: m)) as [m' [y E]]; [discriminate|].
  exists m', y. split; [exact E|]. rewrite E in H2. now rewrite last_last in H2.
Qed.

Lemma strip_trimmed (s : str) : trimmed (strip s) = true.
Proof.
  destruct (strip s) as [|x m] eqn:Eu; [reflexivity|].
  unfold trimmed. apply andb_true_iff.
  assert (Hx : isspace x = false).
  { unfold strip, lstrip in Eu. now apply dropwhile_head in Eu. }
  split; [now rewrite Hx|]. apply negb_true_iff.
  unfold strip, lstrip, rstrip in Eu.
  destruct (dropwhile isspace (rev s)) as [|y d] eqn:Ed; [discriminate|].
  apply dropwhile_head in Ed.
  destruct (dropwhile_parts isspace (rev (y :: d))) as [a [Ea _]].
  rewrite Eu in Ea. simpl in Ea.
  destruct (@exists_last _ (x :: m)) as [m' [z E]]; [discriminate|].
  rewrite E, last_last. rewrite E, app_assoc in Ea.
  apply app_inj_tail in Ea. destruct Ea as [_ <-]. exact Ed.
Qed.

Lemma rstrip_pad (w : str) (y : ascii) (b : str) :
  isspace y = false -> blank b -> rstrip (w ++ [y] ++ b) = w ++ [y].
Proof.
  intros Hy Hb. unfold rstrip.
  rewrite app_assoc, rev_app_distr, (@dropwhile_pad isspace (rev b) _ (blank_rev Hb)).
  rewrite rev_app_distr. cbn [rev app]. rewrite (@dropwhile_stop isspace y _ Hy).
  change (y :: rev w) with ([y] ++ rev w).
  rewrite rev_app_distr, rev_involutive. reflexivity.
Qed.

Lemma lstrip_pad (a : str) (x : ascii) (m : str) :
  blank a -> isspace x = false -> lstrip (a ++ x :: m) = x :: m.
Proof.
  intros Ha Hx. unfold lstrip. rewrite (@dropwhile_pad isspace a _ Ha). now apply dropwhile_stop.
Qed.

Lemma strip_pad (a u b : str) :
  trimmed u = true -> blank a -> blank b -> strip (a ++ u ++ b) = u.
Proof.
  intros Hu Ha Hb. unfold strip.
  destruct u as [|x m] eqn:Eu.
  - unfold lstrip, rstrip. simpl.
    rewrite (@dropwhile_all isspace (rev (a ++ b))); [reflexivity|].
    apply blank_rev. apply Forall_app. now split.
  - destruct (trimmed_ends eq_refl Hu) as [Hx [m' [y [E Hy]]]].
    rewrite E, <- (app_assoc m'), (app_assoc a), (@rstrip_pad _ y b Hy Hb).
    rewrite <- app_assoc, <- E. now apply lstrip_pad.
Qed.

Lemma strip_strip (s : str) : strip (strip s) = strip s.
Proof.
  rewrite <- (app_nil_r (strip s)) at 1.
  apply (@strip_pad [] (strip s) []); [apply strip_trimmed | constructor | constructor].
Qed.

Lemma strip_blank (s : str) : blank s -> strip s = [].
Proof.
  intro H. rewrite <- (app_nil_r s).
  apply (@strip_pad s [] []); [reflexivity | exact H | constructor].
Qed.

Lemma blank_indent (k : nat) : blank (concat (repeat (L "    ") k)).
Proof.
  apply all_concat_repeat. repeat constructor.
Qed.

Lemma strip_indented (k : nat) (s : str) :
  strip (concat (repeat (L "    ") k) ++ strip s) = strip s.
Proof.
  rewrite <- (app_nil_r (strip s)) at 1.
  apply strip_pad; [apply strip_trimmed | apply blank_indent | constructor].
Qed.

(** ** Lines *)

Lemma split_no_sep (sep : ascii) (s : str) : ~ In sep s -> split sep s = [s].
Proof.
  induction s as [|x s IH]; simpl; intro H; [reflexivity|].
  destruct (chr_eqb x sep) eqn:E.
  - apply chr_eqb_eq in E. subst. tauto.
  - rewrite IH; [reflexivity | tauto].
Qed.

Lemma split_pieces_no_sep (sep : ascii) (s : str) :
  Forall (fun p => ~ In sep p) (split sep s).
Proof.
  induction s as [|x s IH]; simpl; [repeat constructor; tauto|].
  destruct (chr_eqb x sep) eqn:E; [constructor; [tauto | exact IH]|].
  destruct (split sep s) as [|w ws]; [repeat constructor; simpl|].
  - intros [->|[]]. apply chr_eqb_neq in E. tauto.
  - inversion IH as [|? ? Hw Hws]; subst. constructor; [|exact Hws].
    simpl. intros [->|H]; [apply chr_eqb_neq in E; tauto | tauto].
Qed.

Lemma split_app_sep (sep : ascii) (a b : str) :
  ~ In sep a -> split sep (a ++ sep :: b) = a :: split sep b.
Proof.
  induction a as [|x a IH]; simpl; intro H.
  - now rewrite (proj2 (chr_eqb_eq sep sep) eq_refl).
  - destruct (chr_eqb x sep) eqn:E.
    + apply chr_eqb_eq in E. subst. tauto.
    + rewrite IH; [reflexivity | tauto].
Qed.

Lemma split_join (sep : ascii) (parts : list str) :
  parts <> [] -> Forall (fun p => ~ In sep p) parts ->
  split sep (join [sep] parts) = parts.
Proof.
  induction parts as [|p ps IH]; intros Hne H; [congruence|].
  inversion H as [|? ? Hp Hps]; subst.
  destruct ps as [|q ps].
  - simpl. now apply split_no_sep.
  - change (join [sep] (p :: q :: ps)) with (p ++ sep :: join [sep] (q :: ps)).
    rewrite split_app_sep; [|exact Hp]. f_equal. apply IH; [discriminate | exact Hps].
Qed.

Lemma join_split (sep : ascii) (s : str) : join [sep] (split sep s) = s.
Proof.
  induction s as [|x s IH]; simpl; [reflexivity|].
  destruct (chr_eqb x sep) eqn:E.
  - apply chr_eqb_eq in E. subst x.
    destruct (split sep s) as [|w ws] eqn:Es; [now apply split_nonempty in Es|].
    change (join [sep] ([] :: w :: ws)) with ([] ++ [sep] ++ join [sep] (w :: ws)).
    now rewrite IH.
  - destruct (split sep s) as [|w ws] eqn:Es; [now apply split_nonempty in Es|].
    destruct ws as [|w' ws]; simpl in *; now rewrite <- IH.
Qed.

(** ** The whole conversion on text without any mark *)

Lemma startswith_longer (p q s : str) : startswith (p ++ q) s = true -> startswith p s = true.
Proof.
  revert s. induction p as [|a p IH]; intros s H; [reflexivity|].
  destruct s as [|b s]; [discriminate|]. simpl in *.
  apply andb_true_iff in H. destruct H as [H1 H2]. rewrite H1. simpl. now apply IH.
Qed.

Lemma contains_longer (p q s : str) : contains p s = false -> contains (p ++ q) s = false.
Proof.
  intro H. destruct (contains (p ++ q) s) eqn:E; [|reflexivity].
  assert (Hc : contains p s = true); [|congruence]. clear H.
  induction s as [|x s IH]; cbn [contains] in *.
  - rewrite orb_false_r in *. now apply startswith_longer in E.
  - apply orb_true_iff in E. destruct E as [E|E].
    + apply startswith_longer in E. now rewrite E.
    + rewrite (IH E). apply orb_true_r.
Qed.

Lemma occurs_any_strip (marks : list str) (s : str) :
  occurs_any marks s = false -> occurs_any marks (strip s) = false.
Proof.
  intro H. destruct (occurs_any marks (strip s)) eqn:E; [|reflexivity].
  unfold occurs_any in E. apply existsb_exists in E. destruct E as [m [Hm Hc]].
  apply contains_strip in Hc. rewrite (@occurs_any_none marks s m H Hm) in Hc. discriminate.
Qed.

Lemma strip_braces_plain (line : str) :
  contains (L "{") line = false -> contains (L "}") line = false ->
  strip_braces line = [line].
Proof.
  intros Ho Hc. unfold strip_braces. rewrite Ho, !andb_false_r. cbn [orb].
  assert (E1 : str_eqb (strip line) (L "{") = false).
  { destruct (str_eqb (strip line) (L "{")) eqn:E; [|reflexivity].
    apply str_eqb_eq in E. apply contains_strip_false in Ho. rewrite E in Ho. discriminate. }
  assert (E2 : str_eqb (strip line) (L "}") = false).
  { destruct (str_eqb (strip line) (L "}")) eqn:E; [|reflexivity].
    apply str_eqb_eq in E. apply contains_strip_false in Hc. rewrite E in Hc. discriminate. }
  rewrite E1, E2. cbn [orb].
  rewrite (@replace_absent (L "{") [] line Ho), (@replace_absent (L "}") [] line Hc). reflexivity.
Qed.

Lemma indent_loop_single (line : str) :
  contains (L "__INDENT__") line = false ->
  cleaned_lines (indent_loop [line]) = [strip line].
Proof.
  intro H. apply contains_strip_false in H.
  unfold indent_loop. cbn [fold_left]. unfold indent_step.
  destruct (strip line) as [|x m] eqn:E; [reflexivity|].
  rewrite H. unfold dedent, indent_start. cbn [indent_level cleaned_lines].
  destruct (starts_branch (x :: m)); reflexivity.
Qed.

Lemma marks_no_newline (code : str) :
  occurs_any converter_marks code = false -> ~ In nl code.
Proof.
  intros H Hin. apply contains_chr in Hin.
  rewrite (@occurs_any_none _ code [nl] H) in Hin; [discriminate|].
  unfold converter_marks. apply in_or_app. left. simpl. tauto.
Qed.

Ltac no_mark H m :=
  apply (@occurs_any_none _ _ m H); unfold converter_marks; apply in_or_app; left;
  simpl; tauto.

(** X9: A text that holds none of the words and signs the passes look for, no
    brace, colon, semicolon or newline among them, goes through [convert]
    unchanged but for the white space around it, which is removed, and the
    import lines its own words ask for; the rename table comes out
    empty. *)
Theorem plain_text_is_only_trimmed (code : str) (st : renames) :
  occurs_any converter_marks code = false ->
  convert code st = Ok (with_imports (strip code), []).
Proof.
  intro H.
  assert (Hnl := @marks_no_newline _ H).
  assert (E0 : _extract_decorators code = Ok ([], code)).
  { unfold _extract_decorators.
    rewrite (@re_findall_none decorator_pattern code _ H eq_refl).
    keep_sub H. reflexivity. }
  assert (E1 : _convert_imports code = Ok code).
  { unfold _convert_imports. repeat keep_sub H. reflexivity. }
  assert (E2 : _convert_functions code = Ok code).
  { unfold _convert_functions. repeat keep_sub H. reflexivity. }
  assert (E3 : _convert_classes code = Ok code).
  { unfold _convert_classes. repeat keep_sub H. reflexivity. }
  assert (E4 : _convert_array_methods code = Ok code).
  { unfold _convert_array_methods. keep_sub H.
    rewrite (replace_absent (L ";") []); [|no_mark H (L ";")].
    repeat keep_sub H. reflexivity. }
  assert (E5 : _convert_variables code st = Ok (code, [])).
  { unfold _convert_variables, bindM, put_renamed, lift.
    keep_sub H. repeat keep_sub_m H. reflexivity. }
  assert (E6 : _convert_control_structures code = Ok code).
  { unfold _convert_control_structures. repeat keep_sub H. reflexivity. }
  assert (E7 : _convert_objects code [] = Ok (code, [])).
  { unfold _convert_objects, bindM. repeat keep_sub_m H. reflexivity. }
  assert (E8 : _convert_common_methods code = Ok code).
  { unfold _convert_common_methods. do 2 keep_sub H.
    rewrite foldR_fixed; [rewrite bind_ok; repeat keep_sub H; reflexivity|].
    intros entry Hin. apply replace_method_absent.
    apply (@occurs_any_none _ code (fst entry) H).
    unfold converter_marks. apply in_or_app. right. now apply in_map. }
  assert (E9 : _convert_operators code = Ok code).
  { unfold _convert_operators.
    rewrite (replace_absent (L "===") (L "=="));
      [|apply (contains_longer (L "=") (L "==")); no_mark H (L "=")].
    rewrite (replace_absent (L "!==") (L "!="));
      [|apply (contains_longer (L "!") (L "==")); no_mark H (L "!")].
    rewrite (replace_absent (L "&&") (L "and")); [|no_mark H (L "&&")].
    rewrite (replace_absent (L "||") (L "or")); [|no_mark H (L "||")].
    repeat keep_sub H. reflexivity. }
  assert (E10 : _cleanup_code code = Ok (strip code)).
  { unfold _cleanup_code. keep_sub H.
    rewrite (@split_no_sep nl code Hnl). cbn [flat_map].
    rewrite strip_braces_plain; [|no_mark H (L "{") | no_mark H (L "}")].
    cbn [app join].
    rewrite (replace_absent (L ";") []); [|no_mark H (L ";")].
    keep_sub H. rewrite (@split_no_sep nl code Hnl).
    rewrite indent_loop_single; [reflexivity | no_mark H (L "__INDENT__")]. }
  assert (E11 : _post_process (strip code) = Ok (strip code)).
  { assert (H' := @occurs_any_strip _ _ H).
    unfold _post_process. repeat keep_sub H'.
    rewrite (@split_no_sep nl (strip code) (@marks_no_newline _ H')). reflexivity. }
  unfold convert, translate, bindM, lift.
  rewrite E0. cbv beta iota zeta. rewrite E1, E2, E3, E4, E5, E6, E7, E8, E9, E10, E11.
  reflexivity.
Qed.

Lemma plain_text_is_only_trimmed_witness :
  occurs_any converter_marks (L "  foo(a, b) + 1 ") = false
  /\ convert (L "  foo(a, b) + 1 ") [(L "max", L "max_var")]
     = Ok (with_imports (strip (L "  foo(a, b) + 1 ")), []).
Proof.
  split; [vm_compute; reflexivity|].
  apply (plain_text_is_only_trimmed (L "  foo(a, b) + 1 ")). vm_compute. reflexivity.
Defined.

(** ** Occurrences and separators *)

Lemma startswith_sep (p a b : str) (c : ascii) :
  ~ In c p -> startswith p (a ++ c :: b) = startswith p a.
Proof.
  revert a. induction p as [|x p IH]; intros a H; [reflexivity|].
  destruct a as [|y a]; simpl.
  - assert (E : chr_eqb x c = false) by (apply chr_eqb_neq; intros ->; apply H; now left).
    now rewrite E.
  - rewrite IH; [reflexivity|]. intro Hin. apply H. now right.
Qed.

Lemma contains_sep (p a b : str) (c : ascii) :
  p <> [] -> ~ In c p -> contains p (a ++ c :: b) = contains p a || contains p b.
Proof.
  intros Hne H. induction a as [|y a IH].
  - pose proof (startswith_sep p [] b c H) as Hs. cbn [app] in Hs.
    cbn [app contains]. rewrite Hs.
    destruct p; [congruence | reflexivity].
  - change ((y :: a) ++ c :: b) with (y :: (a ++ c :: b)). cbn [contains].
    rewrite IH. change (y :: a ++ c :: b) with ((y :: a) ++ c :: b).
    rewrite (startswith_sep p (y :: a) b c H). now rewrite orb_assoc.
Qed.

Lemma contains_join (p : str) (c : ascii) (parts : list str) :
  p <> [] -> ~ In c p ->
  contains p (join [c] parts) = existsb (contains p) parts.
Proof.
  intros Hne H. induction parts as [|l ls IH].
  - destruct p; [congruence | reflexivity].
  - destruct ls as [|l' ls].
    + cbn [join existsb]. now rewrite orb_false_r.
    + change (join [c] (l :: l' :: ls)) with (l ++ c :: join [c] (l' :: ls)).
      rewrite (@contains_sep p l _ c Hne H), IH. reflexivity.
Qed.

Lemma contains_after_blank (p a t : str) :
  p <> [] -> (forall c, In c a -> ~ In c p) -> contains p (a ++ t) = contains p t.
Proof.
  intros Hne H. induction a as [|x a IH]; [reflexivity|].
  change ((x :: a) ++ t) with ([] ++ x :: (a ++ t)).
  rewrite (@contains_sep p [] (a ++ t) x Hne (H x (or_introl eq_refl))).
  rewrite IH; [|intros c Hc; apply H; now right].
  destruct p; [congruence | reflexivity].
Qed.

Lemma in_indent (k : nat) (c : ascii) :
  In c (concat (repeat (L "    ") k)) -> c = " "%char.
Proof.
  induction k as [|k IH]; simpl; [tauto|].
  intros [H|[H|[H|[H|H]]]]; auto.
Qed.

(** ** The lines written by the cleanup pass *)

Lemma indent_step_lines (st : indent_state) (line : str) :
  ~ In nl line ->
  Forall (fun l => indented_line l /\ ~ In nl l) (cleaned_lines st) ->
  Forall (fun l => indented_line l /\ ~ In nl l) (cleaned_lines (indent_step st line)).
Proof.
  intros Hnl H. unfold indent_step.
  destruct (strip line) as [|x m] eqn:E.
  - cbn [cleaned_lines]. apply Forall_app. split; [exact H|].
    constructor; [split; [now left | simpl; tauto] | constructor].
  - cbv beta iota zeta.
    destruct (contains (L "__INDENT__") (x :: m)) eqn:Ec; [exact H|].
    cbn [cleaned_lines]. apply Forall_app. split; [exact H|].
    constructor; [|constructor]. split.
    + right. exists (Z.to_nat (dedent (indent_level st) (x :: m))), (x :: m).
      split; [reflexivity|]. split; [discriminate|]. split; [|exact Ec].
      rewrite <- E. apply strip_trimmed.
    + intro Hin. apply in_app_or in Hin. destruct Hin as [Hin|Hin].
      * apply in_indent in Hin. discriminate.
      * assert (Hs : Forall (fun c => c <> nl) (strip line)).
        { apply all_strip. apply Forall_forall. intros c Hc ->. tauto. }
        rewrite E in Hs. rewrite Forall_forall in Hs. now apply (Hs nl).
Qed.

Lemma indent_fold_lines (lines : list str) :
  forall st, Forall (fun l => ~ In nl l) lines ->
             Forall (fun l => indented_line l /\ ~ In nl l) (cleaned_lines st) ->
             Forall (fun l => indented_line l /\ ~ In nl l)
                    (cleaned_lines (fold_left indent_step lines st)).
Proof.
  induction lines as [|l ls IH]; intros st Hl H; simpl; [exact H|].
  inversion Hl; subst. apply IH; [assumption|]. now apply indent_step_lines.
Qed.

Lemma indented_line_placeholder (l : str) :
  indented_line l -> contains (L "__INDENT__") l = false.
Proof.
  intros [->|[k [t [-> [_ [_ H]]]]]]; [reflexivity|].
  rewrite (@contains_after_blank (L "__INDENT__")); [exact H | discriminate|].
  intros c Hc. apply in_indent in Hc. subst c. cbv [L list_ascii_of_string In].
  intuition discriminate.
Qed.

(** X10: Every line of the text [_cleanup_code] returns is empty or is indented
    by a whole number of four-space steps, with no white space after the
    indentation or at the end of the line; the placeholder [__INDENT__]
    that the function pass writes is gone. *)
Theorem cleanup_lines_are_indented (code : str) :
  exists out, _cleanup_code code = Ok out
              /\ Forall indented_line (split nl out)
              /\ contains (L "__INDENT__") out = false.
Proof.
  destruct (_cleanup_code_returns code) as [out E]. exists out. split; [exact E|].
  unfold _cleanup_code in E.
  apply bind_inv in E. destruct E as [c1 [_ E]].
  apply bind_inv in E. destruct E as [c2 [_ E]].
  injection E as <-.
  set (lines := split nl c2).
  assert (H : Forall (fun l => indented_line l /\ ~ In nl l)
                     (cleaned_lines (indent_loop lines))).
  { apply indent_fold_lines; [apply split_pieces_no_sep | constructor]. }
  destruct (cleaned_lines (indent_loop lines)) as [|l ls] eqn:El.
  - split; [|reflexivity]. constructor; [now left | constructor].
  - split.
    + rewrite split_join; [| discriminate |].
      * eapply Forall_impl; [|exact H]. intros a [Ha _]. exact Ha.
      * eapply Forall_impl; [|exact H]. intros a [_ Ha]. exact Ha.
    + rewrite (@contains_join (L "__INDENT__") nl); [| discriminate |].
      * apply not_true_is_false. intro Hex. apply existsb_exists in Hex.
        destruct Hex as [l0 [Hin Hc]]. rewrite Forall_forall in H.
        destruct (H l0 Hin) as [Hl _].
        rewrite (@indented_line_placeholder l0 Hl) in Hc. discriminate.
      * cbv [L list_ascii_of_string In nl]. intuition discriminate.
Qed.

(** ** The indentation repair of the debugging script *)

Lemma next_level_spec (stripped : str) (rest : list str) (level : Z) :
  next_level stripped rest level
  = if endswith (L ":") stripped then (level + 1)%Z else level.
Proof.
  unfold next_level. destruct (endswith _ _); [reflexivity|].
  destruct rest; [reflexivity|]. now destruct (_ && _).
Qed.

Lemma fix_lines_strip (lines : list str) :
  forall level, map strip (fix_lines lines level) = map strip lines.
Proof.
  induction lines as [|line rest IH]; intro level; [reflexivity|].
  cbn [fix_lines]. cbv zeta.
  destruct (strip line) as [|x m] eqn:E; cbn [map]; rewrite IH, <- E.
  - rewrite E. reflexivity.
  - now rewrite strip_indented.
Qed.

Lemma fix_lines_fixed (lines : list str) :
  forall level, fix_lines (fix_lines lines level) level = fix_lines lines level.
Proof.
  induction lines as [|line rest IH]; intro level; [reflexivity|].
  cbn [fix_lines]. cbv zeta.
  destruct (strip line) as [|x m] eqn:E.
  - cbn [fix_lines]. change (strip []) with (@nil ascii). cbv iota beta. now rewrite IH.
  - cbn [fix_lines]. cbv zeta. rewrite <- E, strip_indented, E. rewrite !next_level_spec.
    now rewrite IH.
Qed.

Lemma fix_lines_no_newline (lines : list str) :
  forall level, Forall (fun l => ~ In nl l) lines ->
                Forall (fun l => ~ In nl l) (fix_lines lines level).
Proof.
  induction lines as [|line rest IH]; intros level H; [constructor|].
  inversion H as [|? ? Hl Hr]; subst.
  cbn [fix_lines]. cbv zeta.
  destruct (strip line) as [|x m] eqn:E.
  - constructor; [simpl; tauto | now apply IH].
  - constructor; [|now apply IH].
    intro Hin. apply in_app_or in Hin. destruct Hin as [Hin|Hin].
    + apply in_indent in Hin. discriminate.
    + assert (Hs : Forall (fun c => c <> nl) (strip line)).
      { apply all_strip. apply Forall_forall. intros c Hc ->. tauto. }
      rewrite E in Hs. rewrite Forall_forall in Hs. now apply (Hs nl).
Qed.

Lemma fix_lines_split (code : str) (level : Z) :
  split nl (join [nl] (fix_lines (split nl code) level)) = fix_lines (split nl code) level.
Proof.
  apply split_join.
  - destruct (split nl code) as [|l ls] eqn:E; [now apply split_nonempty in E|].
    cbn [fix_lines]. cbv zeta. destruct (strip l); discriminate.
  - apply fix_lines_no_newline, split_pieces_no_sep.
Qed.

(** X11: [fix_indentation] changes nothing but the white space at the two ends
    of each line: the lines of its result, trimmed, are the lines of its
    argument, trimmed, one for one. *)
Theorem fix_indentation_keeps_trimmed_lines (python_code : str) :
  map strip (split nl (fix_indentation python_code)) = map strip (split nl python_code).
Proof.
  unfold fix_indentation. rewrite fix_lines_split. apply fix_lines_strip.
Qed.

(** X12: [fix_indentation] applied to its own result returns it unchanged. *)
Theorem fix_indentation_idempotent (python_code : str) :
  fix_indentation (fix_indentation python_code) = fix_indentation python_code.
Proof.
  unfold fix_indentation. rewrite fix_lines_split. now rewrite fix_lines_fixed.
Qed.

(** ** The deployer *)

Lemma count_at_least (f : str -> bool) (present all : list str) :
  NoDup present -> incl present all -> (forall i, In i present -> f i = true) ->
  length present <= length (filter f all).
Proof.
  intros Hnd Hincl Hf. apply NoDup_incl_length; [exact Hnd|].
  intros i Hi. apply filter_In. split; [now apply Hincl | now apply Hf].
Qed.

Lemma contains_shorter (p q s : str) : contains (p ++ q) s = true -> contains p s = true.
Proof.
  intro H. destruct (contains p s) eqn:E; [reflexivity|].
  rewrite (contains_longer p q s E) in H. discriminate.
Qed.

Lemma length_filter (f : str -> bool) (l : list str) :
  length (filter f l) = list_sum (map (fun i => if f i then 1 else 0) l).
Proof.
  induction l as [|x l IH]; simpl; [reflexivity|].
  destruct (f x); simpl; now rewrite IH.
Qed.

Lemma indicator_follows (p q code : str) :
  (if contains (p ++ q) code then 1 else 0) <= (if contains p code then 1 else 0).
Proof.
  destruct (contains (p ++ q) code) eqn:E; [|lia].
  now rewrite (contains_shorter p q code E).
Qed.

Ltac in_list := repeat (first [left; reflexivity | right]).

(** X13: [detect_language] answers [javascript] only for a text that holds a
    JavaScript indicator other than [===] and [!==]: each of these two
    brings a Python indicator with it ([==], [!=]) and so never tips the
    count, and the four type annotations make the answer [typescript]. *)
Theorem javascript_needs_a_decisive_indicator (code : str) :
  detect_language code = "javascript"%string ->
  occurs_any decisive_js_indicators code = true.
Proof.
  intro H. destruct (occurs_any decisive_js_indicators code) eqn:E; [reflexivity|].
  exfalso. unfold detect_language in H.
  destruct (existsb _ ts_markers) eqn:Ets; [discriminate|].
  assert (Hd : forall i, In i decisive_js_indicators -> contains i code = false).
  { intros i Hi. exact (occurs_any_none decisive_js_indicators code i E Hi). }
  assert (Ht : forall i, In i ts_markers -> contains i code = false).
  { intros i Hi. exact (occurs_any_none ts_markers code i Ets Hi). }
  assert (Hle : count_indicators js_indicators code
                <= count_indicators python_indicators code).
  { unfold count_indicators. rewrite !length_filter.
    unfold js_indicators, python_indicators. cbn [map list_sum].
    repeat match goal with
           | |- context [contains ?i code] =>
               first [ rewrite (Hd i) by (unfold decisive_js_indicators; in_list)
                     | rewrite (Ht i) by (unfold ts_markers; in_list) ]
           end.
    cbv iota. unfold list_sum. cbn [fold_right].
    pose proof (indicator_follows (L "==") (L "=") code) as T1.
    pose proof (indicator_follows (L "!=") (L "=") code) as T2.
    change (L "==" ++ L "=") with (L "===") in T1.
    change (L "!=" ++ L "=") with (L "!==") in T2.
    revert T1 T2.
    repeat match goal with
           | |- context [if ?c then 1 else 0] => generalize (if c then 1 else 0); intro
           end.
    lia. }
  destruct (Nat.ltb_spec (count_indicators python_indicators code)
                         (count_indicators js_indicators code)) as [Hlt|Hge];
    [lia | discriminate H].
Qed.

Lemma javascript_needs_a_decisive_indicator_witness :
  detect_language (L "const x = a && b;") = "javascript"%string
  /\ occurs_any decisive_js_indicators (L "const x = a && b;") = true.
Proof.
  split; [vm_compute; reflexivity|].
  apply (javascript_needs_a_decisive_indicator (L "const x = a && b;")).
  vm_compute. reflexivity.
Defined.


(** ** The import lines do not call for further imports *)

Lemma contains_header (p header code : str) :
  p <> [] -> ~ In nl p ->
  contains p (header ++ [nl; nl] ++ code) = contains p header || contains p code.
Proof.
  intros Hne H.
  change (header ++ [nl; nl] ++ code) with (header ++ nl :: ([] ++ nl :: code)).
  rewrite (@contains_sep p header _ nl Hne H), (@contains_sep p [] code nl Hne H).
  destruct p; [congruence | reflexivity].
Qed.

Ltac each_import_line :=
  unfold import_lines;
  repeat match goal with
         | |- context [if ?c then [_] else []] => destruct c
         end;
  vm_compute; reflexivity.

Lemma imports_hold_no_trigger (code p : str) :
  In p [L "List["; L "Dict["; L "Union["; L "Optional["; L "Awaitable[";
        L "async def"; L "await"; L "math."; L "random."; L "json.";
        L "functools.reduce"] ->
  existsb (contains p) (import_lines code) = false.
Proof.
  intro H. cbv [In] in H.
  repeat (destruct H as [<-|H]; [each_import_line|]). contradiction.
Qed.

Lemma imports_hold_Any (code : str) :
  existsb (contains (L "Any")) (import_lines code)
  = existsb (fun hint => contains hint code) typing_hints.
Proof.
  unfold import_lines. destruct (existsb _ typing_hints).
  - repeat match goal with
           | |- context [if ?c then [_] else []] => destruct c
           end; vm_compute; reflexivity.
  - repeat match goal with
           | |- context [if ?c then [_] else []] => destruct c
           end; vm_compute; reflexivity.
Qed.

Ltac plain_trigger :=
  try discriminate;
  try (cbv [In nl L list_ascii_of_string]; intuition discriminate).

(** X15: The import lines put in front of the text are exactly those the
    finished text asks for: [_generate_imports] run on the output of
    [convert] would list the same lines again, no less and no more. *)
Theorem imports_are_stable (code : str) :
  import_lines (with_imports code) = import_lines code.
Proof.
  rewrite with_imports_spec.
  destruct (import_lines code) as [|l ls] eqn:El; [exact El|].
  rewrite <- El.
  assert (Hp : forall p, In p [L "List["; L "Dict["; L "Union["; L "Optional[";
                               L "Awaitable["; L "async def"; L "await"; L "math.";
                               L "random."; L "json."; L "functools.reduce"] ->
               contains p (join [nl] (import_lines code) ++ [nl; nl] ++ code)
               = contains p code).
  { intros p Hin.
    rewrite contains_header, contains_join.
    - now rewrite (@imports_hold_no_trigger code p Hin).
    - cbv [In] in Hin. intuition (subst; discriminate).
    - cbv [In] in Hin. cbv [nl]. intuition (subst; cbv [In L list_ascii_of_string] in *;
                                             intuition discriminate).
    - cbv [In] in Hin. intuition (subst; discriminate).
    - cbv [In] in Hin. cbv [nl]. intuition (subst; cbv [In L list_ascii_of_string] in *;
                                             intuition discriminate). }
  assert (Ha : contains (L "Any") (join [nl] (import_lines code) ++ [nl; nl] ++ code)
               = existsb (fun hint => contains hint code) typing_hints).
  { rewrite contains_header, contains_join; plain_trigger.
    rewrite imports_hold_Any. unfold typing_hints. cbn [existsb].
    destruct (contains (L "Any") code); [|now rewrite orb_false_r].
    rewrite !orb_true_r. reflexivity. }
  unfold import_lines at 1. unfold typing_hints at 1. cbn [existsb].
  rewrite Ha, !Hp by (cbv [In]; tauto).
  assert (Hh : contains (L "List[") code || (contains (L "Dict[") code
               || (existsb (fun hint => contains hint code) typing_hints
               || (contains (L "Union[") code || (contains (L "Optional[") code
               || (contains (L "Awaitable[") code || false)))))
               = existsb (fun hint => contains hint code) typing_hints).
  { unfold typing_hints. cbn [existsb].
    destruct (contains (L "List[") code), (contains (L "Dict[") code),
      (contains (L "Any") code), (contains (L "Union[") code),
      (contains (L "Optional[") code), (contains (L "Awaitable[") code); reflexivity. }
  rewrite Hh. reflexivity.
Qed.

(** ** Types *)

Lemma lookup_in (key v : str) (d : list (str * str)) :
  lookup key d = Some v -> In (key, v) d.
Proof.
  induction d as [|[k v'] d IH]; simpl; [discriminate|].
  destruct (str_eqb key k) eqn:E.
  - apply str_eqb_eq in E. subst k. intros [= ->]. now left.
  - intro H. right. now apply IH.
Qed.

Lemma no_bar_iff (s : str) :
  contains (L "|") s = false <-> Forall (fun c => c <> "|"%char) s.
Proof.
  split.
  - intro H. apply Forall_forall. intros c Hc ->.
    apply (contains_chr "|"%char s) in Hc. change [("|"%char)] with (L "|") in Hc. congruence.
  - intro H. apply not_true_is_false. intro Hc.
    apply (contains_chr "|"%char s) in Hc. rewrite Forall_forall in H. now apply (H _ Hc).
Qed.

Ltac no_bar_text :=
  repeat first
    [ assumption
    | apply Forall_nil
    | apply Forall_cons; [intro; discriminate|]
    | apply Forall_app; split
    | apply all_join ].

Lemma type_map_no_bar (key py : str) :
  In (key, py) type_map -> Forall (fun c => c <> "|"%char) py.
Proof.
  unfold type_map. cbv [In]. intro H.
  repeat (destruct H as [[= <- <-]|H]; [no_bar_text|]).
  contradiction.
Qed.

Lemma _convert_type_body_no_bar (self : str -> result str) (ts py : str) :
  (forall t o, self t = Ok o -> Forall (fun c => c <> "|"%char) o) ->
  _convert_type_body self ts = Ok py -> Forall (fun c => c <> "|"%char) py.
Proof.
  intros Hself E. unfold _convert_type_body in E.
  destruct ts as [|c0 cs]; [injection E as <-; no_bar_text|].
  cbv zeta in E. set (s := strip (c0 :: cs)) in *.
  destruct (contains (L "|") s) eqn:Eb.
  - apply bind_inv in E. destruct E as [types [Em E]]. injection E as <-.
    apply (mapR_all (Forall (fun c => c <> "|"%char))) in Em;
      [|intros a b _ Ha; now apply (Hself _ _ Ha)].
    no_bar_text.
  - apply no_bar_iff in Eb.
    destruct (lookup s type_map) as [v|] eqn:El.
    + injection E as <-. apply lookup_in in El. now apply type_map_no_bar in El.
    + destruct (contains (L "<") s && contains (L ">") s); [|now injection E as <-].
      apply bind_inv in E. destruct E as [i [_ E]].
      apply bind_inv in E. destruct E as [i' [_ E]].
      apply bind_inv in E. destruct E as [j [_ E]].
      destruct (str_eqb _ (L "Array")).
      { apply bind_inv in E. destruct E as [inner [Ei E]]. injection E as <-.
        apply Hself in Ei. no_bar_text. }
      destruct (str_eqb _ (L "Promise")).
      { apply bind_inv in E. destruct E as [inner [Ei E]]. injection E as <-.
        apply Hself in Ei. no_bar_text. }
      destruct (str_eqb _ (L "Record")); [|now injection E as <-].
      destruct (Nat.eqb _ 2); [|now injection E as <-].
      apply bind_inv in E. destruct E as [k0 [_ E]].
      apply bind_inv in E. destruct E as [k [Ek E]].
      apply bind_inv in E. destruct E as [v0 [_ E]].
      apply bind_inv in E. destruct E as [v [Ev E]]. injection E as <-.
      apply Hself in Ek, Ev. no_bar_text.
Qed.

Lemma _convert_type_rec_no_bar (depth : nat) :
  forall ts py, _convert_type_rec depth ts = Ok py -> Forall (fun c => c <> "|"%char) py.
Proof.
  induction depth as [|d IH]; intros ts py E; [discriminate|].
  simpl in E. eapply _convert_type_body_no_bar; [|exact E]. exact IH.
Qed.

(** X16: a union bar never survives the conversion of a type: whenever
    [_convert_type] returns, on whatever height of stack, its result holds
    no [|]. *)
Theorem converted_type_has_no_bar (frames : nat) (ts_type py : str) :
  _convert_type_rec frames ts_type = Ok py -> contains (L "|") py = false.
Proof.
  intro E. apply no_bar_iff. now apply _convert_type_rec_no_bar in E.
Qed.

Lemma converted_type_has_no_bar_witness :
  _convert_type_rec 3 (L "string | number[]") = Ok (L "Union[str, List[float]]")
  /\ contains (L "|") (L "Union[str, List[float]]") = false.
Proof.
  assert (H : _convert_type_rec 3 (L "string | number[]") = Ok (L "Union[str, List[float]]"))
    by reflexivity.
  split; [exact H|].
  exact (@converted_type_has_no_bar 3 _ _ H).
Defined.

Lemma find_first (c : ascii) (a b : str) :
  ~ In c a -> find [c] (a ++ c :: b) = Some (length a).
Proof.
  induction a as [|x a IH]; intro H.
  - cbn [app find startswith]. now rewrite (proj2 (chr_eqb_eq c c) eq_refl).
  - cbn [app find startswith length].
    assert (E : chr_eqb c x = false).
    { apply chr_eqb_neq. intros ->. apply H. now left. }
    rewrite E. cbn [andb]. rewrite IH; [reflexivity|]. intro Hin. apply H. now right.
Qed.

Lemma rfind_last (c : ascii) (a : str) : rfind [c] (a ++ [c]) = Some (length a).
Proof.
  induction a as [|x a IH].
  - cbn [app rfind startswith]. now rewrite (proj2 (chr_eqb_eq c c) eq_refl).
  - cbn [app rfind length]. now rewrite IH.
Qed.

Lemma slice_middle (a m b : str) :
  slice (length a) (length a + length m) (a ++ m ++ b) = m.
Proof.
  unfold slice. rewrite skipn_app, skipn_all, Nat.sub_diag. cbn [app skipn].
  replace (length a + length m - length a) with (length m + 0) by lia.
  rewrite firstn_app_2. cbn [firstn]. apply app_nil_r.
Qed.

Lemma strip_ends (x y : ascii) (m : str) :
  isspace x = false -> isspace y = false -> strip (x :: m ++ [y]) = x :: m ++ [y].
Proof.
  intros Hx Hy.
  rewrite <- (app_nil_r (x :: m ++ [y])) at 1.
  apply (@strip_pad [] (x :: m ++ [y]) []); [|constructor|constructor].
  unfold trimmed. rewrite Hx. change (x :: m ++ [y]) with ((x :: m) ++ [y]).
  now rewrite last_last, Hy.
Qed.

(** The arm of [_convert_type] for a generic type, on a text of the form
    [base<inner>] that is not an entry of the type table *)
Lemma _convert_type_body_generic (self : str -> result str) (x : ascii) (base inner : str) :
  isspace x = false -> ~ In "<"%char (x :: base) ->
  contains (L "|") (x :: base ++ L "<" ++ inner ++ L ">") = false ->
  lookup (x :: base ++ L "<" ++ inner ++ L ">") type_map = None ->
  _convert_type_body self (x :: base ++ L "<" ++ inner ++ L ">")
  = if str_eqb (x :: base) (L "Array") then
      py <- self inner ;; Ok (L "List[" ++ py ++ L "]")
    else if str_eqb (x :: base) (L "Promise") then
      py <- self inner ;; Ok (L "Awaitable[" ++ py ++ L "]")
    else if str_eqb (x :: base) (L "Record") then
      let key_value := split1 "," inner in
      if Nat.eqb (length key_value) 2 then
        k <- item key_value 0 ;;
        k <- self k ;;
        v <- item key_value 1 ;;
        v <- self v ;;
        Ok (L "Dict[" ++ k ++ L ", " ++ v ++ L "]")
      else Ok (x :: base ++ L "<" ++ inner ++ L ">")
    else Ok (x :: base ++ L "<" ++ inner ++ L ">").
Proof.
  intros Hx Hlt Hbar Hmap.
  set (whole := x :: base ++ L "<" ++ inner ++ L ">") in *.
  assert (Hs : strip whole = whole).
  { unfold whole.
    replace (base ++ L "<" ++ inner ++ L ">") with ((base ++ L "<" ++ inner) ++ L ">")
      by now rewrite <- !app_assoc.
    now apply strip_ends. }
  assert (Hfind : find (L "<") whole = Some (length (x :: base))).
  { unfold whole. change (x :: base ++ L "<" ++ inner ++ L ">")
      with ((x :: base) ++ "<"%char :: (inner ++ L ">")).
    now apply find_first. }
  assert (Hrfind : rfind (L ">") whole = Some (length (x :: base) + 1 + length inner)).
  { unfold whole.
    replace (x :: base ++ L "<" ++ inner ++ L ">")
      with (((x :: base) ++ L "<" ++ inner) ++ L ">")
      by (cbn [app]; now rewrite <- !app_assoc).
    change (L ">") with [(">"%char)]. rewrite rfind_last. f_equal.
    rewrite !length_app. change (length (L "<")) with 1. cbn [length]. lia. }
  assert (Hc1 : contains (L "<") whole = true).
  { destruct (contains (L "<") whole) eqn:E; [reflexivity|].
    assert (Hf := contains_find (L "<") whole). unfold whole in *.
    change (x :: base ++ L "<" ++ inner ++ L ">")
      with ((x :: base) ++ (L "<" ++ inner ++ L ">")) in E.
    rewrite (contains_app_r (L "<") (x :: base) (L "<" ++ inner ++ L ">")) in E;
      [discriminate|].
    apply contains_app_l. reflexivity. }
  assert (Hc2 : contains (L ">") whole = true).
  { unfold whole.
    change (x :: base ++ L "<" ++ inner ++ L ">")
      with ((x :: base) ++ (L "<" ++ inner ++ L ">")).
    apply contains_app_r, contains_app_r, contains_app_r. reflexivity. }
  unfold _convert_type_body. fold whole. unfold whole at 1. cbv zeta. fold whole.
  rewrite Hs, Hbar, Hmap, Hc1, Hc2. cbn [andb].
  unfold index, rindex. rewrite Hfind, Hrfind, !bind_ok.
  assert (Hbase : slice 0 (length (x :: base)) whole = x :: base).
  { unfold whole. change (x :: base ++ L "<" ++ inner ++ L ">")
      with ((x :: base) ++ (L "<" ++ inner ++ L ">")).
    unfold slice. rewrite Nat.sub_0_r. cbn [skipn].
    rewrite <- (Nat.add_0_r (length (x :: base))), firstn_app_2. cbn [firstn].
    apply app_nil_r. }
  assert (Hinner : slice (length (x :: base) + 1) (length (x :: base) + 1 + length inner) whole
                   = inner).
  { unfold whole.
    replace (x :: base ++ L "<" ++ inner ++ L ">")
      with (((x :: base) ++ L "<") ++ inner ++ L ">")
      by (cbn [app]; now rewrite <- !app_assoc).
    replace (length (x :: base) + 1) with (length ((x :: base) ++ L "<"))
      by (rewrite length_app; reflexivity).
    apply slice_middle. }
  rewrite Hbase, Hinner. reflexivity.
Qed.

(** The arm of [_convert_type] for an entry of the type table *)
Lemma _convert_type_body_known (self : str -> result str) (x y : ascii) (m v : str) :
  isspace x = false -> isspace y = false ->
  contains (L "|") (x :: m ++ [y]) = false ->
  lookup (x :: m ++ [y]) type_map = Some v ->
  _convert_type_body self (x :: m ++ [y]) = Ok v.
Proof.
  intros Hx Hy Hbar Hmap. unfold _convert_type_body. cbv zeta.
  now rewrite (@strip_ends x y m Hx Hy), Hbar, Hmap.
Qed.

Lemma type_map_generic (inner py : str) :
  (lookup (L "Array<" ++ inner ++ L ">") type_map = Some py ->
   In (inner, py) [(L "string", L "List[str]"); (L "number", L "List[float]");
                   (L "boolean", L "List[bool]"); (L "any", L "List[Any]")])
  /\ lookup (L "Promise<" ++ inner ++ L ">") type_map = None.
Proof.
  split.
  - intro H. apply lookup_in in H. unfold type_map in H. cbv [In] in H.
    repeat (destruct H as [H|H];
            [ pose proof (f_equal fst H) as Hk; pose proof (f_equal snd H) as Hv;
              cbn [fst snd] in Hk, Hv; clear H;
              first [ discriminate Hk
                    | apply (f_equal (skipn 6)) in Hk;
                      cbn [skipn L list_ascii_of_string app] in Hk;
                      match type of Hk with
                      | ?k = _ =>
                          let k' := eval cbv in (removelast k) in
                          change k with (k' ++ [(">"%char)]) in Hk
                      end;
                      apply app_inv_tail in Hk; subst inner py; in_list ]
            | ]).
    contradiction.
  - destruct (lookup (L "Promise<" ++ inner ++ L ">") type_map) as [v|] eqn:E; [|reflexivity].
    apply lookup_in in E. unfold type_map in E. cbv [In] in E.
    repeat (destruct E as [E|E];
            [ pose proof (f_equal fst E) as Hk; cbn [fst] in Hk; clear E;
              first [ discriminate Hk
                    | apply (f_equal (firstn 8)) in Hk; discriminate Hk ]
            | ]).
    contradiction.
Qed.

(** The four arrays of the type table are what the generic arm would give. *)
Lemma type_map_arrays (inner py : str) (d : nat) :
  In (inner, py) [(L "string", L "List[str]"); (L "number", L "List[float]");
                  (L "boolean", L "List[bool]"); (L "any", L "List[Any]")] ->
  exists o, _convert_type_rec (S d) inner = Ok o /\ py = L "List[" ++ o ++ L "]".
Proof.
  cbv [In]. intro H.
  repeat (destruct H as [H|H];
          [ pose proof (f_equal fst H) as Hk; pose proof (f_equal snd H) as Hv;
            cbn [fst snd] in Hk, Hv; subst inner py; eexists; split; reflexivity
          | ]).
  contradiction.
Qed.

Lemma mapR_mono {A B : Type} (f g : A -> result B) (l : list A) (out : list B) :
  (forall a b, f a = Ok b -> g a = Ok b) -> mapR f l = Ok out -> mapR g l = Ok out.
Proof.
  intro H. revert out. induction l as [|a l IH]; intros out E; simpl in *; [exact E|].
  apply bind_inv in E. destruct E as [b [Eb E]].
  apply bind_inv in E. destruct E as [bs [Ebs E]].
  now rewrite (H _ _ Eb), bind_ok, (IH _ Ebs), bind_ok.
Qed.

(** More frames never change a result. *)
Lemma _convert_type_body_mono (self1 self2 : str -> result str) (ts r : str) :
  (forall t o, self1 t = Ok o -> self2 t = Ok o) ->
  _convert_type_body self1 ts = Ok r -> _convert_type_body self2 ts = Ok r.
Proof.
  intros H E. unfold _convert_type_body in *.
  destruct ts as [|c0 cs]; [exact E|].
  cbv zeta in *. set (s := strip (c0 :: cs)) in *.
  destruct (contains (L "|") s).
  - apply bind_inv in E. destruct E as [types [Em E]].
    rewrite (@mapR_mono _ _ (fun t => self1 (strip t)) (fun t => self2 (strip t))
               (split "|" s) types); [exact E | | exact Em].
    intros a b Ha. now apply H.
  - destruct (lookup s type_map); [exact E|].
    destruct (contains (L "<") s && contains (L ">") s); [|exact E].
    destruct (index (L "<") s) as [i|e]; [|discriminate E]. rewrite !bind_ok in *.
    destruct (rindex (L ">") s) as [j|e]; [|discriminate E]. rewrite !bind_ok in *.
    destruct (str_eqb _ (L "Array")).
    { apply bind_inv in E. destruct E as [o [Eo E]]. now rewrite (H _ _ Eo). }
    destruct (str_eqb _ (L "Promise")).
    { apply bind_inv in E. destruct E as [o [Eo E]]. now rewrite (H _ _ Eo). }
    destruct (str_eqb _ (L "Record")); [|exact E].
    destruct (Nat.eqb _ 2); [|exact E].
    destruct (item _ 0) as [k0|e]; [|discriminate E]. rewrite !bind_ok in *.
    apply bind_inv in E. destruct E as [k [Ek E]]. rewrite (H _ _ Ek), bind_ok.
    destruct (item _ 1) as [v0|e]; [|discriminate E]. rewrite !bind_ok in *.
    apply bind_inv in E. destruct E as [v [Ev E]]. now rewrite (H _ _ Ev).
Qed.

Lemma _convert_type_rec_mono (d : nat) :
  forall d' ts r, d <= d' -> _convert_type_rec d ts = Ok r -> _convert_type_rec d' ts = Ok r.
Proof.
  induction d as [|d IH]; intros d' ts r Hd E; [discriminate|].
  destruct d' as [|d']; [lia|]. simpl in *.
  eapply _convert_type_body_mono; [|exact E].
  intros t o Ho. apply (IH d'); [lia | exact Ho].
Qed.

Lemma generic_no_bar (base inner : str) :
  contains (L "|") base = false -> contains (L "|") inner = false ->
  contains (L "|") (base ++ L "<" ++ inner ++ L ">") = false.
Proof.
  intros Hbase Hbar. apply no_bar_iff. apply no_bar_iff in Hbase, Hbar. no_bar_text.
Qed.

(** The call on [Array<T>] with one frame and then the call on [T] *)
Lemma _convert_type_rec_array (d : nat) (inner : str) :
  contains (L "|") inner = false ->
  lookup (L "Array<" ++ inner ++ L ">") type_map = None ->
  _convert_type_rec (S d) (L "Array<" ++ inner ++ L ">")
  = (py <- _convert_type_rec d inner ;; Ok (L "List[" ++ py ++ L "]")).
Proof.
  intros Hbar El. cbn [_convert_type_rec].
  change (L "Array<" ++ inner ++ L ">")
    with ("A"%char :: L "rray" ++ L "<" ++ inner ++ L ">") in *.
  rewrite _convert_type_body_generic; [reflexivity | reflexivity | | | exact El].
  - cbv [In L list_ascii_of_string]. intuition discriminate.
  - apply (generic_no_bar (L "Array") inner); [reflexivity | exact Hbar].
Qed.

Lemma _convert_type_rec_promise (d : nat) (inner : str) :
  contains (L "|") inner = false ->
  _convert_type_rec (S d) (L "Promise<" ++ inner ++ L ">")
  = (py <- _convert_type_rec d inner ;; Ok (L "Awaitable[" ++ py ++ L "]")).
Proof.
  intros Hbar. cbn [_convert_type_rec].
  pose proof (proj2 (type_map_generic inner [])) as El.
  change (L "Promise<" ++ inner ++ L ">")
    with ("P"%char :: L "romise" ++ L "<" ++ inner ++ L ">") in *.
  rewrite _convert_type_body_generic; [reflexivity | reflexivity | | | exact El].
  - cbv [In L list_ascii_of_string]. intuition discriminate.
  - apply (generic_no_bar (L "Promise") inner); [reflexivity | exact Hbar].
Qed.

Lemma _convert_type_rec_array_known (d : nat) (inner v : str) :
  contains (L "|") inner = false ->
  lookup (L "Array<" ++ inner ++ L ">") type_map = Some v ->
  _convert_type_rec (S d) (L "Array<" ++ inner ++ L ">") = Ok v.
Proof.
  intros Hbar El. cbn [_convert_type_rec].
  apply (@_convert_type_body_known (_convert_type_rec d) "A" ">" (L "rray<" ++ inner));
    [reflexivity | reflexivity | | exact El].
  apply (generic_no_bar (L "Array") inner); [reflexivity | exact Hbar].
Qed.

(** X17: a generic [Array<T>] or [Promise<T>] is converted from the
    inside, one stack frame for the level: when [T] holds no union bar
    and its conversion returns with the frames at hand, the conversion of
    [Array<T>] with one frame more returns [List[...]] around it, and that
    of [Promise<T>] returns [Awaitable[...]] around it; and whenever the
    conversion of [Array<T>] or [Promise<T>] returns, that of [T] returns
    with the same frames and the result is built from it in this way. *)
Theorem array_and_promise_wrap_the_inner_type (frames : nat) (inner : str) :
  contains (L "|") inner = false ->
  (forall py, _convert_type_rec frames inner = Ok py ->
              _convert_type_rec (S frames) (L "Array<" ++ inner ++ L ">")
                = Ok (L "List[" ++ py ++ L "]")
              /\ _convert_type_rec (S frames) (L "Promise<" ++ inner ++ L ">")
                 = Ok (L "Awaitable[" ++ py ++ L "]"))
  /\ (forall r, _convert_type_rec frames (L "Array<" ++ inner ++ L ">") = Ok r ->
                exists py, _convert_type_rec frames inner = Ok py
                           /\ r = L "List[" ++ py ++ L "]")
  /\ (forall r, _convert_type_rec frames (L "Promise<" ++ inner ++ L ">") = Ok r ->
                exists py, _convert_type_rec frames inner = Ok py
                           /\ r = L "Awaitable[" ++ py ++ L "]").
Proof.
  intro Hbar.
  split; [|split].
  - intros py E. split.
    + destruct (lookup (L "Array<" ++ inner ++ L ">") type_map) as [v|] eqn:El.
      * rewrite (@_convert_type_rec_array_known frames inner v Hbar El). f_equal.
        apply (proj1 (type_map_generic inner v)) in El.
        destruct frames as [|d]; [discriminate E|].
        destruct (@type_map_arrays inner v d El) as [o [Eo ->]].
        rewrite E in Eo. now injection Eo as <-.
      * now rewrite (@_convert_type_rec_array frames inner Hbar El), E.
    + now rewrite (@_convert_type_rec_promise frames inner Hbar), E.
  - intros r E. destruct frames as [|d]; [discriminate E|].
    destruct (lookup (L "Array<" ++ inner ++ L ">") type_map) as [v|] eqn:El.
    + rewrite (@_convert_type_rec_array_known d inner v Hbar El) in E. injection E as <-.
      apply (proj1 (type_map_generic inner v)) in El.
      exact (@type_map_arrays inner v d El).
    + rewrite (@_convert_type_rec_array d inner Hbar El) in E.
      apply bind_inv in E. destruct E as [py [Ei E]]. injection E as <-.
      exists py. split; [|reflexivity].
      apply (@_convert_type_rec_mono d (S d)); [lia | exact Ei].
  - intros r E. destruct frames as [|d]; [discriminate E|].
    rewrite (@_convert_type_rec_promise d inner Hbar) in E.
    apply bind_inv in E. destruct E as [py [Ei E]]. injection E as <-.
    exists py. split; [|reflexivity].
    apply (@_convert_type_rec_mono d (S d)); [lia | exact Ei].
Qed.

Lemma array_and_promise_wrap_the_inner_type_witness :
  contains (L "|") (L "Array<number>") = false
  /\ _convert_type_rec 3 (L "Array<" ++ L "Array<number>" ++ L ">")
     = Ok (L "List[" ++ L "List[float]" ++ L "]")
  /\ exists py, _convert_type_rec 3 (L "Array<number>") = Ok py
                /\ L "Awaitable[List[float]]" = L "Awaitable[" ++ py ++ L "]".
Proof.
  assert (Hbar : contains (L "|") (L "Array<number>") = false) by reflexivity.
  destruct (array_and_promise_wrap_the_inner_type 2 (L "Array<number>") Hbar)
    as [Hup _].
  destruct (array_and_promise_wrap_the_inner_type 3 (L "Array<number>") Hbar)
    as [_ [_ Hdown]].
  split; [exact Hbar|]. split.
  - exact (proj1 (Hup (L "List[float]") eq_refl)).
  - exact (Hdown (L "Awaitable[List[float]]") eq_refl).
Defined.

(** ** Parameters and object literals without a colon *)

Lemma mapR_map {A B : Type} (f : A -> result B) (g : A -> B) (l : list A) :
  (forall a, In a l -> f a = Ok (g a)) -> mapR f l = Ok (map g l).
Proof.
  induction l as [|a l IH]; intro H; simpl; [reflexivity|].
  rewrite (H a (or_introl eq_refl)), bind_ok, IH; [reflexivity|].
  intros; apply H; now right.
Qed.

Lemma no_chr_iff (c : ascii) (s : str) :
  contains [c] s = false <-> Forall (fun x => x <> c) s.
Proof.
  split.
  - intro H. apply Forall_forall. intros x Hx ->.
    apply (contains_chr c s) in Hx. congruence.
  - intro H. apply not_true_is_false. intro Hc.
    apply (contains_chr c s) in Hc. rewrite Forall_forall in H. now apply (H _ Hc).
Qed.

(** X18: A parameter list without a colon is only spaced anew: it is cut at
    the commas, every part is trimmed, and the parts are joined with a
    comma and a space. *)
Theorem untyped_params_are_trimmed (params : str) :
  contains (L ":") params = false -> strip params <> [] ->
  _convert_params params = Ok (join (L ", ") (map strip (split "," params))).
Proof.
  intros Hc Hne. unfold _convert_params.
  destruct (strip params) as [|x m]; [congruence|].
  rewrite (@mapR_map _ _ _convert_param strip); [reflexivity|].
  intros a Ha. unfold _convert_param.
  assert (H : contains (L ":") (strip a) = false); [|now rewrite H].
  apply (no_chr_iff ":"%char). apply all_strip.
  apply (no_chr_iff ":"%char) in Hc.
  pose proof (@all_split (fun x => x <> ":"%char) ","%char params Hc) as Hs.
  rewrite Forall_forall in Hs. now apply Hs.
Qed.

Lemma untyped_params_are_trimmed_witness :
  contains (L ":") (L " a,b , c") = false /\ strip (L " a,b , c") <> []
  /\ _convert_params (L " a,b , c")
     = Ok (join (L ", ") (map strip (split "," (L " a,b , c")))).
Proof.
  assert (H1 : contains (L ":") (L " a,b , c") = false) by reflexivity.
  assert (H2 : strip (L " a,b , c") <> []) by (vm_compute; discriminate).
  split; [exact H1|]. split; [exact H2|].
  exact (untyped_params_are_trimmed (L " a,b , c") H1 H2).
Defined.

Lemma concat_nils {A : Type} (l : list (list A)) :
  Forall (fun x => x = []) l -> concat l = [].
Proof. induction 1 as [|x l -> _ IH]; simpl; [reflexivity | exact IH]. Qed.

Lemma object_pair_no_colon (renamed : renames) (line : str) :
  contains (L ":") line = false -> object_pair renamed line = Ok [].
Proof.
  intro H. unfold object_pair. cbv zeta.
  destruct (str_eqb (strip line) [] || str_eqb (strip line) (L ",")); [reflexivity|].
  assert (Hs : Forall (fun x => x <> ":"%char) (strip line)).
  { apply all_strip. now apply (no_chr_iff ":"%char). }
  assert (Hr : contains (L ":") (if endswith (L ",") (strip line)
                                  then removelast (strip line) else strip line) = false).
  { apply (no_chr_iff ":"%char). destruct (endswith _ _); [|exact Hs].
    apply Forall_forall. intros x Hx. rewrite Forall_forall in Hs. apply Hs.
    clear -Hx. induction (strip line) as [|y l IH]; [contradiction|].
    destruct l as [|z l]; [contradiction|]. destruct Hx as [->|Hx]; [now left|].
    right. now apply IH. }
  match goal with
  | |- (if ?c then _ else _) = _ => replace c with false by (symmetry; exact Hr)
  end.
  reflexivity.
Qed.

(** X19: An object literal without a colon, one in shorthand such as
    [{a, b}] among them, becomes the empty dictionary: every line that
    holds no colon is left out. *)
Theorem object_without_colon_is_empty (content : str) (st : renames) :
  contains (L ":") content = false ->
  _convert_object_literal content st = Ok (L "{}", st).
Proof.
  intro H. unfold _convert_object_literal, bindM, get_renamed, lift, ret.
  rewrite (@mapR_map _ _ (object_pair st) (fun _ => [])).
  - rewrite concat_nils; [reflexivity|].
    apply Forall_forall. intros x Hx. apply in_map_iff in Hx. now destruct Hx as [_ [<- _]].
  - intros a Ha. apply object_pair_no_colon. apply (no_chr_iff ":"%char).
    assert (Hs : Forall (fun x => x <> ":"%char) (strip content)).
    { apply all_strip. now apply (no_chr_iff ":"%char). }
    pose proof (@all_split (fun x => x <> ":"%char) nl (strip content) Hs) as Hl.
    rewrite Forall_forall in Hl. now apply Hl.
Qed.

Lemma object_without_colon_is_empty_witness :
  contains (L ":") (L " a, b ") = false
  /\ _convert_object_literal (L " a, b ") [(L "max", L "max_var")]
     = Ok (L "{}", [(L "max", L "max_var")]).
Proof.
  split; [reflexivity|].
  apply (object_without_colon_is_empty (L " a, b ")). reflexivity.
Defined.

(** ** Braces *)

Lemma replace_removes (c : ascii) (s : str) :
  Forall (fun x => x <> c) (replace [c] [] s).
Proof.
  unfold replace. cbn [length Nat.sub].
  induction s as [|x s IH]; cbn [replace_from startswith]; [constructor|].
  destruct (chr_eqb c x) eqn:E; cbn [andb app].
  - exact IH.
  - constructor; [|exact IH]. apply chr_eqb_neq in E. congruence.
Qed.

(** X20: The brace step of [_cleanup_code] keeps a line as it is when it holds
    an opening brace together with [return] or a colon, drops a line that
    is a single brace, and takes every brace out of any other line: a
    brace is left only on a line of the first kind. *)
Theorem braces_survive_only_in_dictionaries (line out : str) :
  In out (strip_braces line) ->
  (out = line /\ contains (L "{") line = true
   /\ (contains (L "return") line = true \/ contains (L ":") line = true))
  \/ (contains (L "{") out = false /\ contains (L "}") out = false).
Proof.
  unfold strip_braces. intro H.
  destruct ((contains (L "return") line && contains (L "{") line)
            || (contains (L ":") line && contains (L "{") line)) eqn:E.
  - left. destruct H as [<-|[]]. split; [reflexivity|].
    apply orb_true_iff in E. destruct E as [E|E]; apply andb_true_iff in E; tauto.
  - right. cbv iota in H.
    match type of H with In _ (if ?c then _ else _) => destruct c end; [contradiction|].
    destruct H as [<-|[]]. split.
    + apply (no_chr_iff "{"%char). apply all_replace; [constructor|].
      apply (replace_removes "{"%char).
    + apply (no_chr_iff "}"%char). apply (replace_removes "}"%char).
Qed.

Lemma braces_survive_only_in_dictionaries_witness :
  In (L "x = 1") (strip_braces (L "x = {1}"))
  /\ ((L "x = 1" = L "x = {1}" /\ contains (L "{") (L "x = {1}") = true
       /\ (contains (L "return") (L "x = {1}") = true
           \/ contains (L ":") (L "x = {1}") = true))
      \/ (contains (L "{") (L "x = 1") = false /\ contains (L "}") (L "x = 1") = false)).
Proof.
  assert (H : In (L "x = 1") (strip_braces (L "x = {1}"))) by (left; reflexivity).
  split; [exact H|].
  exact (braces_survive_only_in_dictionaries (L "x = {1}") (L "x = 1") H).
Defined.

(** * The stack *)

(** ** Nothing but the stack makes [convert] raise *)

Lemma returns_unless_deep_of {A : Type} (x : result A) :
  returns x -> returns_unless_deep x.
Proof. intro H. now right. Qed.

Lemma returns_unless_deep_bind {A B : Type} (x : result A) (f : A -> result B) :
  returns_unless_deep x -> (forall a, returns_unless_deep (f a)) ->
  returns_unless_deep (bind x f).
Proof. intros [->|[a ->]] H; [now left | apply H]. Qed.

Lemma returns_unless_deep_m_of {A : Type} (x : M A) :
  returns_m x -> returns_unless_deep_m x.
Proof. intros H st. right. apply H. Qed.

Lemma returns_unless_deep_m_bind {A B : Type} (x : M A) (f : A -> M B) :
  returns_unless_deep_m x -> (forall a, returns_unless_deep_m (f a)) ->
  returns_unless_deep_m (bindM x f).
Proof.
  intros Hx Hf st. unfold bindM. destruct (Hx st) as [->|[a [st1 ->]]]; [now left|].
  apply Hf.
Qed.

Lemma returns_unless_deep_m_lift {A : Type} (x : result A) :
  returns_unless_deep x -> returns_unless_deep_m (lift x).
Proof. intros [->|[a ->]] st; unfold lift; [now left | right; eauto]. Qed.

Lemma mapR_unless_deep {A B : Type} (f : A -> result B) (l : list A) :
  (forall a, In a l -> returns_unless_deep (f a)) -> returns_unless_deep (mapR f l).
Proof.
  induction l as [|a l IH]; intro H; simpl; [right; now eexists|].
  apply returns_unless_deep_bind; [apply H; now left | intros b].
  apply returns_unless_deep_bind; [apply IH; intros; apply H; now right | intros bs].
  right. now eexists.
Qed.

Lemma mapM_unless_deep {A B : Type} (f : A -> M B) (l : list A) :
  (forall a, In a l -> returns_unless_deep_m (f a)) -> returns_unless_deep_m (mapM f l).
Proof.
  induction l as [|a l IH]; intro H; simpl.
  - apply returns_unless_deep_m_of, returns_m_ret.
  - apply returns_unless_deep_m_bind; [apply H; now left | intros b].
    apply returns_unless_deep_m_bind; [apply IH; intros; apply H; now right | intros bs].
    apply returns_unless_deep_m_of, returns_m_ret.
Qed.

Lemma re_sub_fn_unless_deep (r : regex) (f : matchobj -> result str) (s : str) :
  (forall m, hit_of r s m -> returns_unless_deep (f m)) ->
  returns_unless_deep (re_sub_fn r f s).
Proof.
  intro H. unfold re_sub_fn.
  apply returns_unless_deep_bind; [|intros parts; right; now eexists].
  apply mapR_unless_deep. intros [c|m] Hp; [right; now eexists|].
  apply H. exact (pieces_spec _ _ _ Hp).
Qed.

Lemma re_sub_m_unless_deep (r : regex) (f : matchobj -> M str) (s : str) :
  (forall m, hit_of r s m -> returns_unless_deep_m (f m)) ->
  returns_unless_deep_m (re_sub_m r f s).
Proof.
  intro H. unfold re_sub_m.
  apply returns_unless_deep_m_bind;
    [|intros parts; apply returns_unless_deep_m_of, returns_m_ret].
  apply mapM_unless_deep. intros [c|m] Hp; [apply returns_unless_deep_m_of, returns_m_ret|].
  apply H. exact (pieces_spec _ _ _ Hp).
Qed.

Lemma _convert_type_body_unless_deep (self : str -> result str) (ts : str) :
  (forall t, returns_unless_deep (self t)) ->
  returns_unless_deep (_convert_type_body self ts).
Proof.
  intro Hself. unfold _convert_type_body.
  destruct ts as [|c cs]; [right; now eexists|].
  set (t := strip (c :: cs)). cbv zeta.
  destruct (contains (L "|") t).
  { apply returns_unless_deep_bind; [|intros ?; right; now eexists].
    apply mapR_unless_deep. intros; apply Hself. }
  destruct (lookup t type_map); [right; now eexists|].
  destruct (contains (L "<") t) eqn:Elt; [|cbv [andb]; right; now eexists].
  destruct (contains (L ">") t) eqn:Egt; [|cbv [andb]; right; now eexists].
  cbv [andb].
  destruct (index_total _ _ Elt) as [i ->].
  destruct (rindex_total _ _ Egt) as [j ->]. rewrite !bind_ok.
  destruct (str_eqb (slice 0 i t) (L "Array")).
  { apply returns_unless_deep_bind; [apply Hself | intros ?; right; now eexists]. }
  destruct (str_eqb (slice 0 i t) (L "Promise")).
  { apply returns_unless_deep_bind; [apply Hself | intros ?; right; now eexists]. }
  destruct (str_eqb (slice 0 i t) (L "Record")); [|right; now eexists].
  destruct (split1_shape "," (slice (i + 1) j t))
    as [[a [-> _]]|[a [b [-> _]]]];
    cbn [length Nat.eqb item nth_error]; [right; now eexists|].
  rewrite bind_ok.
  apply returns_unless_deep_bind; [apply Hself | intros ?]. rewrite bind_ok.
  apply returns_unless_deep_bind; [apply Hself | intros ?]. right; now eexists.
Qed.

Lemma _convert_type_rec_unless_deep (frames : nat) (ts : str) :
  returns_unless_deep (_convert_type_rec frames ts).
Proof.
  revert ts. induction frames as [|d IH]; intro ts; [now left|].
  simpl. now apply _convert_type_body_unless_deep.
Qed.

Section StackSafety.

Variable ct : str -> result str.
Hypothesis ct_unless_deep : forall t, returns_unless_deep (ct t).

Lemma _convert_param_with_unless_deep (param : str) :
  returns_unless_deep (_convert_param_with ct param).
Proof.
  unfold _convert_param_with. cbv zeta.
  destruct (contains (L ":") (strip param)) eqn:E; [|right; now eexists].
  apply (contains_chr ":"%char) in E.
  destruct (split1_shape ":" (strip param)) as [[a [_ H]]|[a [b [-> _]]]]; [contradiction|].
  apply returns_unless_deep_bind; [apply ct_unless_deep | intros ?; right; now eexists].
Qed.

Lemma _convert_params_with_unless_deep (params : str) :
  returns_unless_deep (_convert_params_with ct params).
Proof.
  unfold _convert_params_with. destruct (strip params); [right; now eexists|].
  apply returns_unless_deep_bind; [|intros ?; right; now eexists].
  apply mapR_unless_deep. intros; apply _convert_param_with_unless_deep.
Qed.

Lemma return_type_of_with_unless_deep (m : matchobj) :
  returns_unless_deep (return_type_of_with ct m).
Proof.
  unfold return_type_of_with. destruct (group_true m 3) eqn:E; [|right; now eexists].
  apply returns_unless_deep_bind;
    [apply returns_unless_deep_of, group_true_str, E | intros t; apply ct_unless_deep].
Qed.

Lemma _convert_functions_with_unless_deep (code : str) :
  returns_unless_deep (_convert_functions_with ct code).
Proof.
  unfold _convert_functions_with.
  apply returns_unless_deep_bind;
    [apply returns_unless_deep_of, re_sub_returns; reflexivity | intros ?].
  apply returns_unless_deep_bind;
    [apply returns_unless_deep_of, re_sub_returns; reflexivity | intros ?].
  apply returns_unless_deep_bind.
  { apply re_sub_fn_unless_deep; intros m Hm. unfold convert_function_with.
    apply returns_unless_deep_bind;
      [apply returns_unless_deep_of, (group_str_returns 1 Hm); reflexivity | intros ?].
    apply returns_unless_deep_bind;
      [apply returns_unless_deep_of, (group_str_returns 2 Hm); reflexivity | intros ?].
    apply returns_unless_deep_bind; [apply _convert_params_with_unless_deep | intros ?].
    apply returns_unless_deep_bind; [apply return_type_of_with_unless_deep | intros ?].
    right; now eexists. }
  intros ?. apply returns_unless_deep_bind; [|intros ?; right; now eexists].
  apply re_sub_fn_unless_deep; intros m Hm. unfold convert_async_function_with.
  apply returns_unless_deep_bind;
    [apply returns_unless_deep_of, (group_str_returns 1 Hm); reflexivity | intros ?].
  apply returns_unless_deep_bind;
    [apply returns_unless_deep_of, (group_str_returns 2 Hm); reflexivity | intros ?].
  apply returns_unless_deep_bind; [apply _convert_params_with_unless_deep | intros ?].
  apply returns_unless_deep_bind; [apply return_type_of_with_unless_deep | intros ?].
  right; now eexists.
Qed.

Lemma _handle_var_declaration_with_unless_deep (name : str) (type_str : option str)
    (typed : bool) :
  returns_unless_deep_m (_handle_var_declaration_with ct name type_str typed).
Proof.
  unfold _handle_var_declaration_with. apply returns_unless_deep_m_bind.
  - apply returns_unless_deep_m_of.
    destruct (negb (str_eqb (_safe_var_name name) name)); [|apply returns_m_ret].
    apply returns_m_bind; [apply returns_m_get | intros ?; apply returns_m_put].
  - intros _. destruct typed; [|apply returns_unless_deep_m_of, returns_m_ret].
    destruct type_str as [[|c cs]|]; try apply returns_unless_deep_m_of, returns_m_ret.
    apply returns_unless_deep_m_bind;
      [|intros ?; apply returns_unless_deep_m_of, returns_m_ret].
    apply returns_unless_deep_m_lift, ct_unless_deep.
Qed.

Lemma _convert_variables_with_unless_deep (code : str) :
  returns_unless_deep_m (_convert_variables_with ct code).
Proof.
  unfold _convert_variables_with.
  apply returns_unless_deep_m_bind;
    [apply returns_unless_deep_m_of, returns_m_put | intros _].
  apply returns_unless_deep_m_bind;
    [apply returns_unless_deep_m_of, returns_m_lift, re_sub_returns; reflexivity | intros ?].
  apply returns_unless_deep_m_bind.
  { apply re_sub_m_unless_deep; intros m Hm.
    apply returns_unless_deep_m_bind;
      [apply returns_unless_deep_m_of, returns_m_lift, (group_str_returns 1 Hm); reflexivity
      | intros ?].
    apply _handle_var_declaration_with_unless_deep. }
  intros ?. apply returns_unless_deep_m_bind.
  { apply re_sub_m_unless_deep; intros m Hm.
    apply returns_unless_deep_m_bind;
      [apply returns_unless_deep_m_of, returns_m_lift, (group_str_returns 1 Hm); reflexivity
      | intros ?].
    apply _handle_var_declaration_with_unless_deep. }
  intros ?. apply returns_unless_deep_m_of.
  apply returns_m_bind; [apply returns_m_get | intros ?].
  apply returns_m_lift, foldR_returns. intros; apply rename_usages_returns.
Qed.

Lemma convert_with_unless_deep (js_code : str) :
  returns_unless_deep_m (convert_with ct js_code).
Proof.
  assert (Hl : forall (x : result str), returns x -> returns_unless_deep_m (lift x)).
  { intros x Hx. now apply returns_unless_deep_m_of, returns_m_lift. }
  unfold convert_with.
  apply returns_unless_deep_m_bind;
    [|intros ?; apply returns_unless_deep_m_of, returns_m_ret].
  unfold translate_with.
  apply returns_unless_deep_m_bind;
    [apply returns_unless_deep_m_of, returns_m_lift, _extract_decorators_returns
    | intros [d c]].
  apply returns_unless_deep_m_bind; [apply Hl, _convert_imports_returns | intros ?].
  apply returns_unless_deep_m_bind;
    [apply returns_unless_deep_m_lift, _convert_functions_with_unless_deep | intros ?].
  apply returns_unless_deep_m_bind; [apply Hl, _convert_classes_returns | intros ?].
  apply returns_unless_deep_m_bind; [apply Hl, _convert_array_methods_returns | intros ?].
  apply returns_unless_deep_m_bind; [apply _convert_variables_with_unless_deep | intros ?].
  apply returns_unless_deep_m_bind;
    [apply Hl, _convert_control_structures_returns | intros ?].
  apply returns_unless_deep_m_bind;
    [apply returns_unless_deep_m_of, _convert_objects_returns | intros ?].
  apply returns_unless_deep_m_bind; [apply Hl, _convert_common_methods_returns | intros ?].
  apply returns_unless_deep_m_bind; [apply Hl, _convert_operators_returns | intros ?].
  apply returns_unless_deep_m_bind; [apply Hl, _cleanup_code_returns | intros ?].
  apply returns_unless_deep_m_bind; [apply Hl, _post_process_returns | intros ?].
  apply returns_unless_deep_m_of, returns_m_ret.
Qed.

End StackSafety.

Lemma convert_in_unless_deep (frames : nat) (js_code : str) :
  returns_unless_deep_m (convert_in frames js_code).
Proof.
  apply convert_with_unless_deep. apply _convert_type_rec_unless_deep.
Qed.

Lemma js_to_python_in_unless_deep (frames : nat) (js_code : string) :
  returns_unless_deep (js_to_python_in frames js_code).
Proof.
  unfold js_to_python_in.
  destruct (convert_in_unless_deep frames (L js_code) fresh) as [->|[out [st' ->]]];
    [now left | right; now eexists].
Qed.

(** ** What [convert] returns on a stack of some height it returns on any
    higher stack *)

Lemma re_sub_fn_mono (r : regex) (f g : matchobj -> result str) (s out : str) :
  (forall m o, f m = Ok o -> g m = Ok o) ->
  re_sub_fn r f s = Ok out -> re_sub_fn r g s = Ok out.
Proof.
  intros H E. unfold re_sub_fn in *.
  apply bind_inv in E. destruct E as [parts [Em E]].
  match goal with
  | |- bind (mapR ?G _) _ = _ =>
      assert (Em' : mapR G (pieces r s) = Ok parts)
        by (eapply mapR_mono; [|exact Em]; intros [c|m] o; [auto | apply H])
  end.
  rewrite Em'. exact E.
Qed.

Lemma mapM_mono {A B : Type} (f g : A -> M B) (l : list A) :
  (forall a st r, f a st = Ok r -> g a st = Ok r) ->
  forall st r, mapM f l st = Ok r -> mapM g l st = Ok r.
Proof.
  intro H. induction l as [|a l IH]; intros st r E; simpl in *; [exact E|].
  apply bindM_inv in E. destruct E as [b [st1 [Eb E]]].
  apply bindM_inv in E. destruct E as [bs [st2 [Ebs E]]].
  unfold bindM. rewrite (H _ _ _ Eb). fold (bindM (mapM g l) (fun bs => ret (b :: bs)) st1).
  unfold bindM. now rewrite (IH _ _ Ebs).
Qed.

Lemma re_sub_m_mono (r : regex) (f g : matchobj -> M str) (s : str) :
  (forall m st o, f m st = Ok o -> g m st = Ok o) ->
  forall st o, re_sub_m r f s st = Ok o -> re_sub_m r g s st = Ok o.
Proof.
  intros H st o E. unfold re_sub_m in *.
  apply bindM_inv in E. destruct E as [parts [st1 [Em E]]].
  unfold bindM.
  match goal with
  | |- match mapM ?G _ _ with _ => _ end = _ =>
      assert (Em' : mapM G (pieces r s) st = Ok (parts, st1))
        by (eapply mapM_mono; [|exact Em]; intros [c|m] s0 o0; [auto | apply H])
  end.
  rewrite Em'. exact E.
Qed.

Section Agreement.

Variables ct1 ct2 : str -> result str.
Hypothesis ct_agree : forall t o, ct1 t = Ok o -> ct2 t = Ok o.

Lemma _convert_param_with_agree (param o : str) :
  _convert_param_with ct1 param = Ok o -> _convert_param_with ct2 param = Ok o.
Proof.
  unfold _convert_param_with. cbv zeta.
  destruct (contains (L ":") (strip param)); [|auto].
  destruct (split1 ":" (strip param)) as [|a [|b [|c l]]]; auto.
  intro E. apply bind_inv in E. destruct E as [py [Ep E]].
  apply ct_agree in Ep. now rewrite Ep.
Qed.

Lemma _convert_params_with_agree (params o : str) :
  _convert_params_with ct1 params = Ok o -> _convert_params_with ct2 params = Ok o.
Proof.
  unfold _convert_params_with. destruct (strip params); [auto|].
  intro E. apply bind_inv in E. destruct E as [l [El E]].
  apply (@mapR_mono _ _ _ (_convert_param_with ct2) _ _ _convert_param_with_agree) in El.
  now rewrite El.
Qed.

Lemma return_type_of_with_agree (m : matchobj) (o : str) :
  return_type_of_with ct1 m = Ok o -> return_type_of_with ct2 m = Ok o.
Proof.
  unfold return_type_of_with. destruct (group_true m 3); [|auto].
  destruct (group_str m 3); [|auto]. rewrite !bind_ok. apply ct_agree.
Qed.

Lemma convert_function_with_agree (m : matchobj) (o : str) :
  convert_function_with ct1 m = Ok o -> convert_function_with ct2 m = Ok o.
Proof.
  unfold convert_function_with.
  destruct (group_str m 1); [|auto]. destruct (group_str m 2); [|auto].
  rewrite !bind_ok. intro E.
  apply bind_inv in E. destruct E as [ps [Ep E]].
  apply bind_inv in E. destruct E as [rt [Er E]].
  apply _convert_params_with_agree in Ep. apply return_type_of_with_agree in Er.
  now rewrite Ep, bind_ok, Er.
Qed.

Lemma convert_async_function_with_agree (m : matchobj) (o : str) :
  convert_async_function_with ct1 m = Ok o -> convert_async_function_with ct2 m = Ok o.
Proof.
  unfold convert_async_function_with.
  destruct (group_str m 1); [|auto]. destruct (group_str m 2); [|auto].
  rewrite !bind_ok. intro E.
  apply bind_inv in E. destruct E as [ps [Ep E]].
  apply bind_inv in E. destruct E as [rt [Er E]].
  apply _convert_params_with_agree in Ep. apply return_type_of_with_agree in Er.
  now rewrite Ep, bind_ok, Er.
Qed.

Lemma _convert_functions_with_agree (code o : str) :
  _convert_functions_with ct1 code = Ok o -> _convert_functions_with ct2 code = Ok o.
Proof.
  unfold _convert_functions_with.
  destruct (re_sub arrow_function _ code) as [c1|]; [|auto]. rewrite !bind_ok.
  destruct (re_sub async_arrow_function _ c1) as [c2|]; [|auto]. rewrite !bind_ok.
  intro E. apply bind_inv in E. destruct E as [c3 [E3 E]].
  apply bind_inv in E. destruct E as [c4 [E4 E]].
  apply (@re_sub_fn_mono _ _ (convert_function_with ct2) _ _
            convert_function_with_agree) in E3.
  apply (@re_sub_fn_mono _ _ (convert_async_function_with ct2) _ _
            convert_async_function_with_agree) in E4.
  now rewrite E3, bind_ok, E4.
Qed.

Lemma _handle_var_declaration_with_agree (name : str) (type_str : option str)
    (typed : bool) (st : renames) (o : str * renames) :
  _handle_var_declaration_with ct1 name type_str typed st = Ok o ->
  _handle_var_declaration_with ct2 name type_str typed st = Ok o.
Proof.
  unfold _handle_var_declaration_with. cbv zeta. intro E.
  apply bindM_inv in E. destruct E as [u [st1 [E1 E]]].
  unfold bindM at 1. rewrite E1.
  destruct typed; [|exact E]. destruct type_str as [[|c cs]|]; try exact E.
  apply bindM_inv in E. destruct E as [py [st2 [E2 E]]].
  unfold lift in E2. destruct (ct1 (c :: cs)) as [py'|] eqn:Ec; [|discriminate E2].
  injection E2 as -> ->. apply ct_agree in Ec. unfold bindM, lift. now rewrite Ec.
Qed.

Lemma _convert_variables_with_agree (code : str) (st : renames) (o : str * renames) :
  _convert_variables_with ct1 code st = Ok o -> _convert_variables_with ct2 code st = Ok o.
Proof.
  unfold _convert_variables_with. intro E.
  apply bindM_inv in E. destruct E as [u [st0 [E0 E]]].
  apply bindM_inv in E. destruct E as [c1 [st1 [E1 E]]].
  apply bindM_inv in E. destruct E as [c2 [st2 [E2 E]]].
  apply bindM_inv in E. destruct E as [c3 [st3 [E3 E]]].
  assert (Hstep : forall ty typed m s0 o0,
             (name <~ lift (group_str m 1) ;;
              _handle_var_declaration_with ct1 name ty typed) s0 = Ok o0 ->
             (name <~ lift (group_str m 1) ;;
              _handle_var_declaration_with ct2 name ty typed) s0 = Ok o0).
  { intros ty typed m s0 o0 Em.
    apply bindM_inv in Em. destruct Em as [name [s1 [Em1 Em]]].
    unfold bindM at 1. rewrite Em1. now apply _handle_var_declaration_with_agree. }
  unfold bindM at 1. rewrite E0.
  unfold bindM at 1. rewrite E1.
  apply (@re_sub_m_mono typed_declaration _
            (fun m => name <~ lift (group_str m 1) ;;
                      _handle_var_declaration_with ct2 name (group m 2) true)
            c1 (fun m => Hstep (group m 2) true m)) in E2.
  apply (@re_sub_m_mono untyped_assignment _
            (fun m => name <~ lift (group_str m 1) ;;
                      _handle_var_declaration_with ct2 name None false)
            c2 (fun m => Hstep None false m)) in E3.
  unfold bindM at 1. rewrite E2.
  unfold bindM at 1. rewrite E3.
  exact E.
Qed.

Lemma convert_with_agree (js_code : str) (st : renames) (o : str * renames) :
  convert_with ct1 js_code st = Ok o -> convert_with ct2 js_code st = Ok o.
Proof.
  unfold convert_with, translate_with. intro E.
  apply bindM_inv in E. destruct E as [code [s1 [E1 E]]].
  apply bindM_inv in E1. destruct E1 as [[d c0] [s0 [E0 E1]]]. cbv beta iota zeta in E1.
  apply bindM_inv in E1. destruct E1 as [c1 [t1 [Ei E1]]].
  apply bindM_inv in E1. destruct E1 as [c2 [t2 [Ef E1]]].
  apply bindM_inv in E1. destruct E1 as [c3 [t3 [Ec E1]]].
  apply bindM_inv in E1. destruct E1 as [c4 [t4 [Ea E1]]].
  apply bindM_inv in E1. destruct E1 as [c5 [t5 [Ev E1]]].
  apply lift_inv in Ef. destruct Ef as [Ef ->].
  apply _convert_functions_with_agree in Ef.
  apply _convert_variables_with_agree in Ev.
  unfold bindM at 1. unfold bindM at 1. rewrite E0. cbv beta iota zeta.
  unfold bindM at 1. rewrite Ei.
  unfold bindM at 1. unfold lift at 1. rewrite Ef.
  unfold bindM at 1. rewrite Ec.
  unfold bindM at 1. rewrite Ea.
  unfold bindM at 1. rewrite Ev.
  fold (bindM (c6 <~ lift (_convert_control_structures c5) ;;
               c7 <~ _convert_objects c6 ;;
               c8 <~ lift (_convert_common_methods c7) ;;
               c9 <~ lift (_convert_operators c8) ;;
               c10 <~ lift (_cleanup_code c9) ;;
               c11 <~ lift (_post_process c10) ;; ret c11)
              (fun python_code => ret (with_imports python_code)) t5).
  unfold bindM at 1. rewrite E1. exact E.
Qed.

End Agreement.

(** With [_convert_type] for [ct] the pipeline of the section [Stack] is
    the pipeline of the converter. *)
Lemma convert_with_unbounded (js_code : str) :
  convert_with _convert_type js_code = convert js_code.
Proof. reflexivity. Qed.

Lemma _convert_type_rec_settles (frames : nat) (ts o : str) :
  _convert_type_rec frames ts = Ok o -> _convert_type ts = Ok o.
Proof.
  intro E. unfold _convert_type.
  destruct (Nat.le_gt_cases frames (S (length ts))) as [H|H].
  - exact (@_convert_type_rec_mono frames (S (length ts)) ts o H E).
  - rewrite <- E. apply _convert_type_rec_depth; lia.
Qed.

(** Whatever [convert] returns on a stack of some height is what the
    definitions written without the stack give. *)
Lemma convert_in_settles (frames : nat) (js_code : str) (st : renames) (o : str * renames) :
  convert_in frames js_code st = Ok o -> convert js_code st = Ok o.
Proof.
  intro E. change (convert js_code st) with (convert_with _convert_type js_code st).
  exact (@convert_with_agree (_convert_type_rec frames) _convert_type
           (_convert_type_rec_settles frames) _ _ _ E).
Qed.

(** ** The input on which the stack runs out *)

Lemma nested_array_chars (n : nat) (c : ascii) :
  In c (nested_array n) -> In c (L "Array<T>").
Proof.
  induction n as [|n IH]; cbn [nested_array]; intro H.
  - destruct H as [<-|[]]. cbv [L list_ascii_of_string In]. tauto.
  - apply in_app_or in H. destruct H as [H|H].
    + cbv [L list_ascii_of_string In] in *. tauto.
    + apply in_app_or in H. destruct H as [H|H]; [auto|].
      cbv [L list_ascii_of_string In] in *. tauto.
Qed.

Lemma deep_generic_js_chars (n : nat) (c : ascii) :
  In c (deep_generic_js n) -> In c (L "function f(x:Array<T>){}").
Proof.
  unfold deep_generic_js. intro H.
  apply in_app_or in H. destruct H as [H|H].
  - cbv [L list_ascii_of_string In] in *. tauto.
  - apply in_app_or in H. destruct H as [H|H].
    + apply nested_array_chars in H. cbv [L list_ascii_of_string In] in *. tauto.
    + cbv [L list_ascii_of_string In] in *. tauto.
Qed.

Lemma contains_needs_chr (c : ascii) (p s : str) :
  In c p -> ~ In c s -> contains p s = false.
Proof.
  intros Hp Hs. apply not_true_is_false. intro H. apply Hs. clear Hs.
  induction s as [|x s IH]; cbn [contains] in H.
  - rewrite orb_false_r in H. destruct p; [contradiction | discriminate].
  - apply orb_true_iff in H. destruct H as [H|H]; [|right; auto].
    destruct (startswith_prefix _ _ H) as [t ->]. apply in_or_app. now left.
Qed.

Lemma nested_array_no_bar (n : nat) : contains (L "|") (nested_array n) = false.
Proof.
  apply (@contains_needs_chr "|"%char); [now left|].
  intro H. apply nested_array_chars in H. cbv [L list_ascii_of_string In] in H.
  intuition discriminate.
Qed.

Lemma nested_array_last (n : nat) :
  exists (x : ascii) (m : str) (y : ascii),
    nested_array n = x :: m /\ nested_array n = removelast (nested_array n) ++ [y]
    /\ isspace x = false /\ isspace y = false.
Proof.
  destruct n as [|n]; cbn [nested_array].
  - exists "T"%char, [], "T"%char. repeat split.
  - exists "A"%char, (L "rray<" ++ nested_array n ++ L ">"), ">"%char.
    split; [reflexivity|]. split; [|split; reflexivity].
    change (L "Array<" ++ nested_array n ++ L ">")
      with ((L "Array<" ++ nested_array n) ++ [(">"%char)]) at 2.
    rewrite removelast_last.
    change (L "Array<" ++ nested_array n ++ L ">")
      with (L "Array<" ++ nested_array n ++ [(">"%char)]).
    now rewrite app_assoc.
Qed.

Lemma strip_own (u : str) : trimmed u = true -> strip u = u.
Proof.
  intro H. rewrite <- (app_nil_r u) at 1.
  apply (@strip_pad [] u []); [exact H | constructor | constructor].
Qed.

Lemma trimmed_cons (x : ascii) (m : str) (y : ascii) :
  isspace x = false -> isspace y = false -> trimmed (x :: m ++ [y]) = true.
Proof.
  intros Hx Hy. unfold trimmed. rewrite Hx.
  change (x :: m ++ [y]) with ((x :: m) ++ [y]). now rewrite last_last, Hy.
Qed.

Lemma nested_array_trimmed (n : nat) : trimmed (nested_array n) = true.
Proof.
  destruct n as [|n]; cbn [nested_array]; [reflexivity|].
  change (L "Array<" ++ nested_array n ++ L ">")
    with ("A"%char :: L "rray<" ++ nested_array n ++ [(">"%char)]).
  rewrite app_assoc. now apply trimmed_cons.
Qed.

(** With no more frames than levels the call raises. *)
Lemma _convert_type_rec_deep (frames : nat) :
  forall n, frames <= n -> _convert_type_rec frames (nested_array n) = Raise RecursionError.
Proof.
  induction frames as [|d IH]; intros n Hn; [reflexivity|].
  destruct n as [|n]; [lia|]. cbn [nested_array].
  rewrite _convert_type_rec_array.
  - rewrite IH; [reflexivity | lia].
  - apply nested_array_no_bar.
  - destruct (lookup (L "Array<" ++ nested_array n ++ L ">") type_map) as [v|] eqn:E;
      [|reflexivity].
    apply (proj1 (type_map_generic (nested_array n) v)) in E. cbv [In] in E.
    repeat (destruct E as [E|E];
            [pose proof (f_equal fst E) as Hk; cbn [fst] in Hk;
             destruct n; cbn [nested_array] in Hk; discriminate Hk|]).
    contradiction.
Qed.

Lemma split1_first (c : ascii) (a b : str) :
  ~ In c a -> split1 c (a ++ c :: b) = [a; b].
Proof.
  induction a as [|x a IH]; intro H; cbn [app split1].
  - now rewrite (proj2 (chr_eqb_eq c c) eq_refl).
  - assert (E : chr_eqb x c = false).
    { apply chr_eqb_neq. intros ->. apply H. now left. }
    rewrite E, IH; [reflexivity|]. intro Hin. apply H. now right.
Qed.

Lemma _convert_params_with_deep (ct : str -> result str) (n : nat) :
  ct (nested_array n) = Raise RecursionError ->
  _convert_params_with ct (L "x:" ++ nested_array n) = Raise RecursionError.
Proof.
  intro Hct.
  assert (Hs : strip (L "x:" ++ nested_array n) = L "x:" ++ nested_array n).
  { apply strip_own.
    destruct (nested_array_last n) as [x [m [y [_ [E [_ Hy]]]]]]. rewrite E.
    change (L "x:" ++ removelast (nested_array n) ++ [y])
      with ("x"%char :: L ":" ++ removelast (nested_array n) ++ [y]).
    rewrite app_assoc. now apply trimmed_cons. }
  assert (Hcomma : ~ In ","%char (L "x:" ++ nested_array n)).
  { intro H. apply in_app_or in H. destruct H as [H|H].
    - cbv [L list_ascii_of_string In] in H. intuition discriminate.
    - apply nested_array_chars in H. cbv [L list_ascii_of_string In] in H.
      intuition discriminate. }
  unfold _convert_params_with. rewrite Hs.
  change (L "x:" ++ nested_array n) with ("x"%char :: L ":" ++ nested_array n) at 1.
  cbv iota. rewrite (@split_no_sep ","%char _ Hcomma). cbn [mapR].
  unfold _convert_param_with at 1. cbv zeta. rewrite Hs.
  rewrite (@contains_app_l (L ":") (L "x:") (nested_array n) eq_refl).
  change (L "x:" ++ nested_array n) with (L "x" ++ ":"%char :: nested_array n).
  rewrite split1_first; [|cbv [L list_ascii_of_string In]; intuition discriminate].
  rewrite (@strip_own (nested_array n) (nested_array_trimmed n)), Hct. reflexivity.
Qed.

(** ** The match of the function pattern on that input *)

Lemma star_loop_through (p : ascii -> bool) (k : cursor -> option cursor) (cs : captures)
    (u s : str) (r : cursor) :
  Forall (fun c => p c = true) u ->
  forall i pv, (forall pv', star_loop p k cs (i + length u) pv' s = Some r) ->
               star_loop p k cs i pv (u ++ s) = Some r.
Proof.
  induction 1 as [|x u Hx Hu IH]; intros i pv H.
  - cbn [app]. specialize (H pv). cbn [length] in H. now rewrite Nat.add_0_r in H.
  - cbn [app star_loop]. rewrite Hx. rewrite (IH (S i) (Some x)); [reflexivity|].
    intro pv'. specialize (H pv'). cbn [length] in H.
    now replace (S i + length u) with (i + S (length u)) by lia.
Qed.

Lemma function_head (subj tail : str) (X : regex) (k : cursor -> option cursor) :
  rmatch subj (seq_re [lit "function"; ws1; Grp 1 w1; ws; lit "("; X])
         (Cursor 0 None (L "function f(" ++ tail) no_captures) k
  = rmatch subj X (Cursor 11 (Some "("%char) tail (set_capture 1 (9, 10) no_captures)) k.
Proof. reflexivity. Qed.

Lemma function_declaration_on (raw : str) :
  Forall (fun c => not_chr ")" c = true) raw ->
  exists m,
    match_at function_declaration (L "function f(" ++ raw ++ L "){}") 0 None
             (L "function f(" ++ raw ++ L "){}") false = Some m
    /\ group_str m 1 = Ok (L "f") /\ group_str m 2 = Ok raw.
Proof.
  intro Hraw. set (subj := L "function f(" ++ raw ++ L "){}").
  assert (E : rmatch subj function_declaration (Cursor 0 None subj no_captures)
                (fun c' => if false && Nat.eqb (pos c') 0 then None else Some c')
              = Some (Cursor (S (S (11 + length raw))) (Some "{"%char) (L "}")
                        (set_capture 2 (11, 11 + length raw)
                           (set_capture 1 (9, 10) no_captures)))).
  { change function_declaration
      with (seq_re [lit "function"; ws1; Grp 1 w1; ws; lit "(";
                    seq_re [Grp 2 (Star (not_chr ")")); lit ")"; ws;
                            Opt (seq_re [lit ":"; ws; Grp 3 (Plus (not_chr "{"))]);
                            ws; lit "{"]]).
    unfold subj at 2. rewrite function_head.
    cbn [seq_re rmatch caps pos prev rest].
    apply star_loop_through; [exact Hraw|]. intro pv'. reflexivity. }
  unfold match_at. rewrite E. eexists. split; [reflexivity|]. split.
  - reflexivity.
  - transitivity (Ok (slice 11 (11 + length raw) subj)); [reflexivity|]. f_equal.
    exact (@slice_middle (L "function f(") raw (L "){}")).
Qed.

Lemma re_sub_fn_raises_first (r : regex) (f : matchobj -> result str) (x : ascii) (s : str)
    (m : matchobj) (e : exn) :
  match_at r (x :: s) 0 None (x :: s) false = Some m -> f m = Raise e ->
  re_sub_fn r f (x :: s) = Raise e.
Proof.
  intros Hm Hf. unfold re_sub_fn, pieces. cbn [scan]. rewrite Hm.
  destruct (Nat.eqb (m_end m) 0); [destruct (match_at r (x :: s) 0 None (x :: s) true)|];
    cbn [mapR]; rewrite Hf; reflexivity.
Qed.

Lemma deep_generic_js_marks (n : nat) :
  occurs_any [L "@"; L "import"; L "require("; L "=>"] (deep_generic_js n) = false.
Proof.
  unfold occurs_any. cbn [existsb].
  rewrite (@contains_needs_chr "@"%char (L "@")),
          (@contains_needs_chr "m"%char (L "import")),
          (@contains_needs_chr "q"%char (L "require(")),
          (@contains_needs_chr "="%char (L "=>")); try reflexivity;
    try (cbv [L list_ascii_of_string In]; tauto);
    intro H; apply deep_generic_js_chars in H; cbv [L list_ascii_of_string In] in H;
    intuition discriminate.
Qed.

Lemma _convert_functions_with_deep (ct : str -> result str) (n : nat) :
  ct (nested_array n) = Raise RecursionError ->
  _convert_functions_with ct (deep_generic_js n) = Raise RecursionError.
Proof.
  intro Hct. pose proof (deep_generic_js_marks n) as H.
  unfold _convert_functions_with. do 2 keep_sub H.
  assert (Hraw : Forall (fun c => not_chr ")" c = true) (L "x:" ++ nested_array n)).
  { apply Forall_forall. intros c Hc. apply in_app_or in Hc. destruct Hc as [Hc|Hc].
    - cbv [L list_ascii_of_string In] in Hc.
      destruct Hc as [<-|[<-|[]]]; reflexivity.
    - apply nested_array_chars in Hc. cbv [L list_ascii_of_string In] in Hc.
      repeat (destruct Hc as [<-|Hc]; [reflexivity|]). contradiction. }
  destruct (function_declaration_on Hraw) as [m [Hm [H1 H2]]].
  change (L "function f(" ++ (L "x:" ++ nested_array n) ++ L "){}")
    with (deep_generic_js n) in Hm.
  change (deep_generic_js n)
    with ("f"%char :: L "unction f(x:" ++ nested_array n ++ L "){}") in Hm |- *.
  rewrite (@re_sub_fn_raises_first function_declaration (convert_function_with ct)
             _ _ m RecursionError Hm); [reflexivity|].
  unfold convert_function_with. rewrite H1, H2, !bind_ok.
  now rewrite (_convert_params_with_deep ct n Hct).
Qed.

Lemma convert_with_deep (ct : str -> result str) (n : nat) (st : renames) :
  ct (nested_array n) = Raise RecursionError ->
  convert_with ct (deep_generic_js n) st = Raise RecursionError.
Proof.
  intro Hct. pose proof (deep_generic_js_marks n) as H.
  assert (E0 : _extract_decorators (deep_generic_js n) = Ok ([], deep_generic_js n)).
  { unfold _extract_decorators.
    rewrite (@re_findall_none decorator_pattern (deep_generic_js n) _ H eq_refl).
    keep_sub H. reflexivity. }
  assert (E1 : _convert_imports (deep_generic_js n) = Ok (deep_generic_js n)).
  { unfold _convert_imports. repeat keep_sub H. reflexivity. }
  unfold convert_with, translate_with, bindM, lift.
  rewrite E0. cbv beta iota zeta. rewrite E1.
  now rewrite (_convert_functions_with_deep ct n Hct).
Qed.

Lemma convert_in_deep (frames k : nat) (st : renames) :
  convert_in frames (deep_generic_js (frames + k)) st = Raise RecursionError.
Proof.
  apply convert_with_deep. apply _convert_type_rec_deep. lia.
Qed.

(** ** What the stack decides *)

Lemma js_to_python_in_deep (frames k : nat) :
  js_to_python_in frames (string_of_list_ascii (deep_generic_js (frames + k)))
  = Raise RecursionError.
Proof.
  unfold js_to_python_in, L. rewrite list_ascii_of_string_of_list_ascii.
  rewrite convert_in_deep. reflexivity.
Qed.

(** C1: [convert] does raise.  A parameter type of nested generics takes
    one call of [_convert_type] per level, so on a stack with [frames]
    frames left an input nested that deep or deeper ends in
    [RecursionError], which nothing between [_convert_type] and the caller
    of [convert] catches; with the interpreter's limit of a thousand frames
    a thousand levels are enough.  One level less than the stack has room
    for converts.  [RecursionError] is the only exception [convert] can
    raise, and what it returns does not depend on the room left. *)
Theorem convert_raises_on_deep_generics :
  (forall (frames k : nat) (st : renames),
      convert_in frames (deep_generic_js (frames + k)) st = Raise RecursionError)
  /\ (forall frames k : nat,
         js_to_python_in frames (string_of_list_ascii (deep_generic_js (frames + k)))
         = Raise RecursionError)
  /\ (forall st : renames,
         convert_in 1000 (deep_generic_js 1000) st = Raise RecursionError)
  /\ (forall frames k : nat,
         _convert_type_rec frames (nested_array (frames + k)) = Raise RecursionError)
  /\ deep_generic_js 2 = L "function f(x:Array<Array<T>>){}"
  /\ js_to_python_in 2 "function f(x:Array<Array<T>>){}" = Raise RecursionError
  /\ js_to_python_in 3 "function f(x:Array<Array<T>>){}" =
       Ok "from typing import List, Dict, Any, Union, Optional, Awaitable

def f(x: List[List[T]]) -> Any:"%string
  /\ (forall (frames : nat) (js_code : str) (st : renames),
         convert_in frames js_code st = Raise RecursionError
         \/ exists out st', convert_in frames js_code st = Ok (out, st'))
  /\ (forall (frames : nat) (js_code out : str) (st st' : renames),
         convert_in frames js_code st = Ok (out, st') ->
         convert js_code st = Ok (out, st')).
Proof.
  split; [intros frames k st; apply convert_in_deep|].
  split; [exact js_to_python_in_deep|].
  split; [intro st; exact (convert_in_deep 1000 0 st)|].
  split; [intros frames k; apply _convert_type_rec_deep; lia|].
  split; [reflexivity|].
  split; [vm_compute; reflexivity|].
  split; [vm_compute; reflexivity|].
  split.
  - intros frames js_code st.
    destruct (convert_in_unless_deep frames js_code st) as [E|[out [st' E]]];
      [now left | right; now exists out, st'].
  - intros frames js_code out st st'. apply convert_in_settles.
Qed.

(** X14: for an item registered as JavaScript or TypeScript the deployer
    sends the converter's output and prints the one line that says so,
    unless the converter ran out of stack: then, and only then, the
    [except] arm prints its two lines and the method of the base class
    answers.  A function with a parameter type nested as deep as the stack
    has frames left takes that arm. *)
Theorem js_items_fall_back_only_when_out_of_frames :
  (forall (Handle : Type) (frames : nat) (parent : option Handle -> result string)
          (it : registered_item Handle) (lang : string),
      language it = Some lang ->
      lang = "javascript"%string \/ lang = "typescript"%string ->
      (exists converted,
          js_to_python_in frames (original_of it) = Ok converted
          /\ _get_source_code frames parent it = ([Converted lang], Ok converted))
      \/ (js_to_python_in frames (original_of it) = Raise RecursionError
          /\ _get_source_code frames parent it
             = ([FailedToConvert lang RecursionError; UsingOriginal],
                parent (func_or_cls it))))
  /\ (forall (Handle : Type) (frames k : nat) (parent : option Handle -> result string)
             (f : Handle),
         _get_source_code frames parent
           (Item (Some "typescript"%string)
                 (Some (string_of_list_ascii (deep_generic_js (frames + k))))
                 (Some f) None)
         = ([FailedToConvert "typescript" RecursionError; UsingOriginal],
            parent (Some f))).
Proof.
  split.
  - intros Handle frames parent it lang Hl Hjs. unfold _get_source_code. rewrite Hl.
    assert (E : existsb (String.eqb lang) ["javascript"; "typescript"]%string = true).
    { destruct Hjs as [-> | ->]; reflexivity. }
    rewrite E.
    destruct (js_to_python_in_unless_deep frames (original_of it)) as [R|[converted R]];
      rewrite R.
    + right. split; reflexivity.
    + left. exists converted. split; reflexivity.
  - intros Handle frames k parent f. unfold _get_source_code.
    cbn [language original_of original_source func_or_cls func].
    change (existsb (String.eqb "typescript") ["javascript"; "typescript"]%string) with true.
    cbv iota. rewrite js_to_python_in_deep. reflexivity.
Qed.

Lemma js_items_fall_back_only_when_out_of_frames_witness :
  language (Item (Some "javascript"%string) (Some "a === b"%string) (Some tt) None)
    = Some "javascript"%string
  /\ ("javascript" = "javascript" \/ "javascript" = "typescript")%string
  /\ ((exists converted,
          js_to_python_in 10 "a === b" = Ok converted
          /\ _get_source_code 10 (fun _ : option unit => Raise AttributeError)
               (Item (Some "javascript"%string) (Some "a === b"%string) (Some tt) None)
             = ([Converted "javascript"], Ok converted))
      \/ (js_to_python_in 10 "a === b" = Raise RecursionError
          /\ _get_source_code 10 (fun _ : option unit => Raise AttributeError)
               (Item (Some "javascript"%string) (Some "a === b"%string) (Some tt) None)
             = ([FailedToConvert "javascript" RecursionError; UsingOriginal],
                Raise AttributeError))).
Proof.
  split; [reflexivity|]. split; [left; reflexivity|].
  exact (proj1 js_items_fall_back_only_when_out_of_frames unit 10
           (fun _ : option unit => Raise AttributeError)
           (Item (Some "javascript"%string) (Some "a === b"%string) (Some tt) None)
           "javascript"%string eq_refl (or_introl eq_refl)).
Defined.
